(** * docutext: the text assembler ([src/content/assembler.ts])

    A shallow embedding of the reading-order reconstruction engine:
    line clustering, text-object-aware ordering, column detection and
    reordering, the unified walk with its plain-text and structured
    sinks, PUA normalisation and form-placeholder stripping, and the
    heading levels of [src/content/markdown.ts].

    Modelling conventions.
    - A JavaScript [number] is an exact rational ([Q]).  Every constant of
      the source ([0.5], [1.8], [0.15], [0.6], [2.5], ...) is the same
      decimal here.  [NaN] and the infinities have no counterpart, so the
      only falsy number is [0].
    - A JavaScript string is the list of its UTF-16 code units.
    - An array is a list; [push] appends at the end.
    - A [TypeError] raised by reading a property of [undefined] is [None]
      in the option monad. *)

From Stdlib Require Import QArith Qabs Qminmax Lqa.
From stdpp Require Import base option list sorting gmap strings.

(** ** JavaScript primitives *)

Module Js.

(** A string as its UTF-16 code units. *)
Definition jsstring : Type := list N.

(** An ASCII literal as a JavaScript string. *)
Definition str (s : string) : jsstring :=
  Ascii.N_of_ascii <$> String.list_ascii_of_string s.

(** [s.length] as a number. *)
Definition len (s : jsstring) : Q := inject_Z (Z.of_nat (length s)).

(** [a > b], [a < b] and [a >= b] on numbers. *)
Definition gtb (a b : Q) : bool := negb (Qle_bool a b).
Definition ltb (a b : Q) : bool := negb (Qle_bool b a).
Definition geb (a b : Q) : bool := Qle_bool b a.
Definition leb (a b : Q) : bool := Qle_bool a b.

(** [a || d] on numbers: [0] is the only falsy rational. *)
Definition or (a d : Q) : Q := if Qeq_bool a 0 then d else a.

(** [Math.max(a, b)]. *)
Definition max (a b : Q) : Q := if Qle_bool a b then b else a.

(** [Array.prototype.sort(cmp)].  The sort is stable (ES2019); for a
    comparator that is a consistent ordering every stable sort returns
    the same array, so the algorithm is an insertion sort: [a] goes
    before the first [b] of the sorted rest with [cmp(a, b) <= 0]. *)
Fixpoint sort_insert {A} (cmp : A → A → Q) (a : A) (l : list A) : list A :=
  match l with
  | [] => [a]
  | b :: l' =>
      if Qle_bool (cmp a b) 0 then a :: l else b :: sort_insert cmp a l'
  end.

Definition sort {A} (cmp : A → A → Q) (l : list A) : list A :=
  foldr (sort_insert cmp) [] l.

(** [arr.slice(lo, hi)]. *)
Definition slice {A} (lo hi : nat) (l : list A) : list A :=
  take (hi - lo) (drop lo l).

End Js.

Abbreviation jsstring := Js.jsstring.

(** ** Data model ([src/types.ts] is known through its uses and the
    test helper [makeItem]) *)

Module TextItem.
Record t : Type := mk {
  text : jsstring;
  x : Q;
  y : Q;
  fontSize : Q;
  fontName : jsstring;
  width : Q;
  _textObjectId : option N
}.
End TextItem.

(** [type TaggedEntry = { item: TextItem; i: number }] *)
Module TaggedEntry.
Record t : Type := mk { item : TextItem.t; i : nat }.
End TaggedEntry.

Abbreviation TextItem := TextItem.t.
Abbreviation TaggedEntry := TaggedEntry.t.
Abbreviation item := TaggedEntry.item.

(** [interface GapInfo] *)
Module GapInfo.
Record t : Type := mk { rightX : Q; fontSize : Q }.
End GapInfo.

(** [interface ColumnRegion] *)
Module ColumnRegion.
Record t : Type := mk { start : nat; end_ : nat; boundaryX : Q }.
End ColumnRegion.

(** [LinkAnnotation] of [src/content/links.ts], a rectangle and its URI. *)
Module LinkAnnotation.
Record t : Type := mk { x1 : Q; y1 : Q; x2 : Q; y2 : Q; uri : jsstring }.
End LinkAnnotation.

(** [TextSpan]: the [link] property is absent ([None]) or a string. *)
Module TextSpan.
Record t : Type := mk {
  text : jsstring;
  bold : bool;
  italic : bool;
  link : option jsstring
}.
End TextSpan.

(** [interface StructuredLine] *)
Module StructuredLine.
Record t : Type := mk {
  text : jsstring;
  spans : list TextSpan.t;
  fontSize : Q;
  y : Q;
  isBlankAfter : bool
}.
End StructuredLine.

(** [interface AssemblyOptions { stripFormPlaceholders?: boolean }] *)
Module AssemblyOptions.
Record t : Type := mk { stripFormPlaceholders : option bool }.
End AssemblyOptions.

(** What [detectFontStyle] returns. *)
Module FontStyle.
Record t : Type := mk { bold : bool; italic : bool }.
End FontStyle.

Local Open Scope Q_scope.

(** ** Gap/space classifier *)

Definition shouldInsertSpace
    (xGap posGap textLen fontSize : Q) (hasMetricWidth : bool) : bool :=
  if hasMetricWidth then Js.gtb xGap (fontSize * 0.15)
  else
    let estimatedRunWidth := Js.max textLen 1 * fontSize * 0.5 in
    Js.gtb posGap estimatedRunWidth.

(** ** sortTextItems, phases 1 to 3 *)

(** Phase 1 comparator: [(b.item.y || 0) - (a.item.y || 0)]. *)
Definition compareY (a b : TaggedEntry) : Q :=
  Js.or (TextItem.y (item b)) 0 - Js.or (TextItem.y (item a)) 0.

(** The threshold of phase 2:
    [(prev.item.fontSize > 0 ? prev.item.fontSize : 12) * 0.5]. *)
Definition clusterThreshold (prev : TaggedEntry) : Q :=
  (if Js.gtb (TextItem.fontSize (item prev)) 0
   then TextItem.fontSize (item prev) else 12) * 0.5.

(** One iteration of the loop of phase 2 over [(lines, currentLine)].
    [prev] is the last entry of [currentLine]; on an empty [currentLine]
    the source would read a property of [undefined]. *)
Definition clusterStep
    (st : list (list TaggedEntry) * list TaggedEntry) (e : TaggedEntry)
    : option (list (list TaggedEntry) * list TaggedEntry) :=
  let '(lines, currentLine) := st in
  prev ← last currentLine;
  let yDelta := Qabs (TextItem.y (item e) - TextItem.y (item prev)) in
  let threshold := clusterThreshold prev in
  if Js.gtb yDelta threshold
  then Some (lines ++ [currentLine], [e])
  else Some (lines, currentLine ++ [e]).

Fixpoint clusterLoop
    (rest : list TaggedEntry)
    (st : list (list TaggedEntry) * list TaggedEntry)
    : option (list (list TaggedEntry) * list TaggedEntry) :=
  match rest with
  | [] => Some st
  | e :: rest' => st' ← clusterStep st e; clusterLoop rest' st'
  end.

(** Phase 2 on the y-sorted entries (the caller has checked that there is
    at least one). *)
Definition clusterLines (tagged : list TaggedEntry)
    : option (list (list TaggedEntry)) :=
  t0 ← head tagged;
  '(lines, currentLine) ← clusterLoop (tail tagged) ([], [t0]);
  Some (if bool_decide (0 < length currentLine)%nat
        then lines ++ [currentLine] else lines).

(** The [objMinX] map of phase 3, one [for] iteration. *)
Definition objMinXStep (objMinX : gmap N Q) (entry : TaggedEntry) : gmap N Q :=
  match TextItem._textObjectId (item entry) with
  | None => objMinX
  | Some objId =>
      match objMinX !! objId with
      | None => <[objId := TextItem.x (item entry)]> objMinX
      | Some existing =>
          if Js.ltb (TextItem.x (item entry)) existing
          then <[objId := TextItem.x (item entry)]> objMinX
          else objMinX
      end
  end.

Definition buildObjMinX (line : list TaggedEntry) : gmap N Q :=
  foldl objMinXStep ∅ line.

(** The comparator of [line.sort]. *)
Definition compareInLine (objMinX : gmap N Q) (a b : TaggedEntry) : Q :=
  let objA := TextItem._textObjectId (item a) in
  let objB := TextItem._textObjectId (item b) in
  let byGroup : option Q :=
    match objA, objB with
    | Some oa, Some ob =>
        if bool_decide (oa ≠ ob) then
          let minXA := default 0 (objMinX !! oa) in
          let minXB := default 0 (objMinX !! ob) in
          if Js.gtb (Qabs (minXA - minXB)) 0.1
          then Some (minXA - minXB) else None
        else None
    | _, _ => None
    end in
  match byGroup with
  | Some r => r
  | None =>
      if bool_decide (is_Some objA) && bool_decide (objA = objB)
      then inject_Z (Z.of_nat (TaggedEntry.i a) - Z.of_nat (TaggedEntry.i b))
      else Js.or (TextItem.x (item a)) 0 - Js.or (TextItem.x (item b)) 0
  end.

Definition sortLine (line : list TaggedEntry) : list TaggedEntry :=
  Js.sort (compareInLine (buildObjMinX line)) line.

(** ** Column-aware text flow *)

Definition MIN_COLUMN_RUN : nat := 3.
Definition COLUMN_GAP_FACTOR : Q := 3.
Definition MAX_GAPLESS_BRIDGE : nat := 3.

(** [it.x + (it.width || it.text.length * (it.fontSize || 12) * 0.6)] *)
Definition rightEdgeOf (it : TextItem) : Q :=
  TextItem.x it
  + Js.or (TextItem.width it)
      (Js.len (TextItem.text it) * Js.or (TextItem.fontSize it) 12 * 0.6).

Definition itemRightEdge (entry : TaggedEntry) : Q := rightEdgeOf (item entry).

Definition lineIsOneSide (line : list TaggedEntry) (boundary : Q) : bool :=
  forallb (λ e, Js.ltb (itemRightEdge e) boundary) line
  || forallb (λ e, Js.geb (TextItem.x (item e)) boundary) line.

(** The [for] loop of [findDominantColumnGap]: [prev] is [line[j - 1].item],
    [rest] is [line[j..]], the state is [(maxGap, maxGapRightX)]. *)
Fixpoint gapScan (minGap : Q) (prev : TextItem) (rest : list TaggedEntry)
    (maxGap maxGapRightX : Q) : Q * Q :=
  match rest with
  | [] => (maxGap, maxGapRightX)
  | e :: rest' =>
      let curr := item e in
      let prevEnd := rightEdgeOf prev in
      let gap := TextItem.x curr - prevEnd in
      if Js.gtb gap minGap && Js.gtb gap maxGap
      then gapScan minGap curr rest' gap (TextItem.x curr)
      else gapScan minGap curr rest' maxGap maxGapRightX
  end.

Definition findDominantColumnGap (line : list TaggedEntry) : option GapInfo.t :=
  match line with
  | e0 :: (_ :: _) as rest =>
      let fontSize := Js.or (TextItem.fontSize (item e0)) 12 in
      let minGap := fontSize * COLUMN_GAP_FACTOR in
      let '(maxGap, maxGapRightX) := gapScan minGap (item e0) rest 0 0 in
      if Js.gtb maxGap 0
      then Some (GapInfo.mk maxGapRightX fontSize) else None
  | _ => None                          (* line.length < 2 *)
  end.

(** [lines[j][0].item]: [None] when either index is out of range. *)
Definition firstItem (lines : list (list TaggedEntry)) (j : nat)
    : option TextItem :=
  l ← lines !! j; e ← head l; Some (item e).

Section DetectColumnRegions.

Variable lines : list (list TaggedEntry).

Let gaps : list (option GapInfo.t) := findDominantColumnGap <$> lines.

(** [sumRX / count] *)
Definition runningMean (sumRX : Q) (count : nat) : Q :=
  sumRX / inject_Z (Z.of_nat count).

(** The inner [while (j < gaps.length)] loop, which grows a region
    forward.  [k] counts the iterations left before [j] reaches
    [gaps.length]; the result is [(j, sumRX, count)] at the exit. *)
Fixpoint growRegion (tolerance : Q) (k j : nat)
    (sumRX : Q) (count gaplessRun : nat) : option (nat * Q * nat) :=
  match k with
  | O => Some (j, sumRX, count)
  | S k' =>
      match gaps !! j with
      | Some (Some g) =>
          if Js.gtb (Qabs (GapInfo.rightX g - runningMean sumRX count))
               tolerance
          then Some (j, sumRX, count)
          else growRegion tolerance k' (S j)
                 (sumRX + GapInfo.rightX g) (S count) 0
      | _ =>
          if bool_decide (MAX_GAPLESS_BRIDGE ≤ gaplessRun)%nat
          then Some (j, sumRX, count)
          else
            cur ← firstItem lines j;
            prv ← firstItem lines (j - 1);
            let yGap := Qabs (TextItem.y cur - TextItem.y prv) in
            let fs := Js.or (TextItem.fontSize prv) 12 in
            if Js.gtb yGap (fs * 2.5) then Some (j, sumRX, count)
            else
              l ← lines !! j;
              if negb (lineIsOneSide l (runningMean sumRX count))
              then Some (j, sumRX, count)
              else growRegion tolerance k' (S j) sumRX count (S gaplessRun)
      end
  end.

(** The backward [while (start > minStart)] loop. *)
Fixpoint extendBack (tolerance boundaryX : Q) (minStart start : nat)
    (backGapless : nat) : option nat :=
  match start with
  | O => Some start
  | S before =>
      if bool_decide (minStart < start)%nat then
        match gaps !! before with
        | Some (Some prev) =>
            if Js.gtb (Qabs (GapInfo.rightX prev - boundaryX)) tolerance
            then Some start
            else extendBack tolerance boundaryX minStart before 0
        | _ =>
            if bool_decide (MAX_GAPLESS_BRIDGE ≤ backGapless)%nat
            then Some start
            else
              l ← lines !! before;
              if negb (lineIsOneSide l boundaryX) then Some start
              else extendBack tolerance boundaryX minStart before
                     (S backGapless)
        end
      else Some start
  end.

(** The outer [while (i < gaps.length)] loop.  [i] grows by at least one
    in every iteration, so [fuel >= gaps.length - i] iterations are
    enough: with that many the result does not depend on [fuel]. *)
Fixpoint detectLoop (fuel i : nat) (regions : list ColumnRegion.t)
    : option (list ColumnRegion.t) :=
  match fuel with
  | O => Some regions
  | S fuel' =>
      if bool_decide (i < length gaps)%nat then
        match gaps !! i with
        | Some (Some anchor) =>
            let tolerance := GapInfo.fontSize anchor * 3 in
            '(j, sumRX, count) ←
              growRegion tolerance (length gaps - S i) (S i)
                (GapInfo.rightX anchor) 1 0;
            if bool_decide (MIN_COLUMN_RUN ≤ count)%nat then
              let boundaryX := runningMean sumRX count in
              let minStart :=
                match last regions with
                | Some r => ColumnRegion.end_ r
                | None => O
                end in
              start ← extendBack tolerance boundaryX minStart i 0;
              detectLoop fuel' j
                (regions ++ [ColumnRegion.mk start j boundaryX])
            else detectLoop fuel' (S i) regions
        | _ => detectLoop fuel' (S i) regions
        end
      else Some regions
  end.

Definition detectColumnRegions : option (list ColumnRegion.t) :=
  detectLoop (length gaps) 0 [].

(** [while (lineIdx < hi) result.push(lines[lineIdx++])], run for the
    [n = hi - lineIdx] iterations it makes. *)
Fixpoint pushLines (n lineIdx : nat) (result : list (list TaggedEntry))
    : option (list (list TaggedEntry)) :=
  match n with
  | O => Some result
  | S n' => l ← lines !! lineIdx; pushLines n' (S lineIdx) (result ++ [l])
  end.

(** The [for (const entry of lines[j])] loop that fills [l] and [r]. *)
Definition splitLine (splitX : Q) (line : list TaggedEntry)
    : list TaggedEntry * list TaggedEntry :=
  foldl (λ '(l, r) entry,
           if Js.ltb (TextItem.x (item entry)) splitX
           then (l ++ [entry], r) else (l, r ++ [entry]))
        ([], []) line.

(** [splitX] for one line of a region. *)
Definition splitXOf (region : ColumnRegion.t) (line : list TaggedEntry) : Q :=
  match findDominantColumnGap line with
  | Some lineGap => GapInfo.rightX lineGap
  | None => ColumnRegion.boundaryX region
  end.

(** The [for (let j = region.start; j < region.end; j++)] loop, run for
    its [n = region.end - j] iterations over [(left, right)], here
    [(leftParts, rightParts)]. *)
Fixpoint splitRegion (region : ColumnRegion.t) (n j : nat)
    (leftParts rightParts : list (list TaggedEntry))
    : option (list (list TaggedEntry) * list (list TaggedEntry)) :=
  match n with
  | O => Some (leftParts, rightParts)
  | S n' =>
      line ← lines !! j;
      let '(l, r) := splitLine (splitXOf region line) line in
      splitRegion region n' (S j)
        (if bool_decide (0 < length l)%nat
         then leftParts ++ [l] else leftParts)
        (if bool_decide (0 < length r)%nat
         then rightParts ++ [r] else rightParts)
  end.

(** One iteration of [for (const region of regions)] over
    [(result, lineIdx)]. *)
Definition reorderStep (st : list (list TaggedEntry) * nat)
    (region : ColumnRegion.t) : option (list (list TaggedEntry) * nat) :=
  let '(result, lineIdx) := st in
  result ← pushLines (ColumnRegion.start region - lineIdx) lineIdx result;
  '(leftParts, rightParts) ←
    splitRegion region (ColumnRegion.end_ region - ColumnRegion.start region)
      (ColumnRegion.start region) [] [];
  Some (result ++ leftParts ++ rightParts, ColumnRegion.end_ region).

Fixpoint reorderLoop (regions : list ColumnRegion.t)
    (st : list (list TaggedEntry) * nat)
    : option (list (list TaggedEntry) * nat) :=
  match regions with
  | [] => Some st
  | region :: regions' => st' ← reorderStep st region; reorderLoop regions' st'
  end.

Definition reorderColumnRegions : option (list (list TaggedEntry)) :=
  regions ← detectColumnRegions;
  if bool_decide (length regions = 0)%nat then Some lines
  else
    '(result, lineIdx) ← reorderLoop regions ([], O);
    pushLines (length lines - lineIdx) lineIdx result.

End DetectColumnRegions.

(** ** sortTextItems *)

Definition tagItems (items : list TextItem) : list TaggedEntry :=
  imap (λ i it, TaggedEntry.mk it i) items.

Definition sortTextItems (items : list TextItem) : option (list TextItem) :=
  if bool_decide (length items = 0)%nat then Some []
  else
    let tagged := Js.sort compareY (tagItems items) in
    lines ← clusterLines tagged;
    let lines := sortLine <$> lines in
    reordered ← reorderColumnRegions lines;
    Some (item <$> concat reordered).

(** ** Regular expressions

    The fragment of JavaScript regular expressions that the assembler
    uses: character classes, greedy [*] and [+] over a class, sequence,
    ordered alternation, positive lookahead and [$] (without the [m]
    flag).  Matching backtracks: [rmatch r s k] tries the ways [r] can
    match a prefix of [s] in JavaScript's priority order and returns the
    first for which the continuation [k] accepts the rest. *)

Module Regex.

Inductive t : Type :=
| Class (p : N → bool)
| Star (p : N → bool)
| Plus (p : N → bool)
| Seq (r1 r2 : t)
| Alt (r1 r2 : t)
| Lookahead (r : t)
| Eos.

(** Greedy [c*]: the longest run first, then shorter ones. *)
Fixpoint star (p : N → bool) (s : jsstring)
    (k : jsstring → option jsstring) : option jsstring :=
  match s with
  | c :: s' =>
      if p c then
        match star p s' k with
        | Some rest => Some rest
        | None => k s
        end
      else k s
  | [] => k s
  end.

Fixpoint rmatch (r : t) (s : jsstring)
    (k : jsstring → option jsstring) : option jsstring :=
  match r with
  | Class p =>
      match s with
      | c :: s' => if p c then k s' else None
      | [] => None
      end
  | Star p => star p s k
  | Plus p =>
      match s with
      | c :: s' => if p c then star p s' k else None
      | [] => None
      end
  | Seq r1 r2 => rmatch r1 s (λ s', rmatch r2 s' k)
  | Alt r1 r2 =>
      match rmatch r1 s k with
      | Some rest => Some rest
      | None => rmatch r2 s k
      end
  | Lookahead r1 =>
      match rmatch r1 s Some with
      | Some _ => k s
      | None => None
      end
  | Eos => match s with [] => k s | _ :: _ => None end
  end.

(** A match of [r] at the start of [s]: the rest of [s] after it. *)
Definition exec (r : t) (s : jsstring) : option jsstring := rmatch r s Some.

(** [s.replace(r, '')] for [r] with the [g] flag.  [skip] counts the
    code units of the current match that are still to be dropped; at
    [skip = 0] the next match is looked for at the current position.
    An empty match replaces nothing and the scan moves on by one. *)
Fixpoint removeFrom (r : t) (s : jsstring) (skip : nat) : jsstring :=
  match s with
  | [] => []
  | c :: s' =>
      match skip with
      | S n => removeFrom r s' n
      | O =>
          match exec r s with
          | Some rest =>
              match (length s - length rest)%nat with
              | S n => removeFrom r s' n
              | O => c :: removeFrom r s' 0
              end
          | None => c :: removeFrom r s' 0
          end
      end
  end.

Definition removeAll (r : t) (s : jsstring) : jsstring := removeFrom r s 0.

(** Character classes. *)
Definition inRange (lo hi c : N) : bool := (lo <=? c)%N && (c <=? hi)%N.
Definition isChar (c0 c : N) : bool := (c =? c0)%N.

(** [[a-zA-Z_]] *)
Definition wordStart (c : N) : bool :=
  inRange 97 122 c || inRange 65 90 c || isChar 95 c.
(** [[a-zA-Z]] *)
Definition letter (c : N) : bool := inRange 97 122 c || inRange 65 90 c.
(** [\d] *)
Definition digit (c : N) : bool := inRange 48 57 c.
(** [\s]: the white space and line terminators of ECMAScript. *)
Definition space (c : N) : bool :=
  inRange 9 13 c || isChar 32 c || isChar 0xA0 c || isChar 0x1680 c
  || inRange 0x2000 0x200A c || isChar 0x2028 c || isChar 0x2029 c
  || isChar 0x202F c || isChar 0x205F c || isChar 0x3000 c || isChar 0xFEFF c.
(** The backslash. *)
Definition backslash : N := 92.

End Regex.

(** ** Form placeholders *)

(** The three alternatives of [FORM_PLACEHOLDER_RE]. *)

(** [\\[a-zA-Z_]+\d*\\] *)
Definition SELF_CLOSING_ANCHOR : Regex.t :=
  Regex.Seq (Regex.Class (Regex.isChar Regex.backslash))
    (Regex.Seq (Regex.Plus Regex.wordStart)
       (Regex.Seq (Regex.Star Regex.digit)
          (Regex.Class (Regex.isChar Regex.backslash)))).

(** [\\[a-zA-Z_]+\d+(?=[\s\\a-zA-Z]|$)] *)
Definition OPEN_ANCHOR : Regex.t :=
  Regex.Seq (Regex.Class (Regex.isChar Regex.backslash))
    (Regex.Seq (Regex.Plus Regex.wordStart)
       (Regex.Seq (Regex.Plus Regex.digit)
          (Regex.Lookahead
             (Regex.Alt
                (Regex.Class
                   (λ c, Regex.space c || Regex.isChar Regex.backslash c
                         || Regex.letter c))
                Regex.Eos)))).

(** [ \\(?=[\s]|$)] *)
Definition ORPHANED_DELIMITER : Regex.t :=
  Regex.Seq (Regex.Class (Regex.isChar 32))
    (Regex.Seq (Regex.Class (Regex.isChar Regex.backslash))
       (Regex.Lookahead (Regex.Alt (Regex.Class Regex.space) Regex.Eos))).

Definition FORM_PLACEHOLDER_RE : Regex.t :=
  Regex.Alt SELF_CLOSING_ANCHOR (Regex.Alt OPEN_ANCHOR ORPHANED_DELIMITER).

(** [/\\(?=\s|$)/g] *)
Definition TRAILING_BACKSLASH_RE : Regex.t :=
  Regex.Seq (Regex.Class (Regex.isChar Regex.backslash))
    (Regex.Lookahead (Regex.Alt (Regex.Class Regex.space) Regex.Eos)).

Definition stripFormPlaceholderText (text : jsstring) : jsstring :=
  Regex.removeAll TRAILING_BACKSLASH_RE
    (Regex.removeAll FORM_PLACEHOLDER_RE text).

(** ** Private Use Area normalisation *)

Definition PUA_TO_UNICODE : gmap N N :=
  list_to_map
    [ (0xF020, 0x0020); (0xF02D, 0x2212); (0xF06C, 0x2113); (0xF06E, 0x25CF);
      (0xF0A0, 0x20AC); (0xF0A7, 0x00A7); (0xF0A8, 0x2190); (0xF0A9, 0x2191);
      (0xF0AA, 0x2192); (0xF0AB, 0x2193); (0xF0AC, 0x2194); (0xF0B0, 0x00B0);
      (0xF0B1, 0x00B1); (0xF0B2, 0x2033); (0xF0B3, 0x2265); (0xF0B4, 0x00D7);
      (0xF0B5, 0x221D); (0xF0B7, 0x2022); (0xF0B9, 0x2260); (0xF0BA, 0x2261);
      (0xF0BB, 0x2248); (0xF0D8, 0x00D8); (0xF0E0, 0x21D0); (0xF0E1, 0x21D1);
      (0xF0E2, 0x21D2); (0xF0E3, 0x21D3); (0xF0E4, 0x21D4) ]%N.

(** [PUA_RE = /[\uE000-\uF8FF]/g] *)
Definition isPUA (c : N) : bool := Regex.inRange 0xE000 0xF8FF c.

(** Every mapped code point is below [0x10000], so
    [String.fromCodePoint] yields one code unit. *)
Definition normalizePUA (text : jsstring) : jsstring :=
  ch ← text;
  if isPUA ch then
    match PUA_TO_UNICODE !! ch with
    | Some mapped => [mapped]
    | None => []
    end
  else [ch].

(** ** The unified walk *)

(** Find the URI of a link annotation that overlaps a text item. *)
Fixpoint firstLinkAt (itemCenterX itemY : Q) (links : list LinkAnnotation.t)
    : option jsstring :=
  match links with
  | [] => None
  | link :: links' =>
      if Js.geb itemCenterX (LinkAnnotation.x1 link)
         && Js.leb itemCenterX (LinkAnnotation.x2 link)
         && Js.geb itemY (LinkAnnotation.y1 link)
         && Js.leb itemY (LinkAnnotation.y2 link)
      then Some (LinkAnnotation.uri link)
      else firstLinkAt itemCenterX itemY links'
  end.

Definition findLinkForItem (it : TextItem) (links : list LinkAnnotation.t)
    : option jsstring :=
  if bool_decide (length links = 0)%nat then None
  else
    let itemCenterX := TextItem.x it + Js.or (TextItem.width it) 0 / 2 in
    let itemY := TextItem.y it in
    firstLinkAt itemCenterX itemY links.

(** [interface ItemVisitor]: a visitor acts on a state of type [S]. *)
Module ItemVisitor.
Record t (S : Type) : Type := mk {
  onLineBreak : TextItem → bool → S → S;
  onSpace : S → S;
  onItem : TextItem → option jsstring → S → S;
  onEnd : S → S
}.
Arguments mk {S}.
Arguments onLineBreak {S}.
Arguments onSpace {S}.
Arguments onItem {S}.
Arguments onEnd {S}.
End ItemVisitor.

(** The [let] variables of [walkItems]. *)
Module Walk.
Record t : Type := mk {
  lastX : Q;
  lastY : Q;
  lastFontSize : Q;
  lastWidth : Q;
  lastHasMetricWidth : bool;
  lastTextLen : Q;
  hasContent : bool
}.
End Walk.

(** What the body of the [for] loop signals before [onItem]. *)
Inductive Signal : Type :=
| SignalLineBreak (isParagraphBreak : bool)
| SignalSpace
| SignalNone.

Definition classify (w : Walk.t) (it : TextItem) : Signal :=
  let yDelta := Qabs (TextItem.y it - Walk.lastY w) in
  let lineThreshold := Walk.lastFontSize w * 0.5 in
  if Js.gtb yDelta lineThreshold && Walk.hasContent w then
    SignalLineBreak (Js.gtb yDelta (Walk.lastFontSize w * 1.8))
  else if Walk.hasContent w then
    let xGap := TextItem.x it - (Walk.lastX w + Walk.lastWidth w) in
    let posGap := TextItem.x it - Walk.lastX w in
    if Js.ltb xGap (- Walk.lastFontSize w * 2)
       || shouldInsertSpace xGap posGap (Walk.lastTextLen w)
            (Walk.lastFontSize w) (Walk.lastHasMetricWidth w)
    then SignalSpace else SignalNone
  else SignalNone.

(** The assignments at the end of the loop body. *)
Definition advance (w : Walk.t) (it : TextItem) : Walk.t :=
  let lastFontSize := Js.or (TextItem.fontSize it) (Walk.lastFontSize w) in
  {| Walk.hasContent := true;
     Walk.lastX := TextItem.x it;
     Walk.lastY := TextItem.y it;
     Walk.lastFontSize := lastFontSize;
     Walk.lastHasMetricWidth := Js.gtb (TextItem.width it) 0;
     Walk.lastWidth :=
       Js.or (TextItem.width it)
         (Js.len (TextItem.text it) * lastFontSize * 0.6);
     Walk.lastTextLen := Js.len (TextItem.text it) |}.

Section WalkItems.

Context {S : Type}.
Variable links : list LinkAnnotation.t.
Variable visitor : ItemVisitor.t S.

(** The body of [for (const item of sorted)]. *)
Definition walkStep (st : Walk.t * S) (it : TextItem) : Walk.t * S :=
  let '(w, s) := st in
  if bool_decide (TextItem.text it = []) then st   (* if (!item.text) continue *)
  else
    let itemLink := findLinkForItem it links in
    let s :=
      match classify w it with
      | SignalLineBreak isParagraphBreak =>
          ItemVisitor.onLineBreak visitor it isParagraphBreak s
      | SignalSpace => ItemVisitor.onSpace visitor s
      | SignalNone => s
      end in
    let s := ItemVisitor.onItem visitor it itemLink s in
    (advance w it, s).

(** The initial values of the [let] variables, from [sorted[0]]. *)
Definition walkInit (first : TextItem) : Walk.t :=
  {| Walk.lastX := 0;
     Walk.lastY := TextItem.y first;
     Walk.lastFontSize := Js.or (TextItem.fontSize first) 12;
     Walk.lastWidth := 0;
     Walk.lastHasMetricWidth := false;
     Walk.lastTextLen := 0;
     Walk.hasContent := false |}.

Definition walkItems (items : list TextItem) (s : S) : option S :=
  sorted ← sortTextItems items;
  first ← head sorted;
  let '(_, s) := foldl walkStep (walkInit first, s) sorted in
  Some (ItemVisitor.onEnd visitor s).

End WalkItems.

(** A visitor that records the calls it receives, in order. *)
Inductive WalkEvent : Type :=
| LineBreakEvent (it : TextItem) (isParagraphBreak : bool)
| SpaceEvent
| ItemEvent (it : TextItem) (link : option jsstring)
| EndEvent.

Definition recorder : ItemVisitor.t (list WalkEvent) :=
  {| ItemVisitor.onLineBreak it p log := log ++ [LineBreakEvent it p];
     ItemVisitor.onSpace log := log ++ [SpaceEvent];
     ItemVisitor.onItem it link log := log ++ [ItemEvent it link];
     ItemVisitor.onEnd log := log ++ [EndEvent] |}.

Definition walkEvents (items : list TextItem) (links : list LinkAnnotation.t)
    : option (list WalkEvent) :=
  walkItems links recorder items [].

(** ** The structured sink *)

(** The closure variables of [assembleStructuredItems]. *)
Module Sink.
Record t : Type := mk {
  result : list StructuredLine.t;
  currentSpans : list TextSpan.t;
  currentText : jsstring;
  currentFontSize : Q;
  currentY : Q
}.
End Sink.

Definition pushLine (isBlankAfter : bool) (st : Sink.t) : Sink.t :=
  {| Sink.result :=
       if bool_decide (Sink.currentText st ≠ [])
       then Sink.result st ++
              [ {| StructuredLine.text := Sink.currentText st;
                   StructuredLine.spans := Sink.currentSpans st;
                   StructuredLine.fontSize := Sink.currentFontSize st;
                   StructuredLine.y := Sink.currentY st;
                   StructuredLine.isBlankAfter := isBlankAfter |} ]
       else Sink.result st;
     Sink.currentSpans := [];
     Sink.currentText := [];
     Sink.currentFontSize := Sink.currentFontSize st;
     Sink.currentY := Sink.currentY st |}.

(** [arr[arr.length - 1] = v] on a non-empty array. *)
Definition setLast {A} (v : A) (arr : list A) : list A :=
  <[(length arr - 1)%nat := v]> arr.

(** [link ? { link } : {}]: the property is set for a non-empty string. *)
Definition linkProperty (link : option jsstring) : option jsstring :=
  match link with
  | Some (_ :: _) => link
  | _ => None
  end.

Section StructuredSink.

(** [detectFontStyle] of [src/content/font-style.ts]. *)
Variable detectFontStyle : jsstring → FontStyle.t.

Definition appendToSpans (rawText fontName : jsstring)
    (link : option jsstring) (st : Sink.t) : Sink.t :=
  let text := normalizePUA rawText in
  let style := detectFontStyle fontName in
  let spans :=
    match last (Sink.currentSpans st) with
    | Some lastSpan =>
        if bool_decide (TextSpan.bold lastSpan = FontStyle.bold style)
           && bool_decide (TextSpan.italic lastSpan = FontStyle.italic style)
           && bool_decide (TextSpan.link lastSpan = link)
        then
          setLast
            {| TextSpan.text := TextSpan.text lastSpan ++ text;
               TextSpan.bold := TextSpan.bold lastSpan;
               TextSpan.italic := TextSpan.italic lastSpan;
               TextSpan.link := TextSpan.link lastSpan |}
            (Sink.currentSpans st)
        else
          Sink.currentSpans st ++
            [ {| TextSpan.text := text;
                 TextSpan.bold := FontStyle.bold style;
                 TextSpan.italic := FontStyle.italic style;
                 TextSpan.link := linkProperty link |} ]
    | None =>
        Sink.currentSpans st ++
          [ {| TextSpan.text := text;
               TextSpan.bold := FontStyle.bold style;
               TextSpan.italic := FontStyle.italic style;
               TextSpan.link := linkProperty link |} ]
    end in
  {| Sink.result := Sink.result st;
     Sink.currentSpans := spans;
     Sink.currentText := Sink.currentText st ++ text;
     Sink.currentFontSize := Sink.currentFontSize st;
     Sink.currentY := Sink.currentY st |}.

Definition structuredVisitor : ItemVisitor.t Sink.t :=
  {| ItemVisitor.onLineBreak _ isParagraphBreak st :=
       pushLine isParagraphBreak st;
     ItemVisitor.onSpace st :=
       match last (Sink.currentSpans st) with
       | Some lastSpan =>
           {| Sink.result := Sink.result st;
              Sink.currentSpans :=
                setLast
                  {| TextSpan.text := TextSpan.text lastSpan ++ [32%N];
                     TextSpan.bold := TextSpan.bold lastSpan;
                     TextSpan.italic := TextSpan.italic lastSpan;
                     TextSpan.link := TextSpan.link lastSpan |}
                  (Sink.currentSpans st);
              Sink.currentText := Sink.currentText st ++ [32%N];
              Sink.currentFontSize := Sink.currentFontSize st;
              Sink.currentY := Sink.currentY st |}
       | None => st
       end;
     ItemVisitor.onItem it link st :=
       let st :=
         if bool_decide (Sink.currentText st = [])
         then {| Sink.result := Sink.result st;
                 Sink.currentSpans := Sink.currentSpans st;
                 Sink.currentText := Sink.currentText st;
                 Sink.currentFontSize := TextItem.fontSize it;
                 Sink.currentY := TextItem.y it |}
         else st in
       let st :=
         appendToSpans (TextItem.text it) (TextItem.fontName it) link st in
       {| Sink.result := Sink.result st;
          Sink.currentSpans := Sink.currentSpans st;
          Sink.currentText := Sink.currentText st;
          Sink.currentFontSize :=
            Js.max (Sink.currentFontSize st) (TextItem.fontSize it);
          Sink.currentY := Sink.currentY st |};
     ItemVisitor.onEnd st := pushLine false st |}.

(** The [result.map] of the stripping branch. *)
Definition stripLine (line : StructuredLine.t) : StructuredLine.t :=
  {| StructuredLine.text := stripFormPlaceholderText (StructuredLine.text line);
     StructuredLine.spans :=
       (λ span,
          {| TextSpan.text := stripFormPlaceholderText (TextSpan.text span);
             TextSpan.bold := TextSpan.bold span;
             TextSpan.italic := TextSpan.italic span;
             TextSpan.link := TextSpan.link span |})
       <$> StructuredLine.spans line;
     StructuredLine.fontSize := StructuredLine.fontSize line;
     StructuredLine.y := StructuredLine.y line;
     StructuredLine.isBlankAfter := StructuredLine.isBlankAfter line |}.

(** [options?.stripFormPlaceholders ?? true] *)
Definition stripRequested (options : option AssemblyOptions.t) : bool :=
  default true (options ≫= AssemblyOptions.stripFormPlaceholders).

Definition assembleStructuredItems (items : list TextItem)
    (links : list LinkAnnotation.t) (options : option AssemblyOptions.t)
    : option (list StructuredLine.t) :=
  if bool_decide (length items = 0)%nat then Some []
  else
    st ← walkItems links structuredVisitor items
           {| Sink.result := [];
              Sink.currentSpans := [];
              Sink.currentText := [];
              Sink.currentFontSize := 0;
              Sink.currentY := 0 |};
    if stripRequested options
    then Some (stripLine <$> Sink.result st)
    else Some (Sink.result st).

End StructuredSink.

(** ** Reference formulations for the properties below *)

(** Whether the entry [e] is more than [thr prev] away in y from the
    entry [prev] before it. *)
Definition farBelow (thr : TaggedEntry → Q) (prev e : TaggedEntry) : bool :=
  Js.gtb (Qabs (TextItem.y (item e) - TextItem.y (item prev))) (thr prev).

(** Clustering by recursion from the front: the lines of [prev :: rest],
    a line ending after each entry whose successor is [farBelow] it. *)
Fixpoint groupFrom (thr : TaggedEntry → Q) (prev : TaggedEntry)
    (rest : list TaggedEntry) : list (list TaggedEntry) :=
  match rest with
  | [] => [[prev]]
  | e :: rest' =>
      if farBelow thr prev e then [prev] :: groupFrom thr e rest'
      else
        match groupFrom thr e rest' with
        | l :: ls => (prev :: l) :: ls
        | [] => [[prev]]
        end
  end.

(** For every entry of a list of lines, in order, whether it starts a
    line. *)
Definition lineStarts {A} (lines : list (list A)) : list bool :=
  l ← lines;
  match l with
  | [] => []
  | _ :: l' => true :: ((λ _, false) <$> l')
  end.

(** For every entry of a sequence, whether a new line starts there when a
    line is started at the first entry and at every entry that is
    [farBelow] its predecessor. *)
Definition startsBy (thr : TaggedEntry → Q) (tagged : list TaggedEntry)
    : list bool :=
  match tagged with
  | [] => []
  | _ :: rest => true :: zip_with (farBelow thr) tagged rest
  end.

(** [lines] is the clustering of [tagged] that starts a line exactly where
    [startsBy thr] says. *)
Definition ClusteredBy (thr : TaggedEntry → Q) (tagged : list TaggedEntry)
    (lines : list (list TaggedEntry)) : Prop :=
  concat lines = tagged ∧ Forall (λ l, l ≠ []) lines
  ∧ lineStarts lines = startsBy thr tagged.

(** The threshold as the specification words it:
    [max(prevFontSize, 12) * 0.5]. *)
Definition maxThreshold (prev : TaggedEntry) : Q :=
  Js.max (TextItem.fontSize (item prev)) 12 * 0.5.

(** Two fragments of font size 8, at y = 100 and y = 95. *)
Definition smallFontPair : list TaggedEntry :=
  [ TaggedEntry.mk (TextItem.mk (Js.str "a") 0 100 8 (Js.str "F") 0 None) 0;
    TaggedEntry.mk (TextItem.mk (Js.str "b") 0 95 8 (Js.str "F") 0 None) 1 ].

(** Whether a line has a dominant column gap. *)
Definition hasGap (line : list TaggedEntry) : bool :=
  bool_decide (is_Some (findDominantColumnGap line)).

(** The number of lines with a dominant column gap among
    [lines[lo..hi)]. *)
Definition gapLinesIn (lines : list (list TaggedEntry)) (lo hi : nat) : nat :=
  length (List.filter hasGap (Js.slice lo hi lines)).

(** The x at which a line of a region is split, as the specification
    words it: the [rightX] of the line's own dominant gap when the line
    has one, the region's learned boundary x otherwise. *)
Definition ownGapOrBoundary (region : ColumnRegion.t)
    (line : list TaggedEntry) : Q :=
  default (ColumnRegion.boundaryX region)
    (GapInfo.rightX <$> findDominantColumnGap line).

(** The left and the right part of a line of a region: the entries whose
    x is less than the split point, and the others, each in the order of
    the line. *)
Definition leftPart (region : ColumnRegion.t) (line : list TaggedEntry)
    : list TaggedEntry :=
  List.filter
    (λ e, Js.ltb (TextItem.x (item e)) (ownGapOrBoundary region line)) line.

Definition rightPart (region : ColumnRegion.t) (line : list TaggedEntry)
    : list TaggedEntry :=
  List.filter
    (λ e, Js.geb (TextItem.x (item e)) (ownGapOrBoundary region line)) line.

(** The non-empty ones among some lines. *)
Definition nonEmpty {A} (ls : list (list A)) : list (list A) :=
  List.filter (λ l, bool_decide (0 < length l)%nat) ls.

(** Column-first layout of [lines[lineIdx..]] for the regions [regions]:
    the lines before a region as they are, then the left parts of the
    region's lines top to bottom, then their right parts top to bottom,
    and so on after the region. *)
Fixpoint columnFirst (lines : list (list TaggedEntry)) (lineIdx : nat)
    (regions : list ColumnRegion.t) : list (list TaggedEntry) :=
  match regions with
  | [] => drop lineIdx lines
  | r :: regions' =>
      let inRegion :=
        Js.slice (ColumnRegion.start r) (ColumnRegion.end_ r) lines in
      Js.slice lineIdx (ColumnRegion.start r) lines
      ++ nonEmpty (leftPart r <$> inRegion)
      ++ nonEmpty (rightPart r <$> inRegion)
      ++ columnFirst lines (ColumnRegion.end_ r) regions'
  end.

(** Regions that lie in [lines[lo..n)], one after the other without
    overlap. *)
Fixpoint RegionsWithin (n lo : nat) (regions : list ColumnRegion.t) : Prop :=
  match regions with
  | [] => True
  | r :: regions' =>
      (lo ≤ ColumnRegion.start r)%nat
      ∧ (ColumnRegion.start r ≤ ColumnRegion.end_ r)%nat
      ∧ (ColumnRegion.end_ r ≤ n)%nat
      ∧ RegionsWithin n (ColumnRegion.end_ r) regions'
  end.

(** A region as [detectColumnRegions] accepts it: it lies within the
    lines, and from some line [anchor] with a dominant gap to its end it
    holds at least [MIN_COLUMN_RUN] lines with a dominant gap. *)
Definition Accepted (lines : list (list TaggedEntry)) (r : ColumnRegion.t)
    : Prop :=
  ∃ anchor : nat,
    (ColumnRegion.start r ≤ anchor)%nat
    ∧ (anchor < ColumnRegion.end_ r)%nat
    ∧ (ColumnRegion.end_ r ≤ length lines)%nat
    ∧ (MIN_COLUMN_RUN ≤ gapLinesIn lines anchor (ColumnRegion.end_ r))%nat.

(** [cur] prepended to the first line of [g]. *)
Definition ontoFirst {A} (cur : list A) (g : list (list A)) : list (list A) :=
  match g with
  | l :: ls => (cur ++ l) :: ls
  | [] => [cur]
  end.

(** [minStart] of [detectColumnRegions]: the end of the last region so
    far. *)
Definition lastEnd (regions : list ColumnRegion.t) : nat :=
  match last regions with
  | Some r => ColumnRegion.end_ r
  | None => O
  end.

(** The lines that phases 1 to 3 hand to the column reorderer. *)
Definition sortedLines (items : list TextItem) : list (list TaggedEntry) :=
  match Js.sort compareY (tagItems items) with
  | [] => []
  | t0 :: rest => sortLine <$> groupFrom clusterThreshold t0 rest
  end.

(** ** Example pages (from [tests/unit/assembler.test.ts]) *)

(** [makeItem] of the tests: font size 12, font Helvetica, no text
    object. *)
Definition makeItem (text : string) (x y width : Q) : TextItem :=
  TextItem.mk (Js.str text) x y 12 (Js.str "Helvetica") width None.

(** Two side-by-side three-row label/value blocks. *)
Definition signatureBlocks : list TextItem :=
  [ makeItem "Name:" 50 700 60; makeItem "Andrew Foley" 120 700 60;
    makeItem "Name:" 350 700 60; makeItem "Chris Smith" 420 700 60;
    makeItem "Title:" 50 685 60; makeItem "GM" 120 685 60;
    makeItem "Title:" 350 685 60; makeItem "Director" 420 685 60;
    makeItem "Date:" 50 670 60; makeItem "11/27/2023" 120 670 60;
    makeItem "Date:" 350 670 60; makeItem "11/27/2023" 420 670 60 ].

Definition signatureBlocksLeft : list TextItem :=
  [ makeItem "Name:" 50 700 60; makeItem "Andrew Foley" 120 700 60;
    makeItem "Title:" 50 685 60; makeItem "GM" 120 685 60;
    makeItem "Date:" 50 670 60; makeItem "11/27/2023" 120 670 60 ].

Definition signatureBlocksRight : list TextItem :=
  [ makeItem "Name:" 350 700 60; makeItem "Chris Smith" 420 700 60;
    makeItem "Title:" 350 685 60; makeItem "Director" 420 685 60;
    makeItem "Date:" 350 670 60; makeItem "11/27/2023" 420 670 60 ].

(** Only two rows with a gap. *)
Definition twoGapRows : list TextItem :=
  [ makeItem "Left1" 50 700 60; makeItem "Right1" 350 700 60;
    makeItem "Left2" 50 685 60; makeItem "Right2" 350 685 60 ].

(** Two fragments of font size 12, 7 apart in y, and two that are 24
    apart. *)
Definition twoLines : list TextItem :=
  [ makeItem "Line1" 0 100 0; makeItem "Line2" 0 93 0 ].

Definition twoParagraphs : list TextItem :=
  [ makeItem "Para1" 0 100 0; makeItem "Para2" 0 76 0 ].

(** Two fragments on one line, the first of metric width 30. *)
Definition helloWorld : list TextItem :=
  [ makeItem "Hello" 0 100 30; makeItem "World" 40 100 25 ].

(** The text of a line is the concatenation of the texts of its spans. *)
Definition spansText (spans : list TextSpan.t) : jsstring :=
  concat (TextSpan.text <$> spans).

Definition LineIsItsSpans (line : StructuredLine.t) : Prop :=
  StructuredLine.text line = spansText (StructuredLine.spans line).

(** The same for the line that the structured sink is building, and for
    the lines it has pushed. *)
Definition SinkConsistent (st : Sink.t) : Prop :=
  Sink.currentText st = spansText (Sink.currentSpans st)
  ∧ Forall LineIsItsSpans (Sink.result st).

(** [{ stripFormPlaceholders: false }] *)
Definition keepPlaceholders : option AssemblyOptions.t :=
  Some (AssemblyOptions.mk (Some false)).

(** ** Anchors, for the properties of placeholder stripping *)

(** A run of code units of one class. *)
Definition IsRun (p : N → bool) (run : jsstring) : Prop :=
  Forall (λ c, p c = true) run.

(** The class of the lookahead of the open anchor: [[\s\\a-zA-Z]]. *)
Definition afterAnchor (c : N) : bool :=
  Regex.space c || Regex.isChar Regex.backslash c || Regex.letter c.

(** [s] is empty or starts with a code unit of class [p]. *)
Definition EndsOrStartsWith (p : N → bool) (s : jsstring) : Prop :=
  match s with
  | [] => True
  | c :: _ => p c = true
  end.

(** An open anchor: a backslash, one or more letters or underscores, one
    or more digits. *)
Definition IsOpenAnchor (anchor : jsstring) : Prop :=
  ∃ name digits,
    anchor = Regex.backslash :: name ++ digits
    ∧ name ≠ [] ∧ IsRun Regex.wordStart name
    ∧ digits ≠ [] ∧ IsRun Regex.digit digits.

(** ** Font sizes that are not positive *)

(** The fragment with a font size of 0 replaced by 12. *)
Definition zeroFontTo12 (it : TextItem) : TextItem :=
  if Qeq_bool (TextItem.fontSize it) 0
  then {| TextItem.text := TextItem.text it;
          TextItem.x := TextItem.x it;
          TextItem.y := TextItem.y it;
          TextItem.fontSize := 12;
          TextItem.fontName := TextItem.fontName it;
          TextItem.width := TextItem.width it;
          TextItem._textObjectId := TextItem._textObjectId it |}
  else it.

Definition zeroFontTo12Entry (e : TaggedEntry) : TaggedEntry :=
  TaggedEntry.mk (zeroFontTo12 (item e)) (TaggedEntry.i e).

(** A fragment of font size 30, a fragment of font size 0 to its right on
    the same baseline, and a fragment of font size 12 that is 10 lower. *)
Definition inheritedFontPage : list TextItem :=
  [ TextItem.mk (Js.str "A") 0 100 30 (Js.str "Helvetica") 20 None;
    TextItem.mk (Js.str "B") 20 100 0 (Js.str "Helvetica") 20 None;
    TextItem.mk (Js.str "C") 0 90 12 (Js.str "Helvetica") 20 None ].

(** The walk state after the first fragment of [inheritedFontPage]. *)
Definition afterFirstOfInheritedFontPage : Walk.t :=
  advance
    (walkInit (TextItem.mk (Js.str "A") 0 100 30 (Js.str "Helvetica") 20 None))
    (TextItem.mk (Js.str "A") 0 100 30 (Js.str "Helvetica") 20 None).

(** The line breaks among the events of a walk. *)
Definition lineBreaksOf (events : list WalkEvent) : list WalkEvent :=
  List.filter
    (λ ev, match ev with LineBreakEvent _ _ => true | _ => false end) events.

(** ** Keys, for the properties of sorting *)

(** No element of [l1] has the key of an element of [l2]. *)
Definition Untied {A} (key : A → Q) (l1 l2 : list A) : Prop :=
  ∀ a b, a ∈ l1 → b ∈ l2 → ¬ key a == key b.

(** Ordered by [key]; elements with the same key are in the order that
    they have in [l]. *)
Definition StableOrder {A} (key : A → Q) (l : list A) (c d : A) : Prop :=
  key c <= key d ∧ (key d <= key c → [c; d] `sublist_of` l).

(** ** Maps on entries that keep the geometry *)

(** Two fragments with the same text, position and width, and the same
    font size once a font size of 0 counts as 12. *)
Definition SameGeometry (it' it : TextItem) : Prop :=
  TextItem.text it' = TextItem.text it
  ∧ TextItem.x it' = TextItem.x it
  ∧ TextItem.y it' = TextItem.y it
  ∧ TextItem.width it' = TextItem.width it
  ∧ Js.or (TextItem.fontSize it') 12 = Js.or (TextItem.fontSize it) 12.

(** A map applied to every entry of every line. *)
Definition mapLines (g : TaggedEntry → TaggedEntry)
    (lines : list (list TaggedEntry)) : list (list TaggedEntry) :=
  (λ line : list TaggedEntry, g <$> line) <$> lines.

(** A page's lines with every font size 0 replaced by 12. *)
Definition zeroFontTo12Lines (lines : list (list TaggedEntry))
    : list (list TaggedEntry) :=
  mapLines zeroFontTo12Entry lines.

(** An entry with its index replaced. *)
Definition retag (f : nat → nat) (e : TaggedEntry) : TaggedEntry :=
  TaggedEntry.mk (item e) (f (TaggedEntry.i e)).

(** The keys of the two sorts: phase 1 orders by descending y, phase 3
    (without text objects) by ascending x. *)
Definition keyY (e : TaggedEntry) : Q := - TextItem.y (item e).
Definition keyX (e : TaggedEntry) : Q := TextItem.x (item e).

(** The last [return] of the comparator of phase 3. *)
Definition compareX (a b : TaggedEntry) : Q :=
  Js.or (TextItem.x (item a)) 0 - Js.or (TextItem.x (item b)) 0.

(** Every entry of [l1] lies higher on the page than every entry of
    [l2]. *)
Definition Above (l1 l2 : list TaggedEntry) : Prop :=
  ∀ a b, a ∈ l1 → b ∈ l2 → keyY a < keyY b.

(** A fragment without a text-object id. *)
Definition NoTextObject (it : TextItem) : Prop :=
  TextItem._textObjectId it = None.

(** Two entries that the clusterer cannot tell apart: the same y and the
    same threshold. *)
Definition SameBaseline (a b : TaggedEntry) : Prop :=
  TextItem.y (item a) == TextItem.y (item b)
  ∧ clusterThreshold a == clusterThreshold b.

(** Two lists of lines with lines of the same lengths. *)
Definition SameShape {A B} (ls : list (list A)) (ls' : list (list B)) : Prop :=
  Forall2 (λ l l', length l = length l') ls ls'.

(** The index that the entry at place [p] of [entries] carries. *)
Definition indexAt (entries : list TaggedEntry) (p : nat) : nat :=
  default O (TaggedEntry.i <$> entries !! p).

(** The entries that [sortTextItems] flattens into its result. *)
Definition sortedEntries (items : list TextItem)
    (regions : list ColumnRegion.t) : list TaggedEntry :=
  concat (columnFirst (sortedLines items) 0 regions).

(** A fragment of font size 12 and one of font size 30 on one baseline,
    and a fragment of font size 12 that is 10 lower, between them in x. *)
Definition mixedFontBaseline : list TextItem :=
  [ TextItem.mk (Js.str "A") 10 100 12 (Js.str "Helvetica") 0 None;
    TextItem.mk (Js.str "B") 0 100 30 (Js.str "Helvetica") 0 None;
    TextItem.mk (Js.str "C") 5 90 12 (Js.str "Helvetica") 0 None ].

(** Fragments with the same y have the same font size. *)
Definition OneFontPerBaseline (items : list TextItem) : Prop :=
  ∀ a b, a ∈ items → b ∈ items →
    TextItem.y a == TextItem.y b →
    TextItem.fontSize a == TextItem.fontSize b.

(** ** The walk over consecutive fragments *)

(** The fragments that the walk emits: the walk passes over a fragment
    without text. *)
Definition emitted (sorted : list TextItem) : list TextItem :=
  List.filter (λ it, negb (bool_decide (TextItem.text it = []))) sorted.

(** The font size in force when the walk starts:
    [sorted[0].fontSize || 12]. *)
Definition startFont (sorted : list TextItem) : Q :=
  match head sorted with
  | Some first => Js.or (TextItem.fontSize first) 12
  | None => 12
  end.

(** The font size in force once the fragments [done] have been emitted,
    when [start] was in force before them: the font size of the last of
    them whose font size is not 0. *)
Definition fontInForce (start : Q) (done : list TextItem) : Q :=
  foldl (λ F it, Js.or (TextItem.fontSize it) F) start done.

(** The fragments of the item events of a log, in order. *)
Definition itemsOf (log : list WalkEvent) : list TextItem :=
  omap (λ ev, match ev with ItemEvent it _ => Some it | _ => None end) log.

(** The state of the walk when [prev] was the last fragment emitted and
    left the font size [F] in force. *)
Definition stateAfter (F : Q) (prev : TextItem) : Walk.t :=
  {| Walk.lastX := TextItem.x prev;
     Walk.lastY := TextItem.y prev;
     Walk.lastFontSize := F;
     Walk.lastWidth :=
       Js.or (TextItem.width prev) (Js.len (TextItem.text prev) * F * 0.6);
     Walk.lastHasMetricWidth := Js.gtb (TextItem.width prev) 0;
     Walk.lastTextLen := Js.len (TextItem.text prev);
     Walk.hasContent := true |}.

(** What is signalled between the last fragment emitted, [prev], and the
    fragment [it] that comes next. *)
Definition separator (F : Q) (prev it : TextItem) : list WalkEvent :=
  match classify (stateAfter F prev) it with
  | SignalLineBreak p => [LineBreakEvent it p]
  | SignalSpace => [SpaceEvent]
  | SignalNone => []
  end.

(** The log of a walk over the fragments [rest], all with text, that
    starts with the font size [F] in force and [prev] as the last fragment
    emitted, if there is one. *)
Fixpoint walkLog (links : list LinkAnnotation.t) (F : Q)
    (prev : option TextItem) (rest : list TextItem) : list WalkEvent :=
  match rest with
  | [] => []
  | it :: rest' =>
      match prev with
      | Some p => separator F p it
      | None => []
      end
      ++ ItemEvent it (findLinkForItem it links)
         :: walkLog links (Js.or (TextItem.fontSize it) F) (Some it) rest'
  end.

(** The walk is at the state [w] when the font size [F] is in force and
    [prev] was the last fragment emitted. *)
Definition WalkAt (w : Walk.t) (F : Q) (prev : option TextItem) : Prop :=
  match prev with
  | Some p => w = stateAfter F p
  | None => Walk.hasContent w = false ∧ Walk.lastFontSize w = F
  end.

(** Three fragments of font size 12: two on one baseline, 40 apart, and
    one 7 below the second. *)
Definition threeFragments : list TextItem :=
  [ makeItem "Hello" 0 100 30; makeItem "World" 40 100 25;
    makeItem "Below" 40 93 25 ].

(** Three fragments on one baseline: the second starts where the first
    ends, the third 8 after the end of the second. *)
Definition oneBaseline : list TextItem :=
  [ makeItem "ab" 0 100 10; makeItem "cd" 10 100 10; makeItem "ef" 28 100 10 ].

(** Four rows of a label and a value whose values start at x = 340, 350
    and 370, the third row without a value: one region whose boundary x
    is the mean 1060/3 of the three gaps, so that the value at x = 340 and
    the value at x = 350 lie left of the boundary and right of their own
    gaps. *)
Definition raggedColumns : list TextItem :=
  [ makeItem "Name:" 50 700 60; makeItem "Alice" 340 700 60;
    makeItem "Title:" 50 685 60; makeItem "Director" 350 685 60;
    makeItem "Note" 50 670 60;
    makeItem "Date:" 50 655 60; makeItem "Today" 370 655 60 ].

Definition raggedColumnsLeft : list TextItem :=
  [ makeItem "Name:" 50 700 60; makeItem "Title:" 50 685 60;
    makeItem "Note" 50 670 60; makeItem "Date:" 50 655 60 ].

Definition raggedColumnsRight : list TextItem :=
  [ makeItem "Alice" 340 700 60; makeItem "Director" 350 685 60;
    makeItem "Today" 370 655 60 ].

(** The gap between two neighbours of a line: from the right edge of the
    first, which is its x plus its width or, without a width, the estimate
    [text.length * fontSize * 0.6], to the x of the second. *)
Definition gapBetween (prev e : TaggedEntry) : Q :=
  TextItem.x (item e)
  - (TextItem.x (item prev)
     + (if Qeq_bool (TextItem.width (item prev)) 0
        then Js.len (TextItem.text (item prev))
             * (if Qeq_bool (TextItem.fontSize (item prev)) 0
                then 12 else TextItem.fontSize (item prev))
             * 0.6
        else TextItem.width (item prev))).

(** [g] is the dominant gap of [line]: its font size is that of the first
    entry of the line, 12 if that is 0; it lies before an entry whose x is
    [rightX]; it is wider than three times the font size and than 0; and
    among the gaps of the line that are wider than three times the font
    size none is wider, and none before it is as wide. *)
Definition DominantGap (line : list TaggedEntry) (g : GapInfo.t) : Prop :=
  ∃ (e0 : TaggedEntry) (j : nat) (prev e : TaggedEntry),
    head line = Some e0
    ∧ GapInfo.fontSize g
      = (if Qeq_bool (TextItem.fontSize (item e0)) 0
         then 12 else TextItem.fontSize (item e0))
    ∧ line !! j = Some prev ∧ line !! S j = Some e
    ∧ GapInfo.rightX g = TextItem.x (item e)
    ∧ GapInfo.fontSize g * 3 < gapBetween prev e
    ∧ 0 < gapBetween prev e
    ∧ ∀ (j' : nat) (prev' e' : TaggedEntry),
        line !! j' = Some prev' → line !! S j' = Some e' →
        GapInfo.fontSize g * 3 < gapBetween prev' e' →
        gapBetween prev' e' <= gapBetween prev e
        ∧ ((j' < j)%nat → gapBetween prev' e' < gapBetween prev e).

(** Three rows of three fragments of font size 12, in this order in the
    stream: [b] at x = 400 and [a] at x = 0, both of text object 1, and
    [c] at x = 50, of text object 2. *)
Definition objRows : list TextItem :=
  [ TextItem.mk (Js.str "b1") 400 700 12 (Js.str "Helvetica") 10 (Some 1%N);
    TextItem.mk (Js.str "a1") 0 700 12 (Js.str "Helvetica") 10 (Some 1%N);
    TextItem.mk (Js.str "c1") 50 700 12 (Js.str "Helvetica") 10 (Some 2%N);
    TextItem.mk (Js.str "b2") 400 685 12 (Js.str "Helvetica") 10 (Some 1%N);
    TextItem.mk (Js.str "a2") 0 685 12 (Js.str "Helvetica") 10 (Some 1%N);
    TextItem.mk (Js.str "c2") 50 685 12 (Js.str "Helvetica") 10 (Some 2%N);
    TextItem.mk (Js.str "b3") 400 670 12 (Js.str "Helvetica") 10 (Some 1%N);
    TextItem.mk (Js.str "a3") 0 670 12 (Js.str "Helvetica") 10 (Some 1%N);
    TextItem.mk (Js.str "c3") 50 670 12 (Js.str "Helvetica") 10 (Some 2%N) ].

(** A fragment of font size 0 and without width, and a fragment of font
    size -5 and without width, each with a text of one code unit. *)
Definition zeroFontNoWidth : TextItem :=
  TextItem.mk (Js.str "B") 20 100 0 (Js.str "Helvetica") 0 None.

Definition negativeFontNoWidth : TextItem :=
  TextItem.mk (Js.str "B") 20 100 (-5) (Js.str "Helvetica") 0 None.

(** A fragment with the font size replaced. *)
Definition withFontSize (fontSize : Q) (it : TextItem) : TextItem :=
  {| TextItem.text := TextItem.text it;
     TextItem.x := TextItem.x it;
     TextItem.y := TextItem.y it;
     TextItem.fontSize := fontSize;
     TextItem.fontName := TextItem.fontName it;
     TextItem.width := TextItem.width it;
     TextItem._textObjectId := TextItem._textObjectId it |}.

(** ** Links *)

(** The centre of the fragment lies in the rectangle of the link. *)
Definition Covers (link : LinkAnnotation.t) (it : TextItem) : Prop :=
  LinkAnnotation.x1 link <= TextItem.x it + TextItem.width it / 2
  ∧ TextItem.x it + TextItem.width it / 2 <= LinkAnnotation.x2 link
  ∧ LinkAnnotation.y1 link <= TextItem.y it
  ∧ TextItem.y it <= LinkAnnotation.y2 link.

(** A link rectangle around the first fragment of [helloWorld], and one
    around both fragments. *)
Definition helloLink : LinkAnnotation.t :=
  LinkAnnotation.mk 0 90 30 110 (Js.str "https://a.example").

Definition wideLink : LinkAnnotation.t :=
  LinkAnnotation.mk 0 90 100 110 (Js.str "https://b.example").

(** The lines that the structured sink has pushed have text. *)
Definition PushedLinesHaveText (st : Sink.t) : Prop :=
  Forall (λ line, StructuredLine.text line ≠ []) (Sink.result st).

(** A page of one fragment whose text is a self-closing anchor. *)
Definition anchorOnly : list TextItem := [ makeItem "\sig1\" 0 100 30 ].

(** The comparator of phase 3 on fragments without a text object:
    [(a.item.x || 0) - (b.item.x || 0)]. *)
Definition compareItemX (a b : TextItem) : Q :=
  Js.or (TextItem.x a) 0 - Js.or (TextItem.x b) 0.

(** Three fragments of one baseline, in the stream from right to left
    but for two that start at the same x. *)
Definition rightToLeft : list TextItem :=
  [ makeItem "c" 80 100 10; makeItem "b1" 40 100 10; makeItem "b2" 40 100 10;
    makeItem "a" 0 100 10 ].

(** ** Strings: [trim], [join] and global replacement by a string *)

(** [String.prototype.trim]: the white space and line terminators, which
    are the class [\s], are dropped at both ends. *)
Fixpoint trimStart (s : jsstring) : jsstring :=
  match s with
  | c :: s' => if Regex.space c then trimStart s' else s
  | [] => []
  end.

Definition trimEnd (s : jsstring) : jsstring :=
  reverse (trimStart (reverse s)).

Definition trim (s : jsstring) : jsstring := trimEnd (trimStart s).

(** [arr.join(sep)] *)
Fixpoint join (sep : jsstring) (arr : list jsstring) : jsstring :=
  match arr with
  | [] => []
  | s :: arr' =>
      match arr' with
      | [] => s
      | _ :: _ => s ++ sep ++ join sep arr'
      end
  end.

(** [s.replace(r, rep)] for [r] with the [g] flag and a replacement
    string without [$] patterns.  As in [Regex.removeFrom], [skip] counts
    the code units of the current match that are still to be dropped.  An
    empty match puts [rep] before the code unit where it is found, or at
    the end of the string, and the scan moves on by one. *)
Fixpoint replaceFrom (r : Regex.t) (rep : jsstring) (s : jsstring)
    (skip : nat) : jsstring :=
  match s with
  | [] =>
      match skip, Regex.exec r [] with
      | O, Some _ => rep
      | _, _ => []
      end
  | c :: s' =>
      match skip with
      | S n => replaceFrom r rep s' n
      | O =>
          match Regex.exec r s with
          | Some rest =>
              match (length s - length rest)%nat with
              | S n => rep ++ replaceFrom r rep s' n
              | O => rep ++ c :: replaceFrom r rep s' 0
              end
          | None => c :: replaceFrom r rep s' 0
          end
      end
  end.

Definition replaceAll (r : Regex.t) (rep : jsstring) (s : jsstring)
    : jsstring :=
  replaceFrom r rep s 0.

(** ** Placeholder items *)

(** [/^\\[a-zA-Z_]+\d*\\?$/], matched at the start of the string; the
    optional backslash before [$] is the alternation [\\$|$]. *)
Definition PLACEHOLDER_ITEM : Regex.t :=
  Regex.Seq (Regex.Class (Regex.isChar Regex.backslash))
    (Regex.Seq (Regex.Plus Regex.wordStart)
       (Regex.Seq (Regex.Star Regex.digit)
          (Regex.Alt
             (Regex.Seq (Regex.Class (Regex.isChar Regex.backslash)) Regex.Eos)
             Regex.Eos))).

(** [trimmed.startsWith('\\')] *)
Definition startsWithBackslash (s : jsstring) : bool :=
  match s with
  | c :: _ => Regex.isChar Regex.backslash c
  | [] => false
  end.

Definition isFormPlaceholderItem (text : jsstring) : bool :=
  let trimmed := trim text in
  if negb (startsWithBackslash trimmed) then false
  else bool_decide (is_Some (Regex.exec PLACEHOLDER_ITEM trimmed)).

(** ** Plain text assembly *)

(** The newline and the space. *)
Definition newline : N := 10.
Definition blank : N := 32.

(** [/[^\S\n]+/g] *)
Definition INLINE_SPACES : Regex.t :=
  Regex.Plus (λ c, Regex.space c && negb (Regex.isChar newline c)).

(** [/ +\n/g] *)
Definition SPACES_BEFORE_NEWLINE : Regex.t :=
  Regex.Seq (Regex.Plus (Regex.isChar blank))
    (Regex.Class (Regex.isChar newline)).

(** [/\n{3,}/g]: two newlines and then one or more. *)
Definition NEWLINES_3 : Regex.t :=
  Regex.Seq (Regex.Class (Regex.isChar newline))
    (Regex.Seq (Regex.Class (Regex.isChar newline))
       (Regex.Plus (Regex.isChar newline))).

Definition cleanText (text : jsstring) (stripFormPlaceholders : bool)
    : jsstring :=
  let result :=
    if stripFormPlaceholders
    then Regex.removeAll TRAILING_BACKSLASH_RE
           (Regex.removeAll FORM_PLACEHOLDER_RE text)
    else text in
  trim
    (replaceAll NEWLINES_3 [newline; newline]
       (replaceAll SPACES_BEFORE_NEWLINE [newline]
          (replaceAll INLINE_SPACES [blank] result))).

(** The closure variables of [assembleText]. *)
Module TextSink.
Record t : Type := mk { lines : list jsstring; currentLine : jsstring }.
End TextSink.

Definition textVisitor : ItemVisitor.t TextSink.t :=
  {| ItemVisitor.onLineBreak _ isParagraphBreak st :=
       let lines :=
         if bool_decide (TextSink.currentLine st ≠ [])
         then TextSink.lines st ++ [TextSink.currentLine st]
         else TextSink.lines st in
       let lines := if isParagraphBreak then lines ++ [[]] else lines in
       {| TextSink.lines := lines; TextSink.currentLine := [] |};
     ItemVisitor.onSpace st :=
       {| TextSink.lines := TextSink.lines st;
          TextSink.currentLine := TextSink.currentLine st ++ [blank] |};
     ItemVisitor.onItem it _ st :=
       {| TextSink.lines := TextSink.lines st;
          TextSink.currentLine :=
            TextSink.currentLine st ++ normalizePUA (TextItem.text it) |};
     ItemVisitor.onEnd st :=
       {| TextSink.lines :=
            if bool_decide (TextSink.currentLine st ≠ [])
            then TextSink.lines st ++ [TextSink.currentLine st]
            else TextSink.lines st;
          TextSink.currentLine := TextSink.currentLine st |} |}.

(** The [lines] array of [assembleText] when the walk has ended. *)
Definition assembleTextLines (items : list TextItem)
    : option (list jsstring) :=
  st ← walkItems [] textVisitor items (TextSink.mk [] []);
  Some (TextSink.lines st).

Definition assembleText (items : list TextItem)
    (options : option AssemblyOptions.t) : option jsstring :=
  if bool_decide (length items = 0)%nat then Some []
  else
    lines ← assembleTextLines items;
    Some (cleanText (join [newline] lines) (stripRequested options)).

(** The calls that a log records, made on a visitor. *)
Definition replayEvent {S} (visitor : ItemVisitor.t S) (s : S)
    (ev : WalkEvent) : S :=
  match ev with
  | LineBreakEvent it p => ItemVisitor.onLineBreak visitor it p s
  | SpaceEvent => ItemVisitor.onSpace visitor s
  | ItemEvent it link => ItemVisitor.onItem visitor it link s
  | EndEvent => ItemVisitor.onEnd visitor s
  end.

Definition replay {S} (visitor : ItemVisitor.t S) (log : list WalkEvent)
    (s : S) : S :=
  foldl (replayEvent visitor) s log.

(** The strings with text among some strings. *)
Definition withText (lines : list jsstring) : list jsstring :=
  List.filter (λ l, negb (bool_decide (l = []))) lines.

(** A plain-text sink and a structured sink that have collected the same
    text: the same lines, blank separators apart, and the same current
    line. *)
Definition SameText (ts : TextSink.t) (st : Sink.t) : Prop :=
  withText (TextSink.lines ts) = StructuredLine.text <$> Sink.result st
  ∧ TextSink.currentLine ts = Sink.currentText st.

(** ** Heading levels ([src/content/markdown.ts]) *)

(** Infer the heading level from the ratio of a line's font size to the
    font size of the body text; 0 is no heading. *)
Definition inferHeadingLevel (fontSize bodyFontSize : Q) : nat :=
  if Js.leb bodyFontSize 0 then 0%nat
  else
    let ratio := fontSize / bodyFontSize in
    if Js.geb ratio 2.0 then 1%nat
    else if Js.geb ratio 1.6 then 2%nat
    else if Js.geb ratio 1.3 then 3%nat
    else if Js.geb ratio 1.15 then 4%nat
    else 0%nat.

(** * Properties *)

(** ** Numbers *)

(** Arithmetic on [Q] stays folded under [simpl]. *)
#[local] Arguments Qplus : simpl never.
#[local] Arguments Qminus : simpl never.
#[local] Arguments Qmult : simpl never.
#[local] Arguments Qdiv : simpl never.
#[local] Arguments Qopp : simpl never.
#[local] Arguments Qabs : simpl never.
#[local] Arguments Qle_bool : simpl never.
#[local] Arguments Qeq_bool : simpl never.
#[local] Arguments inject_Z : simpl never.

Lemma gtb_lt a b : Js.gtb a b = true ↔ b < a.
Proof.
  unfold Js.gtb. rewrite negb_true_iff, <- not_true_iff_false, Qle_bool_iff.
  split; [apply Qnot_le_lt | apply Qlt_not_le].
Qed.

Lemma gtb_le a b : Js.gtb a b = false ↔ a <= b.
Proof. unfold Js.gtb. by rewrite negb_false_iff, Qle_bool_iff. Qed.

Lemma ltb_lt a b : Js.ltb a b = true ↔ a < b.
Proof. apply (gtb_lt b a). Qed.

Lemma ltb_ge a b : Js.ltb a b = false ↔ b <= a.
Proof. apply (gtb_le b a). Qed.

(** ** [Array.prototype.sort] returns a permutation *)

Lemma sort_insert_perm {A} (cmp : A → A → Q) a l :
  Js.sort_insert cmp a l ≡ₚ a :: l.
Proof.
  induction l as [|b l IH]; simpl; [done|].
  destruct (Qle_bool _ _); [done|].
  by rewrite IH, Permutation_swap.
Qed.

Lemma sort_perm {A} (cmp : A → A → Q) l : Js.sort cmp l ≡ₚ l.
Proof.
  induction l as [|a l IH]; simpl; [done|].
  by rewrite sort_insert_perm, IH.
Qed.

Lemma sort_length {A} (cmp : A → A → Q) l : length (Js.sort cmp l) = length l.
Proof. by rewrite sort_perm. Qed.

(** ** Phase 2: the line clusterer *)

Lemma groupFrom_nonempty thr prev rest : groupFrom thr prev rest ≠ [].
Proof.
  destruct rest as [|e rest]; simpl; [done|].
  destruct (farBelow _ _ _); [done|]. by destruct (groupFrom _ _ _).
Qed.

Lemma clusterLoop_groupFrom rest lines cur prev :
  ∃ lines' cur',
    clusterLoop rest (lines, cur ++ [prev]) = Some (lines', cur')
    ∧ cur' ≠ []
    ∧ lines' ++ [cur']
      = lines ++ ontoFirst cur (groupFrom clusterThreshold prev rest).
Proof.
  revert lines cur prev.
  induction rest as [|e rest IH]; intros lines cur prev; simpl.
  { exists lines, (cur ++ [prev]). split_and!; [done| |done].
    by destruct cur. }
  rewrite last_snoc. simpl.
  fold (farBelow clusterThreshold prev e).
  destruct (farBelow clusterThreshold prev e) eqn:Hfar.
  - destruct (IH (lines ++ [cur ++ [prev]]) [] e) as (l' & c' & H1 & H2 & H3).
    exists l', c'. split_and!; [done..|].
    rewrite H3. simpl.
    pose proof (groupFrom_nonempty clusterThreshold e rest).
    destruct (groupFrom clusterThreshold e rest); [done|].
    simpl. by rewrite <- !app_assoc.
  - destruct (IH lines (cur ++ [prev]) e) as (l' & c' & H1 & H2 & H3).
    exists l', c'. split_and!; [done..|].
    rewrite H3.
    pose proof (groupFrom_nonempty clusterThreshold e rest).
    destruct (groupFrom clusterThreshold e rest); [done|].
    simpl. by rewrite <- !app_assoc.
Qed.

(** The loop of phase 2 computes [groupFrom], and never reads the last
    entry of an empty [currentLine]. *)
Lemma clusterLines_groupFrom t0 rest :
  clusterLines (t0 :: rest) = Some (groupFrom clusterThreshold t0 rest).
Proof.
  unfold clusterLines. simpl.
  destruct (clusterLoop_groupFrom rest [] [] t0) as (l' & c' & H1 & H2 & H3).
  simpl in H1. rewrite H1. simpl.
  rewrite bool_decide_true by (destruct c'; [done | simpl; lia]).
  rewrite H3. simpl.
  pose proof (groupFrom_nonempty clusterThreshold t0 rest).
  by destruct (groupFrom clusterThreshold t0 rest).
Qed.

Lemma groupFrom_concat thr prev rest :
  concat (groupFrom thr prev rest) = prev :: rest.
Proof.
  revert prev. induction rest as [|e rest IH]; intros prev; simpl; [done|].
  specialize (IH e).
  destruct (farBelow _ _ _); simpl; [by rewrite IH|].
  destruct (groupFrom thr e rest); simpl in *; [done|]. by rewrite IH.
Qed.

Lemma groupFrom_lines_nonempty thr prev rest :
  Forall (λ l, l ≠ []) (groupFrom thr prev rest).
Proof.
  revert prev. induction rest as [|e rest IH]; intros prev; simpl.
  { by repeat constructor. }
  specialize (IH e).
  destruct (farBelow _ _ _); [by constructor|].
  destruct (groupFrom thr e rest); [by repeat constructor|].
  inversion IH; subst. by constructor.
Qed.

Lemma groupFrom_starts thr prev rest :
  lineStarts (groupFrom thr prev rest) = startsBy thr (prev :: rest).
Proof.
  revert prev. induction rest as [|e rest IH]; intros prev; simpl; [done|].
  specialize (IH e). unfold startsBy in *. simpl in *.
  pose proof (groupFrom_lines_nonempty thr e rest) as Hne.
  destruct (farBelow thr prev e); simpl.
  - unfold lineStarts in *. simpl. by rewrite IH.
  - destruct (groupFrom thr e rest) as [|l ls]; [done|].
    inversion Hne; subst. destruct l as [|e' l]; [done|].
    unfold lineStarts in *. simpl in *. by inversion IH.
Qed.

Lemma groupFrom_clustered thr prev rest :
  ClusteredBy thr (prev :: rest) (groupFrom thr prev rest).
Proof.
  split_and!; auto using groupFrom_concat, groupFrom_lines_nonempty,
    groupFrom_starts.
Qed.

(** ** Phase 3 keeps every line's entries *)

Lemma sortLine_perm line : sortLine line ≡ₚ line.
Proof. apply sort_perm. Qed.

Lemma sortLine_nonempty line : line ≠ [] → sortLine line ≠ [].
Proof.
  intros Hne Heq. apply (f_equal length) in Heq.
  unfold sortLine in Heq. rewrite sort_length in Heq. by destruct line.
Qed.

(** ** Splitting a line *)

Lemma splitLine_filter splitX line :
  splitLine splitX line
  = (List.filter (λ e, Js.ltb (TextItem.x (item e)) splitX) line,
     List.filter (λ e, negb (Js.ltb (TextItem.x (item e)) splitX)) line).
Proof.
  unfold splitLine.
  enough (∀ l0 r0,
    foldl (λ '(l, r) entry,
             if Js.ltb (TextItem.x (item entry)) splitX
             then (l ++ [entry], r) else (l, r ++ [entry])) (l0, r0) line
    = (l0 ++ List.filter (λ e, Js.ltb (TextItem.x (item e)) splitX) line,
       r0 ++ List.filter
               (λ e, negb (Js.ltb (TextItem.x (item e)) splitX)) line))
    as H by apply (H [] []).
  induction line as [|e line IH]; intros l0 r0; simpl.
  { by rewrite !app_nil_r. }
  destruct (Js.ltb _ _); simpl; rewrite IH, <- ?app_assoc; done.
Qed.

Lemma filter_negb_perm {A} (p : A → bool) l :
  List.filter p l ++ List.filter (λ a, negb (p a)) l ≡ₚ l.
Proof.
  induction l as [|a l IH]; simpl; [done|].
  destruct (p a); simpl; [by rewrite IH|].
  by rewrite <- Permutation_middle, IH.
Qed.

(** The split point that the reorderer computes is the line's own gap
    [rightX], or the boundary of the region for a line without a gap. *)
Lemma splitXOf_own_gap region line :
  splitXOf region line = ownGapOrBoundary region line.
Proof.
  unfold splitXOf, ownGapOrBoundary.
  by destruct (findDominantColumnGap line).
Qed.

Lemma geb_negb_ltb a b : Js.geb a b = negb (Js.ltb a b).
Proof. unfold Js.geb, Js.ltb. by rewrite negb_involutive. Qed.

(** The right part holds the entries that are not in the left part. *)
Lemma rightPart_others region line :
  rightPart region line
  = List.filter
      (λ e, negb (Js.ltb (TextItem.x (item e))
                    (ownGapOrBoundary region line))) line.
Proof.
  unfold rightPart. apply List.filter_ext. intros e. apply geb_negb_ltb.
Qed.

Lemma leftPart_rightPart_perm region line :
  leftPart region line ++ rightPart region line ≡ₚ line.
Proof. rewrite rightPart_others. apply filter_negb_perm. Qed.

Lemma nonEmpty_concat {A} (ls : list (list A)) : concat (nonEmpty ls) = concat ls.
Proof.
  induction ls as [|l ls IH]; simpl; [done|].
  case_bool_decide; simpl; [by rewrite IH|].
  destruct l; simpl in *; [done | lia].
Qed.

Lemma nonEmpty_app {A} (ls1 ls2 : list (list A)) :
  nonEmpty (ls1 ++ ls2) = nonEmpty ls1 ++ nonEmpty ls2.
Proof. apply List.filter_app. Qed.

(** The left parts of some lines followed by their right parts hold the
    entries of the lines. *)
Lemma parts_perm region (ls : list (list TaggedEntry)) :
  concat (nonEmpty (leftPart region <$> ls))
  ++ concat (nonEmpty (rightPart region <$> ls)) ≡ₚ concat ls.
Proof.
  rewrite !nonEmpty_concat.
  induction ls as [|l ls IH]; simpl; [done|].
  rewrite <- (leftPart_rightPart_perm region l) at 3.
  rewrite <- IH, <- !app_assoc. apply Permutation_app_head.
  rewrite !app_assoc. apply Permutation_app_tail, Permutation_app_comm.
Qed.

(** ** Slices *)

Lemma slice_step {A} (l : list A) lo hi a :
  l !! lo = Some a → (lo < hi)%nat →
  Js.slice lo hi l = a :: Js.slice (S lo) hi l.
Proof.
  intros Hlo Hlt. unfold Js.slice.
  rewrite (drop_S l a lo Hlo).
  replace (hi - lo)%nat with (S (hi - S lo)) by lia. done.
Qed.

Lemma slice_empty {A} (l : list A) lo hi : (hi ≤ lo)%nat → Js.slice lo hi l = [].
Proof. intros. unfold Js.slice. by replace (hi - lo)%nat with O by lia. Qed.

Lemma slice_app {A} (l : list A) lo mid hi :
  (lo ≤ mid)%nat → (mid ≤ hi)%nat →
  Js.slice lo hi l = Js.slice lo mid l ++ Js.slice mid hi l.
Proof.
  intros H1 H2. unfold Js.slice.
  replace (hi - lo)%nat with ((mid - lo) + (hi - mid))%nat by lia.
  rewrite <- take_take_drop, drop_drop.
  by replace (lo + (mid - lo))%nat with mid by lia.
Qed.

Lemma slice_to_end {A} (l : list A) lo : Js.slice lo (length l) l = drop lo l.
Proof. unfold Js.slice. apply take_ge. rewrite length_drop. lia. Qed.

Lemma slice_from_0 {A} (l : list A) hi : Js.slice 0 hi l = take hi l.
Proof. unfold Js.slice. by rewrite Nat.sub_0_r. Qed.

(** ** Column detection *)

Section ColumnDetection.

Variable lines : list (list TaggedEntry).

Lemma gaps_lookup j :
  (findDominantColumnGap <$> lines) !! j
  = findDominantColumnGap <$> lines !! j.
Proof. apply list_lookup_fmap. Qed.

Lemma gapLinesIn_empty lo hi : (hi ≤ lo)%nat → gapLinesIn lines lo hi = O.
Proof. intros. unfold gapLinesIn. by rewrite slice_empty. Qed.

Lemma gapLinesIn_step lo hi l :
  lines !! lo = Some l → (lo < hi)%nat →
  gapLinesIn lines lo hi
  = ((if hasGap l then 1 else 0) + gapLinesIn lines (S lo) hi)%nat.
Proof.
  intros Hl Hlt. unfold gapLinesIn. rewrite (slice_step _ _ _ _ Hl Hlt).
  simpl. by destruct (hasGap l).
Qed.

Lemma gapLinesIn_split lo mid hi :
  (lo ≤ mid)%nat → (mid ≤ hi)%nat →
  gapLinesIn lines lo hi
  = (gapLinesIn lines lo mid + gapLinesIn lines mid hi)%nat.
Proof.
  intros. unfold gapLinesIn.
  by rewrite (slice_app _ lo mid hi), List.filter_app, length_app.
Qed.

(** The forward loop stops at some [j'] within the lines, and the lines
    it added to [count] are the lines with a gap that it passed. *)
Lemma growRegion_Some tolerance k j sumRX count gaplessRun j' sumRX' count' :
  growRegion lines tolerance k j sumRX count gaplessRun
    = Some (j', sumRX', count') →
  (j + k ≤ length lines)%nat →
  (j ≤ j')%nat ∧ (j' ≤ j + k)%nat
  ∧ count' = (count + gapLinesIn lines j j')%nat.
Proof.
  revert j sumRX count gaplessRun.
  induction k as [|k IH]; intros j sumRX count gaplessRun Hrun Hlen.
  { simpl in Hrun. simplify_eq. rewrite gapLinesIn_empty; lia. }
  simpl in Hrun. rewrite gaps_lookup in Hrun.
  destruct (lookup_lt_is_Some_2 lines j) as [l Hl]; [lia|].
  rewrite Hl in Hrun. simpl in Hrun.
  assert (Hstop : (j ≤ j)%nat ∧ (j ≤ j + S k)%nat
                  ∧ count = (count + gapLinesIn lines j j)%nat).
  { rewrite gapLinesIn_empty; lia. }
  destruct (findDominantColumnGap l) as [g|] eqn:Hg.
  - destruct (Js.gtb _ _); [by simplify_eq|].
    apply IH in Hrun as (? & ? & ->); [|lia].
    rewrite (gapLinesIn_step j j' l) by (done || lia).
    unfold hasGap. rewrite Hg, bool_decide_true by done. lia.
  - case_bool_decide; [by simplify_eq|].
    destruct (firstItem lines j); [|done]. simpl in Hrun.
    destruct (firstItem lines (j - 1)); [|done]. simpl in Hrun.
    destruct (Js.gtb _ _); [by simplify_eq|].
    destruct (negb _); [by simplify_eq|].
    apply IH in Hrun as (? & ? & ->); [|lia].
    rewrite (gapLinesIn_step j j' l) by (done || lia).
    unfold hasGap. rewrite Hg, bool_decide_false by (by intros [? ?]). lia.
Qed.

Lemma extendBack_Some tolerance boundaryX minStart start backGapless start' :
  extendBack lines tolerance boundaryX minStart start backGapless
    = Some start' →
  (minStart ≤ start)%nat →
  (minStart ≤ start')%nat ∧ (start' ≤ start)%nat.
Proof.
  revert backGapless.
  induction start as [|before IH]; intros backGapless Hrun Hle.
  { simpl in Hrun. simplify_eq. lia. }
  simpl in Hrun.
  case_bool_decide; [|simplify_eq; lia].
  assert (Hrec : ∀ bg, extendBack lines tolerance boundaryX minStart
                         before bg = Some start' →
                       (minStart ≤ start')%nat ∧ (start' ≤ S before)%nat).
  { intros bg Hbg. apply IH in Hbg; lia. }
  destruct ((findDominantColumnGap <$> lines) !! before) as [[prev|]|].
  - destruct (Js.gtb _ _); [simplify_eq; lia | eauto].
  - case_bool_decide; [simplify_eq; lia|].
    destruct (lines !! before); [|done]. simpl in Hrun.
    destruct (negb _); [simplify_eq; lia | eauto].
  - case_bool_decide; [simplify_eq; lia|].
    destruct (lines !! before); [|done]. simpl in Hrun.
    destruct (negb _); [simplify_eq; lia | eauto].
Qed.

Lemma RegionsWithin_snoc n lo regions r :
  RegionsWithin n lo regions →
  (match last regions with Some r' => ColumnRegion.end_ r' | None => lo end
   ≤ ColumnRegion.start r)%nat →
  (ColumnRegion.start r ≤ ColumnRegion.end_ r)%nat →
  (ColumnRegion.end_ r ≤ n)%nat →
  RegionsWithin n lo (regions ++ [r]).
Proof.
  revert lo. induction regions as [|r0 regions IH]; intros lo; simpl.
  { intros. split_and!; auto. }
  intros (? & ? & ? & Hrest) Hlast ? ?. split_and!; [done..|].
  apply IH; [done| |done..].
  destruct regions as [|r1 regions]; [done|].
  change (last (r0 :: r1 :: regions)) with (last (r1 :: regions)) in Hlast.
  destruct (last (r1 :: regions)) eqn:Hl; [done|].
  by apply last_None in Hl.
Qed.

Lemma detectLoop_Some fuel i regions out :
  detectLoop lines fuel i regions = Some out →
  RegionsWithin (length lines) 0 regions → Forall (Accepted lines) regions →
  (lastEnd regions ≤ i)%nat →
  RegionsWithin (length lines) 0 out ∧ Forall (Accepted lines) out.
Proof.
  revert i regions.
  induction fuel as [|fuel IH]; intros i regions Hrun Hwithin Hacc Hi.
  { simpl in Hrun. by simplify_eq. }
  simpl in Hrun. rewrite length_fmap in Hrun.
  case_bool_decide as Hlt; [|by simplify_eq].
  assert (Hnext : detectLoop lines fuel (S i) regions = Some out →
                  RegionsWithin (length lines) 0 out
                  ∧ Forall (Accepted lines) out).
  { intros Hrec. apply (IH _ _ Hrec); [done..|lia]. }
  rewrite gaps_lookup in Hrun.
  destruct (lookup_lt_is_Some_2 lines i) as [l Hl]; [lia|].
  rewrite Hl in Hrun. simpl in Hrun.
  destruct (findDominantColumnGap l) as [anchor|] eqn:Hanchor; [|auto].
  destruct (growRegion _ _ _ _ _ _ _) as [[[j sumRX] count]|] eqn:Hgrow;
    [|done].
  simpl in Hrun.
  apply growRegion_Some in Hgrow as (Hj1 & Hj2 & Hcount); [|lia].
  case_bool_decide as Hmin; [|auto].
  fold (lastEnd regions) in Hrun.
  destruct (extendBack _ _ _ _ _ _) as [start|] eqn:Hback; [|done].
  simpl in Hrun.
  apply extendBack_Some in Hback as [Hs1 Hs2]; [|done].
  apply (IH _ _ Hrun).
  - apply RegionsWithin_snoc; simpl; [done| |lia..].
    unfold lastEnd in Hs1. by destruct (last regions).
  - apply Forall_app. split; [done|]. repeat constructor.
    exists i. simpl. split_and!; [lia..|].
    rewrite (gapLinesIn_step i j l) by (done || lia).
    unfold hasGap. rewrite Hanchor, bool_decide_true by done. lia.
  - unfold lastEnd. by rewrite last_snoc.
Qed.

Lemma detectColumnRegions_Some regions :
  detectColumnRegions lines = Some regions →
  RegionsWithin (length lines) 0 regions ∧ Forall (Accepted lines) regions.
Proof.
  intros Hrun. apply (detectLoop_Some _ _ _ _ Hrun); simpl; auto.
Qed.

(** The outer loop never runs out of fuel: with [gaps.length - i] or more
    iterations allowed, the result does not depend on the allowance. *)
Lemma detectLoop_fuel fuel1 fuel2 i regions :
  (length lines - i ≤ fuel1)%nat → (length lines - i ≤ fuel2)%nat →
  detectLoop lines fuel1 i regions = detectLoop lines fuel2 i regions.
Proof.
  revert fuel2 i regions.
  induction fuel1 as [|fuel1 IH]; intros [|fuel2] i regions Hf1 Hf2;
    cbn [detectLoop]; rewrite ?length_fmap; [done| | |].
  - by rewrite bool_decide_false by lia.
  - by rewrite bool_decide_false by lia.
  - case_bool_decide as Hlt; [|done].
    destruct ((findDominantColumnGap <$> lines) !! i) as [[anchor|]|];
      [|apply IH; lia..].
    destruct (growRegion _ _ _ _ _ _ _) as [[[j sumRX] count]|] eqn:Hgrow;
      [|done].
    cbn [mbind option_bind].
    apply growRegion_Some in Hgrow as (Hj & _ & _); [|lia].
    case_bool_decide; [|apply IH; lia].
    destruct (extendBack _ _ _ _ _ _) as [start|]; [|done].
    cbn [mbind option_bind]. apply IH; lia.
Qed.

(** *** The loops run to their end on non-empty lines *)

Hypothesis lines_nonempty : Forall (λ l, l ≠ []) lines.

Lemma firstItem_is_Some j : (j < length lines)%nat → is_Some (firstItem lines j).
Proof.
  intros Hj. unfold firstItem.
  destruct (lookup_lt_is_Some_2 lines j Hj) as [l Hl]. rewrite Hl. simpl.
  pose proof (Forall_lookup_1 _ _ _ _ lines_nonempty Hl) as Hne.
  simpl in Hne.
  destruct l; [done|]. simpl. eauto.
Qed.

Lemma growRegion_total tolerance k j sumRX count gaplessRun :
  (j + k ≤ length lines)%nat →
  is_Some (growRegion lines tolerance k j sumRX count gaplessRun).
Proof.
  revert j sumRX count gaplessRun.
  induction k as [|k IH]; intros j sumRX count gaplessRun Hlen; [by eexists|].
  simpl. rewrite gaps_lookup.
  destruct (lookup_lt_is_Some_2 lines j) as [l Hl]; [lia|].
  rewrite Hl. simpl.
  destruct (findDominantColumnGap l).
  - destruct (Js.gtb _ _); [by eexists | apply IH; lia].
  - case_bool_decide; [by eexists|].
    destruct (firstItem_is_Some j) as [cur ->]; [lia|].
    destruct (firstItem_is_Some (j - 1)) as [prv ->]; [lia|].
    simpl. destruct (Js.gtb _ _); [by eexists|].
    destruct (negb _); [by eexists | apply IH; lia].
Qed.

Lemma extendBack_total tolerance boundaryX minStart start backGapless :
  (start ≤ length lines)%nat →
  is_Some (extendBack lines tolerance boundaryX minStart start backGapless).
Proof.
  revert backGapless.
  induction start as [|before IH]; intros backGapless Hlen; [by eexists|].
  simpl. case_bool_decide; [|by eexists].
  destruct (lookup_lt_is_Some_2 lines before) as [l Hl]; [lia|].
  rewrite gaps_lookup, Hl. simpl.
  destruct (findDominantColumnGap l).
  - destruct (Js.gtb _ _); [by eexists | apply IH; lia].
  - case_bool_decide; [by eexists|].
    destruct (negb _); [by eexists | apply IH; lia].
Qed.

Lemma detectLoop_total fuel i regions :
  is_Some (detectLoop lines fuel i regions).
Proof.
  revert i regions.
  induction fuel as [|fuel IH]; intros i regions; [by eexists|].
  simpl. rewrite length_fmap. case_bool_decide as Hlt; [|by eexists].
  rewrite gaps_lookup.
  destruct (lookup_lt_is_Some_2 lines i) as [l Hl]; [lia|].
  rewrite Hl. simpl.
  destruct (findDominantColumnGap l) as [anchor|]; [|apply IH].
  destruct (growRegion_total (GapInfo.fontSize anchor * 3)
              (length lines - S i) (S i) (GapInfo.rightX anchor) 1 0)
    as [[[j sumRX] count] Hgrow]; [lia|].
  rewrite Hgrow. simpl.
  case_bool_decide; [|apply IH].
  match goal with
  | |- context [extendBack ?a ?b ?c ?d ?e ?f] =>
      destruct (extendBack_total b c d e f) as [start ->]; [lia|]
  end.
  simpl. apply IH.
Qed.

Lemma detectColumnRegions_total : is_Some (detectColumnRegions lines).
Proof. apply detectLoop_total. Qed.

End ColumnDetection.

(** ** Column reordering *)

Section ColumnReordering.

Variable lines : list (list TaggedEntry).

Lemma pushLines_slice k lineIdx result :
  (lineIdx + k ≤ length lines)%nat →
  pushLines lines k lineIdx result
  = Some (result ++ Js.slice lineIdx (lineIdx + k) lines).
Proof.
  revert lineIdx result.
  induction k as [|k IH]; intros lineIdx result Hlen; simpl.
  { by rewrite slice_empty, app_nil_r by lia. }
  destruct (lookup_lt_is_Some_2 lines lineIdx) as [l Hl]; [lia|].
  rewrite Hl. simpl. rewrite IH by lia.
  rewrite (slice_step _ lineIdx (lineIdx + S k) l) by (done || lia).
  replace (S lineIdx + k)%nat with (lineIdx + S k)%nat by lia.
  by rewrite <- app_assoc.
Qed.

Lemma splitRegion_parts region k j leftParts rightParts :
  (j + k ≤ length lines)%nat →
  splitRegion lines region k j leftParts rightParts
  = Some
      (leftParts ++ nonEmpty (leftPart region <$> Js.slice j (j + k) lines),
       rightParts
       ++ nonEmpty (rightPart region <$> Js.slice j (j + k) lines)).
Proof.
  revert j leftParts rightParts.
  induction k as [|k IH]; intros j leftParts rightParts Hlen; simpl.
  { by rewrite slice_empty, !app_nil_r by lia. }
  destruct (lookup_lt_is_Some_2 lines j) as [l Hl]; [lia|].
  rewrite Hl. simpl.
  rewrite splitLine_filter, splitXOf_own_gap, <- rightPart_others.
  fold (leftPart region l). rewrite IH by lia.
  rewrite (slice_step _ j (j + S k) l) by (done || lia).
  replace (S j + k)%nat with (j + S k)%nat by lia.
  simpl.
  do 2 case_bool_decide; by rewrite <- ?app_assoc.
Qed.

Lemma reorderLoop_columnFirst regions result lineIdx :
  RegionsWithin (length lines) lineIdx regions →
  (lineIdx ≤ length lines)%nat →
  ∃ result' lineIdx',
    reorderLoop lines regions (result, lineIdx) = Some (result', lineIdx')
    ∧ (lineIdx' ≤ length lines)%nat
    ∧ result' ++ drop lineIdx' lines
      = result ++ columnFirst lines lineIdx regions.
Proof.
  revert result lineIdx.
  induction regions as [|r regions IH]; intros result lineIdx; simpl.
  { intros _ ?. by exists result, lineIdx. }
  intros (Hlo & Hse & Hn & Hrest) Hidx.
  rewrite pushLines_slice by lia. simpl.
  rewrite splitRegion_parts by lia. simpl.
  replace (lineIdx + (ColumnRegion.start r - lineIdx))%nat
    with (ColumnRegion.start r) by lia.
  replace (ColumnRegion.start r
           + (ColumnRegion.end_ r - ColumnRegion.start r))%nat
    with (ColumnRegion.end_ r) by lia.
  edestruct IH as (result' & lineIdx' & Hloop & ? & Hres); [done..|].
  exists result', lineIdx'. split_and!; [done..|].
  by rewrite Hres, <- !app_assoc.
Qed.

Lemma reorderColumnRegions_columnFirst regions :
  detectColumnRegions lines = Some regions →
  reorderColumnRegions lines = Some (columnFirst lines 0 regions).
Proof.
  intros Hdetect. unfold reorderColumnRegions. rewrite Hdetect. simpl.
  case_bool_decide as Hempty.
  { destruct regions; [|done]. simpl. by rewrite drop_0. }
  apply detectColumnRegions_Some in Hdetect as [Hwithin _].
  destruct (reorderLoop_columnFirst regions [] 0 Hwithin)
    as (result' & lineIdx' & -> & Hidx & Hres); [lia|].
  simpl. rewrite pushLines_slice by lia.
  replace (lineIdx' + (length lines - lineIdx'))%nat
    with (length lines) by lia.
  by rewrite slice_to_end, Hres.
Qed.

Lemma columnFirst_perm regions lineIdx :
  RegionsWithin (length lines) lineIdx regions →
  concat (columnFirst lines lineIdx regions) ≡ₚ concat (drop lineIdx lines).
Proof.
  revert lineIdx.
  induction regions as [|r regions IH]; intros lineIdx; simpl; [done|].
  intros (Hlo & Hse & Hn & Hrest).
  rewrite !concat_app, (IH _ Hrest).
  rewrite (app_assoc (concat (nonEmpty (leftPart r <$> _)))), parts_perm.
  rewrite <- (slice_to_end lines lineIdx).
  rewrite (slice_app lines lineIdx (ColumnRegion.start r) (length lines))
    by lia.
  rewrite (slice_app lines (ColumnRegion.start r) (ColumnRegion.end_ r)
             (length lines)) by lia.
  by rewrite slice_to_end, !concat_app.
Qed.

End ColumnReordering.

(** ** sortTextItems as a whole *)

Lemma tagItems_items items : item <$> tagItems items = items.
Proof.
  unfold tagItems. rewrite fmap_imap.
  rewrite (imap_ext _ (λ _ it, it)) by done.
  rewrite (imap_const id). apply list_fmap_id.
Qed.

Lemma sortedLines_nonempty items : Forall (λ l, l ≠ []) (sortedLines items).
Proof.
  unfold sortedLines. destruct (Js.sort _ _) as [|t0 rest]; [done|].
  apply Forall_fmap.
  eapply Forall_impl; [apply groupFrom_lines_nonempty|].
  intros l. simpl. apply sortLine_nonempty.
Qed.

Lemma sortedLines_perm items : item <$> concat (sortedLines items) ≡ₚ items.
Proof.
  unfold sortedLines.
  trans (item <$> Js.sort compareY (tagItems items)).
  2: { by rewrite sort_perm, tagItems_items. }
  destruct (Js.sort _ _) as [|t0 rest]; [done|].
  apply fmap_Permutation.
  trans (concat (groupFrom clusterThreshold t0 rest)).
  2: { by rewrite groupFrom_concat. }
  induction (groupFrom clusterThreshold t0 rest) as [|l ls IH]; simpl; [done|].
  by rewrite sortLine_perm, IH.
Qed.

(** [sortTextItems] always returns: it is the column-first layout of the
    sorted lines for the regions that the detector finds. *)
Lemma sortTextItems_columnFirst items :
  ∃ regions,
    detectColumnRegions (sortedLines items) = Some regions
    ∧ sortTextItems items
      = Some (item <$> concat (columnFirst (sortedLines items) 0 regions)).
Proof.
  destruct (detectColumnRegions_total (sortedLines items)
              (sortedLines_nonempty items)) as [regions Hdetect].
  exists regions. split; [done|].
  unfold sortTextItems. case_bool_decide as Hlen.
  { destruct items; [|done]. vm_compute in Hdetect. by simplify_eq. }
  assert (Hsorted : length (Js.sort compareY (tagItems items)) ≠ O).
  { unfold tagItems. by rewrite sort_length, length_imap. }
  unfold sortedLines in *.
  destruct (Js.sort compareY (tagItems items)) as [|t0 rest]; [done|].
  rewrite clusterLines_groupFrom. simpl.
  by rewrite (reorderColumnRegions_columnFirst _ _ Hdetect).
Qed.

(** C1: for every input fragment list, [sortTextItems] returns, and what
    it returns is a permutation of its input: each input fragment appears
    exactly once in the output, none is created or destroyed. *)
Theorem sortTextItems_permutation (items : list TextItem) :
  ∃ sorted, sortTextItems items = Some sorted ∧ sorted ≡ₚ items.
Proof.
  destruct (sortTextItems_columnFirst items) as (regions & Hdetect & ->).
  eexists. split; [done|].
  apply detectColumnRegions_Some in Hdetect as [Hwithin _].
  rewrite (columnFirst_perm _ _ _ Hwithin), drop_0.
  apply sortedLines_perm.
Qed.

(** ** Sortedness of [Array.prototype.sort] for a consistent comparator *)

Section SortSorted.

Context {A : Type} (cmp : A → A → Q) (R : A → A → Prop).
Hypothesis cmp_le : ∀ a b, Qle_bool (cmp a b) 0 = true → R a b.
Hypothesis cmp_gt : ∀ a b, Qle_bool (cmp a b) 0 = false → R b a.
Hypothesis R_trans : Transitive R.

Lemma sort_insert_sorted a l :
  StronglySorted R l → StronglySorted R (Js.sort_insert cmp a l).
Proof.
  induction 1 as [|b l Hl IH Hb]; simpl.
  { by repeat constructor. }
  destruct (Qle_bool (cmp a b) 0) eqn:Hab.
  - constructor; [by constructor|].
    constructor; [by apply cmp_le|].
    eapply Forall_impl; [exact Hb|].
    intros c Hc. trans b; [by apply cmp_le | done].
  - constructor; [done|].
    rewrite sort_insert_perm. constructor; [by apply cmp_gt | done].
Qed.

Lemma sort_sorted l : StronglySorted R (Js.sort cmp l).
Proof.
  induction l as [|a l IH]; simpl; [constructor|].
  by apply sort_insert_sorted.
Qed.

End SortSorted.

Lemma or_zero a : Js.or a 0 == a.
Proof.
  unfold Js.or. destruct (Qeq_bool a 0) eqn:H; [|done].
  apply Qeq_bool_eq in H. by rewrite H.
Qed.

Lemma compareY_le a b :
  Qle_bool (compareY a b) 0 = true
  ↔ TextItem.y (item b) <= TextItem.y (item a).
Proof.
  unfold compareY. rewrite Qle_bool_iff, !or_zero. split; intros; lra.
Qed.

(** Phase 1 leaves the entries in descending order of y. *)
Lemma sort_compareY_sorted l :
  StronglySorted (λ a b, TextItem.y (item b) <= TextItem.y (item a))
    (Js.sort compareY l).
Proof.
  apply sort_sorted.
  - intros a b. apply compareY_le.
  - intros a b Hab.
    assert (¬ TextItem.y (item b) <= TextItem.y (item a)) as Hn.
    { rewrite <- compareY_le. by rewrite Hab. }
    apply Qnot_le_lt in Hn. lra.
  - intros a b c ? ?. simpl in *. lra.
Qed.

(** C6, as the specification states it, fails: two fragments of font size
    8 that are 5 apart in y fall into two lines, though
    [max(8, 12) * 0.5 = 6] is not exceeded. *)
Lemma clusterer_max_threshold_counterexample :
  ∃ lines,
    clusterLines smallFontPair = Some lines
    ∧ ¬ ClusteredBy maxThreshold smallFontPair lines.
Proof.
  eexists. split; [by vm_compute|].
  intros (_ & _ & Hstarts). by vm_compute in Hstarts.
Qed.

(** C6, amended: the line clusterer walks the fragments in descending
    order of y and starts a new line exactly at the first fragment and at
    every later fragment whose absolute y-difference from the fragment
    immediately before it exceeds
    [(prevFontSize > 0 ? prevFontSize : 12) * 0.5], for every non-empty
    input fragment list. *)
Theorem clusterer_threshold (it : TextItem) (items : list TextItem) :
  let tagged := Js.sort compareY (tagItems (it :: items)) in
  StronglySorted (λ a b, TextItem.y (item b) <= TextItem.y (item a)) tagged
  ∧ ∃ lines,
      clusterLines tagged = Some lines
      ∧ ClusteredBy clusterThreshold tagged lines.
Proof.
  intros tagged. split; [apply sort_compareY_sorted|].
  assert (length tagged ≠ O) as Hlen.
  { unfold tagged, tagItems. by rewrite sort_length, length_imap. }
  destruct tagged as [|t0 rest]; [done|].
  exists (groupFrom clusterThreshold t0 rest).
  split; [apply clusterLines_groupFrom | apply groupFrom_clustered].
Qed.

(** ** Column regions: acceptance and layout *)

Lemma gapLinesIn_mono lines lo lo' hi hi' :
  (lo' ≤ lo)%nat → (lo ≤ hi)%nat → (hi ≤ hi')%nat →
  (gapLinesIn lines lo hi ≤ gapLinesIn lines lo' hi')%nat.
Proof.
  intros. rewrite (gapLinesIn_split lines lo' lo hi') by lia.
  rewrite (gapLinesIn_split lines lo hi hi') by lia. lia.
Qed.

Lemma few_gap_lines_no_region lines regions :
  detectColumnRegions lines = Some regions →
  (gapLinesIn lines 0 (length lines) < MIN_COLUMN_RUN)%nat →
  regions = [].
Proof.
  intros Hdetect Hfew.
  apply detectColumnRegions_Some in Hdetect as [_ Hacc].
  destruct regions as [|r regions]; [done|].
  inversion Hacc as [|? ? (anchor & ? & ? & ? & Hmin) _]; subst.
  pose proof (gapLinesIn_mono lines anchor 0 (ColumnRegion.end_ r)
                (length lines)).
  lia.
Qed.

(** C5: for every page, the column detector returns, and every region it
    accepts holds, from an anchor line on, at least 3 lines with a
    qualifying gap (lines bridged without a gap are not counted); when at
    most two lines of the page have a qualifying gap there is no region,
    and [sortTextItems] returns the lines row by row, in their order. *)
Theorem column_region_minimum (items : list TextItem) :
  ∃ regions,
    detectColumnRegions (sortedLines items) = Some regions
    ∧ Forall (Accepted (sortedLines items)) regions
    ∧ ((gapLinesIn (sortedLines items) 0 (length (sortedLines items)) ≤ 2)%nat
       → regions = []
         ∧ reorderColumnRegions (sortedLines items) = Some (sortedLines items)
         ∧ sortTextItems items = Some (item <$> concat (sortedLines items))).
Proof.
  destruct (sortTextItems_columnFirst items) as (regions & Hdetect & Hsort).
  exists regions. split_and!; [done| |].
  { by apply detectColumnRegions_Some in Hdetect as [_ ?]. }
  intros Hfew.
  assert (regions = []) as ->.
  { apply (few_gap_lines_no_region _ _ Hdetect). unfold MIN_COLUMN_RUN. lia. }
  split_and!; [done| |].
  - rewrite (reorderColumnRegions_columnFirst _ _ Hdetect). simpl.
    by rewrite drop_0.
  - rewrite Hsort. simpl. by rewrite drop_0.
Qed.

(** The page of the tests with only two rows that show a gap keeps its
    row-first order. *)
Lemma column_region_minimum_witness :
  (gapLinesIn (sortedLines twoGapRows) 0 (length (sortedLines twoGapRows))
   ≤ 2)%nat
  ∧ sortTextItems twoGapRows = Some twoGapRows.
Proof.
  destruct (column_region_minimum twoGapRows) as (regions & _ & _ & Hfew).
  assert (gapLinesIn (sortedLines twoGapRows) 0
            (length (sortedLines twoGapRows)) ≤ 2)%nat as Hle.
  { vm_compute. lia. }
  split; [exact Hle|].
  destruct (Hfew Hle) as (_ & _ & ->). reflexivity.
Defined.

(** ** The dominant gap of a line *)

Lemma gapBetween_edge prev e :
  gapBetween prev e = TextItem.x (item e) - rightEdgeOf (item prev).
Proof. reflexivity. Qed.

(** The scan keeps the first of the widest of the gaps that are wider
    than [minGap] and than the widest so far. *)
Lemma gapScan_widest minGap prev rest maxGap maxGapRightX mg rx :
  gapScan minGap (item prev) rest maxGap maxGapRightX = (mg, rx) →
  maxGap <= mg
  ∧ (∀ j p e,
       (prev :: rest) !! j = Some p → rest !! j = Some e →
       minGap < gapBetween p e → gapBetween p e <= mg)
  ∧ ((mg, rx) = (maxGap, maxGapRightX)
     ∨ ∃ j p e,
         (prev :: rest) !! j = Some p ∧ rest !! j = Some e
         ∧ mg = gapBetween p e ∧ rx = TextItem.x (item e)
         ∧ minGap < mg ∧ maxGap < mg
         ∧ ∀ j' p' e',
             (j' < j)%nat →
             (prev :: rest) !! j' = Some p' → rest !! j' = Some e' →
             minGap < gapBetween p' e' → gapBetween p' e' < mg).
Proof.
  revert prev maxGap maxGapRightX.
  induction rest as [|e rest IH]; intros prev maxGap maxGapRightX.
  { intros [= <- <-]. split_and!; [apply Qle_refl|done|by left]. }
  cbn [gapScan].
  change (TextItem.x (item e) - rightEdgeOf (item prev))
    with (gapBetween prev e).
  destruct (Js.gtb (gapBetween prev e) minGap) eqn:Hmin;
    [destruct (Js.gtb (gapBetween prev e) maxGap) eqn:Hmax|]; cbn [andb];
    intros Hscan; apply IH in Hscan as (Hle & Hall & Hwhich).
  - apply gtb_lt in Hmin, Hmax. split_and!.
    + lra.
    + intros [|j] p e' Hp He' Hgap; simplify_eq/=; [done|]. by eapply Hall.
    + right.
      destruct Hwhich
        as [[= -> ->]|(j & p & e' & ? & ? & ? & ? & ? & ? & Hbefore)].
      * exists O, prev, e. split_and!; [done..|]. intros; lia.
      * exists (S j), p, e'. split_and!; [done..|lra|].
        intros [|j'] p' e'' Hlt Hp' He'' Hgap; simplify_eq/=; [done|].
        apply (Hbefore j'); [lia|done..].
  - apply gtb_lt in Hmin. apply gtb_le in Hmax. split_and!; [done| |].
    + intros [|j] p e' Hp He' Hgap; simplify_eq/=; [lra|]. by eapply Hall.
    + destruct Hwhich
        as [?|(j & p & e' & ? & ? & ? & ? & ? & ? & Hbefore)]; [by left|].
      right. exists (S j), p, e'. split_and!; [done..|].
      intros [|j'] p' e'' Hlt Hp' He'' Hgap; simplify_eq/=; [lra|].
      apply (Hbefore j'); [lia|done..].
  - apply gtb_le in Hmin. split_and!; [done| |].
    + intros [|j] p e' Hp He' Hgap; simplify_eq/=; [lra|]. by eapply Hall.
    + destruct Hwhich
        as [?|(j & p & e' & ? & ? & ? & ? & ? & ? & Hbefore)]; [by left|].
      right. exists (S j), p, e'. split_and!; [done..|].
      intros [|j'] p' e'' Hlt Hp' He'' Hgap; simplify_eq/=; [lra|].
      apply (Hbefore j'); [lia|done..].
Qed.

(** What [findDominantColumnGap] detects is the dominant gap of the
    line. *)
Lemma findDominantColumnGap_dominant line g :
  findDominantColumnGap line = Some g → DominantGap line g.
Proof.
  unfold findDominantColumnGap.
  destruct line as [|e0 [|e1 rest]]; [done..|].
  destruct (gapScan _ _ _ _ _) as [mg rx] eqn:Hscan.
  apply gapScan_widest in Hscan as (_ & Hall & Hwhich).
  destruct (Js.gtb mg 0) eqn:Hpos; [|done]. intros [= <-].
  apply gtb_lt in Hpos.
  destruct Hwhich
    as [[= -> ->]|(j & p & e & Hp & He & -> & -> & Hmin & _ & Hbefore)].
  { lra. }
  exists e0, j, p, e. unfold COLUMN_GAP_FACTOR in *.
  split_and!; [done..|]. intros j' p' e' Hp' He' Hgap. split.
  - by apply (Hall j').
  - intros Hlt. by apply (Hbefore j').
Qed.

(** A line without a detected gap has no gap that is wider than three
    times its font size and than 0. *)
Lemma findDominantColumnGap_no_gap line e0 j prev e :
  findDominantColumnGap line = None → head line = Some e0 →
  line !! j = Some prev → line !! S j = Some e →
  ¬ (Js.or (TextItem.fontSize (item e0)) 12 * 3 < gapBetween prev e
     ∧ 0 < gapBetween prev e).
Proof.
  unfold findDominantColumnGap.
  destruct line as [|e0' [|e1 rest]]; [done| |].
  { intros _ _ _ He. by destruct j. }
  destruct (gapScan _ _ _ _ _) as [mg rx] eqn:Hscan.
  apply gapScan_widest in Hscan as (_ & Hall & Hwhich).
  destruct (Js.gtb mg 0) eqn:Hpos; [done|]. apply gtb_le in Hpos.
  intros _ [= <-] Hprev He [Hwide Hpositive].
  unfold COLUMN_GAP_FACTOR in Hall.
  specialize (Hall j prev e Hprev He Hwide). lra.
Qed.

(** C4: the column reorderer lays the lines out column-first.  The
    detector accepts regions that lie within the lines one after the
    other.  Every line of a region is split at that line's own detected
    gap [rightX], which is the x after the first of the widest gaps of the
    line among the gaps wider than three times the line's font size, and
    at the region's [boundaryX] when the line has no such gap: the entries
    left of the split point form the left part, the others the right
    part.  All left parts of the region come top to bottom, then all its
    right parts top to bottom, and the lines outside the regions stay as
    they are, in their order.  On the two side-by-side three-row blocks the three
    lines of the left block come before the three lines of the right
    block.  On four rows whose values start at x = 340, 350 and 370, one
    row without a value, the region has the boundary x 1060/3, every
    value goes to the right part although two of them start left of the
    boundary, and the row without a value to the left part. *)
Theorem column_first_reordering (lines : list (list TaggedEntry)) :
  (Forall (λ l, l ≠ []) lines →
   ∃ regions,
     detectColumnRegions lines = Some regions
     ∧ RegionsWithin (length lines) 0 regions
     ∧ reorderColumnRegions lines = Some (columnFirst lines 0 regions))
  ∧ (∀ region line g,
       findDominantColumnGap line = Some g →
       DominantGap line g
       ∧ ownGapOrBoundary region line = GapInfo.rightX g)
  ∧ (∀ region line,
       findDominantColumnGap line = None →
       ownGapOrBoundary region line = ColumnRegion.boundaryX region
       ∧ ∀ e0 j prev e,
           head line = Some e0 →
           line !! j = Some prev → line !! S j = Some e →
           ¬ (Js.or (TextItem.fontSize (item e0)) 12 * 3 < gapBetween prev e
              ∧ 0 < gapBetween prev e))
  ∧ (∀ region line e,
       (e ∈ leftPart region line
        ↔ e ∈ line ∧ TextItem.x (item e) < ownGapOrBoundary region line)
       ∧ (e ∈ rightPart region line
          ↔ e ∈ line ∧ ownGapOrBoundary region line <= TextItem.x (item e)))
  ∧ sortTextItems signatureBlocks
    = Some (signatureBlocksLeft ++ signatureBlocksRight)
  ∧ detectColumnRegions (sortedLines raggedColumns)
    = Some [ColumnRegion.mk 0 4 (1060 # 3)]
  ∧ sortTextItems raggedColumns
    = Some (raggedColumnsLeft ++ raggedColumnsRight).
Proof.
  split_and!; [| | | |by vm_compute..].
  - intros Hne.
    destruct (detectColumnRegions_total lines Hne) as [regions Hdetect].
    exists regions. split_and!; [done| |].
    + by apply detectColumnRegions_Some in Hdetect as [? _].
    + by apply reorderColumnRegions_columnFirst.
  - intros region line g Hg. split.
    + by apply findDominantColumnGap_dominant.
    + unfold ownGapOrBoundary. by rewrite Hg.
  - intros region line Hnone. split.
    + unfold ownGapOrBoundary. by rewrite Hnone.
    + intros e0 j prev e. by apply findDominantColumnGap_no_gap.
  - intros region line e. unfold leftPart, rightPart.
    rewrite !list_elem_of_In, !filter_In, ltb_lt.
    unfold Js.geb. rewrite Qle_bool_iff. done.
Qed.

(** The lines of the signature blocks: one region over the three rows. *)
Lemma column_first_reordering_witness :
  Forall (λ l, l ≠ []) (sortedLines signatureBlocks)
  ∧ ∃ regions,
      detectColumnRegions (sortedLines signatureBlocks) = Some regions
      ∧ length regions = 1%nat
      ∧ reorderColumnRegions (sortedLines signatureBlocks)
        = Some (columnFirst (sortedLines signatureBlocks) 0 regions).
Proof.
  assert (Forall (λ l, l ≠ []) (sortedLines signatureBlocks)) as Hne.
  { apply sortedLines_nonempty. }
  split; [exact Hne|].
  destruct (column_first_reordering (sortedLines signatureBlocks))
    as [Hgen _].
  destruct (Hgen Hne) as (regions & Hdetect & _ & Hreorder).
  exists regions. split_and!; [done| |done].
  vm_compute in Hdetect. by simplify_eq.
Defined.

(** ** The unified walk *)

(** What the recorder logs for one fragment with text: the signal, then
    the fragment. *)
Lemma walkStep_recorder links w log it :
  TextItem.text it ≠ [] →
  walkStep links recorder (w, log) it
  = (advance w it,
     log ++ match classify w it with
            | SignalLineBreak p => [LineBreakEvent it p]
            | SignalSpace => [SpaceEvent]
            | SignalNone => []
            end ++ [ItemEvent it (findLinkForItem it links)]).
Proof.
  intros Htext. unfold walkStep. rewrite bool_decide_false by done.
  destruct (classify w it); simpl; by rewrite <- ?app_assoc.
Qed.

Lemma classify_line_break w it :
  Walk.hasContent w = true →
  Walk.lastFontSize w * 0.5 < Qabs (TextItem.y it - Walk.lastY w) →
  classify w it
  = SignalLineBreak
      (Js.gtb (Qabs (TextItem.y it - Walk.lastY w))
         (Walk.lastFontSize w * 1.8)).
Proof.
  intros Hc Hfar. unfold classify. rewrite Hc.
  apply gtb_lt in Hfar. by rewrite Hfar.
Qed.

Lemma classify_same_line w it :
  Walk.hasContent w = true →
  Qabs (TextItem.y it - Walk.lastY w) <= Walk.lastFontSize w * 0.5 →
  classify w it
  = if Js.ltb (TextItem.x it - (Walk.lastX w + Walk.lastWidth w))
         (- Walk.lastFontSize w * 2)
       || shouldInsertSpace
            (TextItem.x it - (Walk.lastX w + Walk.lastWidth w))
            (TextItem.x it - Walk.lastX w) (Walk.lastTextLen w)
            (Walk.lastFontSize w) (Walk.lastHasMetricWidth w)
    then SignalSpace else SignalNone.
Proof.
  intros Hc Hnear. unfold classify. rewrite Hc.
  apply gtb_le in Hnear. by rewrite Hnear.
Qed.

Lemma max_Qmax a b : Js.max a b == Qmax a b.
Proof.
  unfold Js.max. destruct (Qle_bool a b) eqn:Hab.
  - apply Qle_bool_iff in Hab. by rewrite Q.max_r.
  - assert (b <= a) as Hba.
    { apply Qlt_le_weak, Qnot_le_lt. rewrite <- Qle_bool_iff. by rewrite Hab. }
    by rewrite Q.max_l.
Qed.

(** ** The walk over consecutive fragments *)

(** After a fragment, the state of the walk holds that fragment's
    position, effective width, text length and metric-width flag, and the
    font size in force. *)
Lemma advance_stateAfter w it :
  advance w it
  = stateAfter (Js.or (TextItem.fontSize it) (Walk.lastFontSize w)) it.
Proof. reflexivity. Qed.

Lemma classify_no_content w it :
  Walk.hasContent w = false → classify w it = SignalNone.
Proof. intros Hc. unfold classify. by rewrite Hc, andb_false_r. Qed.

Lemma walkStep_at links w F prev log it :
  WalkAt w F prev → TextItem.text it ≠ [] →
  walkStep links recorder (w, log) it
  = (stateAfter (Js.or (TextItem.fontSize it) F) it,
     log ++ walkLog links F prev [it]).
Proof.
  intros Hat Htext. rewrite walkStep_recorder, advance_stateAfter by done.
  cbn [walkLog]. destruct prev as [p|]; simpl in Hat.
  - subst w. done.
  - destruct Hat as [Hc <-]. by rewrite classify_no_content.
Qed.

Lemma emitted_cons it sorted :
  emitted (it :: sorted)
  = if bool_decide (TextItem.text it = []) then emitted sorted
    else it :: emitted sorted.
Proof. unfold emitted. simpl. by case_bool_decide. Qed.

Lemma emitted_text sorted : Forall (λ it, TextItem.text it ≠ []) (emitted sorted).
Proof.
  induction sorted as [|it sorted IH]; [constructor|].
  rewrite emitted_cons. case_bool_decide; [done|]. by constructor.
Qed.

(** The last fragment emitted once [done] has been emitted after
    [prev]. *)
Lemma last_cons_from_option {A} (prev : option A) a l :
  from_option Some prev (last (a :: l)) = from_option Some (Some a) (last l).
Proof. destruct l as [|b l]; [done|]. rewrite last_cons_cons. by destruct (last (b :: l)) eqn:H; [|by apply last_None in H]. Qed.

(** The walk over a part of the sorted fragments logs [walkLog] of the
    fragments with text, and arrives at the state of the last of them. *)
Lemma walk_fold links sorted w F prev log :
  WalkAt w F prev →
  ∃ w',
    foldl (walkStep links recorder) (w, log) sorted
    = (w', log ++ walkLog links F prev (emitted sorted))
    ∧ WalkAt w' (fontInForce F (emitted sorted))
        (from_option Some prev (last (emitted sorted))).
Proof.
  revert w F prev log.
  induction sorted as [|it sorted IH]; intros w F prev log Hat.
  { exists w. split; [by rewrite app_nil_r | done]. }
  rewrite emitted_cons. cbn [foldl]. case_bool_decide as Htext.
  - unfold walkStep at 2. rewrite bool_decide_true by done. by apply IH.
  - rewrite (walkStep_at links w F prev) by done.
    destruct (IH (stateAfter (Js.or (TextItem.fontSize it) F) it)
                (Js.or (TextItem.fontSize it) F) (Some it)
                (log ++ walkLog links F prev [it]) eq_refl)
      as (w' & -> & Hat').
    exists w'. split.
    + f_equal. cbn [walkLog]. by rewrite <- !app_assoc.
    + by rewrite last_cons_from_option.
Qed.

Lemma walkLog_app links F prev l1 l2 :
  walkLog links F prev (l1 ++ l2)
  = walkLog links F prev l1
    ++ walkLog links (fontInForce F l1) (from_option Some prev (last l1)) l2.
Proof.
  revert F prev. induction l1 as [|it l1 IH]; intros F prev; [done|].
  cbn [app walkLog]. rewrite IH, last_cons_from_option.
  by rewrite <- app_assoc.
Qed.

Lemma itemsOf_app log1 log2 : itemsOf (log1 ++ log2) = itemsOf log1 ++ itemsOf log2.
Proof. apply omap_app. Qed.

Lemma itemsOf_separator F prev it : itemsOf (separator F prev it) = [].
Proof. unfold separator. by destruct (classify _ _). Qed.

Lemma itemsOf_walkLog links F prev l : itemsOf (walkLog links F prev l) = l.
Proof.
  revert F prev. induction l as [|it l IH]; intros F prev; [done|].
  cbn [walkLog]. rewrite itemsOf_app.
  assert (itemsOf match prev with
                  | Some p => separator F p it
                  | None => []
                  end = []) as ->.
  { destruct prev; [apply itemsOf_separator | done]. }
  cbn. by rewrite IH.
Qed.

(** The whole log of the walk. *)
Lemma walkEvents_walkLog items links sorted :
  sortTextItems items = Some sorted → sorted ≠ [] →
  walkEvents items links
  = Some (walkLog links (startFont sorted) None (emitted sorted)
          ++ [EndEvent]).
Proof.
  intros Hsort Hne. unfold walkEvents, walkItems. rewrite Hsort.
  destruct sorted as [|first sorted']; [done|]. cbn [mbind option_bind head].
  destruct (walk_fold links (first :: sorted') (walkInit first)
              (startFont (first :: sorted')) None []) as (w' & -> & _);
    done.
Qed.

(** The log around two fragments that the walk emits one after the
    other. *)
Lemma walkEvents_pair items links sorted pre prev it post :
  sortTextItems items = Some sorted →
  emitted sorted = pre ++ prev :: it :: post →
  ∃ before after,
    walkEvents items links
    = Some (before
            ++ ItemEvent prev (findLinkForItem prev links)
               :: separator (fontInForce (startFont sorted) (pre ++ [prev]))
                    prev it
               ++ ItemEvent it (findLinkForItem it links) :: after)
    ∧ itemsOf before = pre.
Proof.
  intros Hsort Hem.
  assert (sorted ≠ []) as Hne.
  { intros ->. by destruct pre. }
  rewrite (walkEvents_walkLog _ _ _ Hsort Hne), Hem.
  replace (pre ++ prev :: it :: post) with ((pre ++ [prev]) ++ it :: post)
    by (by rewrite <- app_assoc).
  rewrite walkLog_app, last_snoc. cbn [from_option walkLog].
  rewrite walkLog_app. cbn [walkLog].
  set (F := fontInForce (startFont sorted) (pre ++ [prev])).
  exists (walkLog links (startFont sorted) None pre
          ++ match from_option Some None (last pre) with
             | Some p => separator (fontInForce (startFont sorted) pre) p prev
             | None => []
             end),
    (walkLog links (Js.or (TextItem.fontSize it) F) (Some it) post
     ++ [EndEvent]).
  split.
  - f_equal. rewrite <- !app_assoc. reflexivity.
  - rewrite itemsOf_app, itemsOf_walkLog.
    destruct (from_option Some None (last pre));
      [rewrite itemsOf_separator|]; apply app_nil_r.
Qed.

Lemma fontInForce_snoc start pre prev :
  fontInForce start (pre ++ [prev])
  = Js.or (TextItem.fontSize prev) (fontInForce start pre).
Proof. unfold fontInForce. by rewrite foldl_app. Qed.

Lemma fontInForce_own start pre prev :
  ¬ TextItem.fontSize prev == 0 →
  fontInForce start (pre ++ [prev]) = TextItem.fontSize prev.
Proof.
  intros Hfs. rewrite fontInForce_snoc. unfold Js.or.
  destruct (Qeq_bool _ 0) eqn:H0; [|done]. by apply Qeq_bool_iff in H0.
Qed.

(** What is signalled between two fragments, spelled out. *)
Lemma separator_line_break F prev it :
  F * 0.5 < Qabs (TextItem.y it - TextItem.y prev) →
  separator F prev it
  = [LineBreakEvent it
       (Js.gtb (Qabs (TextItem.y it - TextItem.y prev)) (F * 1.8))].
Proof.
  intros Hfar. unfold separator. by rewrite classify_line_break.
Qed.

Lemma separator_same_line F prev it :
  Qabs (TextItem.y it - TextItem.y prev) <= F * 0.5 →
  separator F prev it
  = if Js.ltb
         (TextItem.x it
          - (TextItem.x prev
             + Js.or (TextItem.width prev)
                 (Js.len (TextItem.text prev) * F * 0.6)))
         (- F * 2)
       || shouldInsertSpace
            (TextItem.x it
             - (TextItem.x prev
                + Js.or (TextItem.width prev)
                    (Js.len (TextItem.text prev) * F * 0.6)))
            (TextItem.x it - TextItem.x prev)
            (Js.len (TextItem.text prev)) F (Js.gtb (TextItem.width prev) 0)
    then [SpaceEvent] else [].
Proof.
  intros Hnear. unfold separator. rewrite classify_same_line by done.
  cbn [stateAfter Walk.lastX Walk.lastWidth Walk.lastFontSize
       Walk.lastTextLen Walk.lastHasMetricWidth].
  by destruct (_ || _).
Qed.

(** C2: in the walk over the final fragment order, take any two fragments
    that are emitted one after the other, [prev] and then [it].  The
    state that the walk holds at [it] is that of [prev]: [lastY] is the y
    of [prev], and [lastFontSize] is the font size in force at [prev],
    which is the font size of [prev] unless that is 0.  Between the two
    the walk signals a line break iff
    [|y - lastY| > lastFontSize * 0.5], and the line break is a paragraph
    break iff in addition [|y - lastY| > lastFontSize * 1.8]; otherwise
    it signals at most a space.  With font size 12, fragments at y = 100
    and y = 93 give a line break that is no paragraph break, fragments at
    y = 100 and y = 76 a paragraph break, and the fragment 7 below the
    second of two fragments of one baseline a line break after a
    space. *)
Theorem walk_line_break (items : list TextItem)
    (links : list LinkAnnotation.t) (sorted pre : list TextItem)
    (prev it : TextItem) (post : list TextItem) :
  (sortTextItems items = Some sorted →
   emitted sorted = pre ++ prev :: it :: post →
   let lastY := TextItem.y prev in
   let lastFontSize := fontInForce (startFont sorted) (pre ++ [prev]) in
   let yDelta := Qabs (TextItem.y it - lastY) in
   ∃ before sep after,
     walkEvents items links
     = Some (before
             ++ ItemEvent prev (findLinkForItem prev links)
                :: sep ++ ItemEvent it (findLinkForItem it links) :: after)
     ∧ itemsOf before = pre
     ∧ (¬ TextItem.fontSize prev == 0 →
        lastFontSize = TextItem.fontSize prev)
     ∧ ((∃ p, sep = [LineBreakEvent it p]) ↔ lastFontSize * 0.5 < yDelta)
     ∧ (sep = [LineBreakEvent it true]
        ↔ lastFontSize * 0.5 < yDelta ∧ lastFontSize * 1.8 < yDelta)
     ∧ (yDelta <= lastFontSize * 0.5 → sep = [SpaceEvent] ∨ sep = []))
  ∧ walkEvents twoLines []
    = Some [ ItemEvent (makeItem "Line1" 0 100 0) None;
             LineBreakEvent (makeItem "Line2" 0 93 0) false;
             ItemEvent (makeItem "Line2" 0 93 0) None; EndEvent ]
  ∧ walkEvents twoParagraphs []
    = Some [ ItemEvent (makeItem "Para1" 0 100 0) None;
             LineBreakEvent (makeItem "Para2" 0 76 0) true;
             ItemEvent (makeItem "Para2" 0 76 0) None; EndEvent ]
  ∧ walkEvents threeFragments []
    = Some [ ItemEvent (makeItem "Hello" 0 100 30) None; SpaceEvent;
             ItemEvent (makeItem "World" 40 100 25) None;
             LineBreakEvent (makeItem "Below" 40 93 25) false;
             ItemEvent (makeItem "Below" 40 93 25) None; EndEvent ].
Proof.
  split; [|split_and!; by vm_compute].
  intros Hsort Hem lastY lastFontSize yDelta.
  destruct (walkEvents_pair items links sorted pre prev it post Hsort Hem)
    as (before & after & Hlog & Hbefore).
  exists before, (separator lastFontSize prev it), after.
  split_and!; [done|done|apply fontInForce_own|..].
  - destruct (Qlt_le_dec (lastFontSize * 0.5) yDelta) as [Hfar|Hnear].
    + rewrite separator_line_break by done. split; [done|]. by eexists.
    + rewrite separator_same_line by done.
      split; [|intros; lra]. intros [p Hsep]. by destruct (_ || _).
  - destruct (Qlt_le_dec (lastFontSize * 0.5) yDelta) as [Hfar|Hnear].
    + rewrite separator_line_break by done. fold lastY yDelta.
      rewrite <- (gtb_lt yDelta (lastFontSize * 1.8)). split.
      * by intros [= ->].
      * by intros [_ ->].
    + rewrite separator_same_line by done.
      split; [|intros; lra]. intros Hsep. by destruct (_ || _).
  - intros Hnear. rewrite separator_same_line by done.
    destruct (_ || _); auto.
Qed.

(** The two fragments of [twoLines]. *)
Lemma walk_line_break_witness :
  let prev := makeItem "Line1" 0 100 0 in
  let it := makeItem "Line2" 0 93 0 in
  sortTextItems twoLines = Some twoLines
  ∧ emitted twoLines = [] ++ prev :: it :: []
  ∧ ∃ before sep after,
      walkEvents twoLines []
      = Some (before
              ++ ItemEvent prev (findLinkForItem prev [])
                 :: sep ++ ItemEvent it (findLinkForItem it []) :: after)
      ∧ ∃ p, sep = [LineBreakEvent it p].
Proof.
  intros prev it.
  assert (sortTextItems twoLines = Some twoLines) as Hsort by (by vm_compute).
  assert (emitted twoLines = [] ++ prev :: it :: []) as Hem by reflexivity.
  split_and!; [done..|].
  destruct (proj1 (walk_line_break twoLines [] twoLines [] prev it [])
              Hsort Hem)
    as (before & sep & after & Hlog & _ & _ & Hbreak & _).
  exists before, sep, after. split; [done|].
  apply Hbreak. by vm_compute.
Defined.

(** C3: in the walk, take any two fragments that are emitted one after
    the other, [prev] and then [it], on the same line
    ([|y - lastY| <= lastFontSize * 0.5]).  The state that the walk holds
    at [it] is that of [prev]: its x, its effective width (its width, or
    [text.length * lastFontSize * 0.6] when the width is 0), its text
    length, and whether its width is positive.  Between the two the walk
    signals a space iff [xGap < -lastFontSize * 2] or the gap classifier
    returns true for [xGap = x - (lastX + lastWidth)] and
    [posGap = x - lastX], and nothing otherwise; a space is signalled on
    the same line only.  The classifier returns [xGap > fontSize * 0.15]
    when the previous fragment had metric width and
    [posGap > max(textLen, 1) * fontSize * 0.5] otherwise. *)
Theorem walk_space (items : list TextItem)
    (links : list LinkAnnotation.t) (sorted pre : list TextItem)
    (prev it : TextItem) (post : list TextItem) :
  (sortTextItems items = Some sorted →
   emitted sorted = pre ++ prev :: it :: post →
   let lastFontSize := fontInForce (startFont sorted) (pre ++ [prev]) in
   let lastX := TextItem.x prev in
   let lastWidth :=
     Js.or (TextItem.width prev)
       (Js.len (TextItem.text prev) * lastFontSize * 0.6) in
   let lastTextLen := Js.len (TextItem.text prev) in
   let hadMetricWidth := Js.gtb (TextItem.width prev) 0 in
   let xGap := TextItem.x it - (lastX + lastWidth) in
   let posGap := TextItem.x it - lastX in
   ∃ before sep after,
     walkEvents items links
     = Some (before
             ++ ItemEvent prev (findLinkForItem prev links)
                :: sep ++ ItemEvent it (findLinkForItem it links) :: after)
     ∧ itemsOf before = pre
     ∧ (hadMetricWidth = true ↔ 0 < TextItem.width prev)
     ∧ (Qabs (TextItem.y it - TextItem.y prev) <= lastFontSize * 0.5 →
        (sep = [SpaceEvent]
         ↔ xGap < - lastFontSize * 2
           ∨ shouldInsertSpace xGap posGap lastTextLen lastFontSize
               hadMetricWidth = true)
        ∧ (sep = [SpaceEvent] ∨ sep = []))
     ∧ (SpaceEvent ∈ sep →
        Qabs (TextItem.y it - TextItem.y prev) <= lastFontSize * 0.5))
  ∧ (∀ xGap posGap textLen fontSize,
       (shouldInsertSpace xGap posGap textLen fontSize true = true
        ↔ fontSize * 0.15 < xGap)
       ∧ (shouldInsertSpace xGap posGap textLen fontSize false = true
          ↔ Qmax textLen 1 * fontSize * 0.5 < posGap))
  ∧ walkEvents helloWorld []
    = Some [ ItemEvent (makeItem "Hello" 0 100 30) None; SpaceEvent;
             ItemEvent (makeItem "World" 40 100 25) None; EndEvent ]
  ∧ walkEvents oneBaseline []
    = Some [ ItemEvent (makeItem "ab" 0 100 10) None;
             ItemEvent (makeItem "cd" 10 100 10) None; SpaceEvent;
             ItemEvent (makeItem "ef" 28 100 10) None; EndEvent ].
Proof.
  split; [|split_and!; [|by vm_compute..]].
  - intros Hsort Hem lastFontSize lastX lastWidth lastTextLen hadMetricWidth
      xGap posGap.
    destruct (walkEvents_pair items links sorted pre prev it post Hsort Hem)
      as (before & after & Hlog & Hbefore).
    exists before, (separator lastFontSize prev it), after.
    split_and!; [done|done|apply gtb_lt|..].
    + intros Hnear. rewrite separator_same_line by done.
      fold lastX lastWidth lastTextLen hadMetricWidth xGap posGap.
      rewrite <- ltb_lt, <- orb_true_iff.
      destruct (_ || _); (split; [split; [done|]; by intros [=] | auto]).
    + intros Hspace.
      destruct (Qlt_le_dec (lastFontSize * 0.5)
                  (Qabs (TextItem.y it - TextItem.y prev))) as [Hfar|Hnear];
        [|done].
      rewrite separator_line_break in Hspace by done.
      by apply list_elem_of_singleton in Hspace.
  - intros xGap posGap textLen fontSize. unfold shouldInsertSpace.
    by rewrite !gtb_lt, max_Qmax.
Qed.

(** The two fragments of [helloWorld]: the gap of 10 after [Hello], which
    has metric width, exceeds [12 * 0.15]. *)
Lemma walk_space_witness :
  let prev := makeItem "Hello" 0 100 30 in
  let it := makeItem "World" 40 100 25 in
  sortTextItems helloWorld = Some helloWorld
  ∧ emitted helloWorld = [] ++ prev :: it :: []
  ∧ ∃ before sep after,
      walkEvents helloWorld []
      = Some (before
              ++ ItemEvent prev (findLinkForItem prev [])
                 :: sep ++ ItemEvent it (findLinkForItem it []) :: after)
      ∧ sep = [SpaceEvent].
Proof.
  intros prev it.
  assert (sortTextItems helloWorld = Some helloWorld) as Hsort
    by (by vm_compute).
  assert (emitted helloWorld = [] ++ prev :: it :: []) as Hem by reflexivity.
  split_and!; [done..|].
  destruct (proj1 (walk_space helloWorld [] helloWorld [] prev it [])
              Hsort Hem)
    as (before & sep & after & Hlog & _ & _ & Hsame & _).
  exists before, sep, after. split; [done|].
  apply Hsame; [by vm_compute|]. right. by vm_compute.
Defined.

(** ** The walk always ends, and keeps invariants of its visitor *)

(** What the walk iterates over: the sorted fragments, a permutation of
    the page's fragments. *)
Lemma sortTextItems_sorted_perm items :
  ∃ sorted, sortTextItems items = Some sorted ∧ sorted ≡ₚ items.
Proof.
  destruct (sortTextItems_columnFirst items) as (regions & Hdetect & Hsort).
  exists (item <$> concat (columnFirst (sortedLines items) 0 regions)).
  split; [done|].
  apply detectColumnRegions_Some in Hdetect as [Hwithin _].
  rewrite (columnFirst_perm _ _ _ Hwithin), drop_0.
  apply sortedLines_perm.
Qed.

Section WalkInvariant.

Context {S : Type} (links : list LinkAnnotation.t) (visitor : ItemVisitor.t S).

Lemma walkItems_total it items s :
  is_Some (walkItems links visitor (it :: items) s).
Proof.
  unfold walkItems.
  destruct (sortTextItems_sorted_perm (it :: items)) as (sorted & -> & Hperm).
  simpl. destruct sorted as [|first sorted].
  { by apply Permutation_nil_cons in Hperm. }
  simpl. destruct (foldl _ _ _). by eexists.
Qed.

Variable P : S → Prop.
Hypothesis onLineBreak_P :
  ∀ it p s, P s → P (ItemVisitor.onLineBreak visitor it p s).
Hypothesis onSpace_P : ∀ s, P s → P (ItemVisitor.onSpace visitor s).
Hypothesis onItem_P :
  ∀ it link s, P s → P (ItemVisitor.onItem visitor it link s).
Hypothesis onEnd_P : ∀ s, P s → P (ItemVisitor.onEnd visitor s).

Lemma walkStep_invariant w s it :
  P s → P (walkStep links visitor (w, s) it).2.
Proof.
  intros Hs. unfold walkStep. case_bool_decide; [done|]. simpl.
  apply onItem_P. destruct (classify w it); auto.
Qed.

Lemma walkItems_invariant items s s' :
  walkItems links visitor items s = Some s' → P s → P s'.
Proof.
  unfold walkItems. intros Hwalk Hs.
  destruct (sortTextItems items) as [sorted|]; [|done]. simpl in Hwalk.
  destruct (head sorted) as [first|]; [|done]. simpl in Hwalk.
  assert (∀ l w s0, P s0 → P (foldl (walkStep links visitor) (w, s0) l).2)
    as Hfold.
  { induction l as [|it l IH]; intros w s0 Hs0; cbn [foldl]; [done|].
    pose proof (walkStep_invariant w s0 it Hs0) as Hstep.
    destruct (walkStep links visitor (w, s0) it) as [w1 s1]. by apply IH. }
  specialize (Hfold sorted (walkInit first) s Hs).
  destruct (foldl _ _ _) as [w1 s1]. simplify_eq. by apply onEnd_P.
Qed.

End WalkInvariant.

(** ** The structured sink *)

Lemma spansText_snoc spans span :
  spansText (spans ++ [span]) = spansText spans ++ TextSpan.text span.
Proof.
  unfold spansText. rewrite fmap_app, concat_app. simpl.
  by rewrite app_nil_r.
Qed.

Lemma setLast_snoc {A} (v a : A) arr : setLast v (arr ++ [a]) = arr ++ [v].
Proof.
  unfold setLast. rewrite length_app. simpl.
  replace (length arr + 1 - 1)%nat with (length arr + 0)%nat by lia.
  by rewrite insert_app_r.
Qed.

(** Overwriting the last span with one that carries more text. *)
Lemma spansText_setLast spans lastSpan span more :
  last spans = Some lastSpan →
  TextSpan.text span = TextSpan.text lastSpan ++ more →
  spansText (setLast span spans) = spansText spans ++ more.
Proof.
  intros Hlast Htext. apply last_Some in Hlast as [spans' ->].
  by rewrite setLast_snoc, !spansText_snoc, Htext, app_assoc.
Qed.

Lemma pushLine_consistent isBlankAfter st :
  SinkConsistent st → SinkConsistent (pushLine isBlankAfter st).
Proof.
  intros [Htext Hres]. split; [done|]. simpl.
  case_bool_decide; [|done].
  apply Forall_app. split; [done|]. by repeat constructor.
Qed.

Section StructuredSinkProofs.

Variable detectFontStyle : jsstring → FontStyle.t.

Lemma appendToSpans_consistent rawText fontName link st :
  SinkConsistent st →
  SinkConsistent (appendToSpans detectFontStyle rawText fontName link st).
Proof.
  intros [Htext Hres]. split; [|done]. simpl. rewrite Htext.
  destruct (last (Sink.currentSpans st)) as [lastSpan|] eqn:Hlast.
  - destruct (_ && _).
    + by rewrite (spansText_setLast _ lastSpan _ (normalizePUA rawText)).
    + by rewrite spansText_snoc.
  - by rewrite spansText_snoc.
Qed.

Lemma structuredVisitor_onSpace_consistent st :
  SinkConsistent st →
  SinkConsistent (ItemVisitor.onSpace (structuredVisitor detectFontStyle) st).
Proof.
  intros [Htext Hres]. simpl.
  destruct (last (Sink.currentSpans st)) as [lastSpan|] eqn:Hlast; [|done].
  split; [|done]. simpl.
  by rewrite Htext, (spansText_setLast _ lastSpan _ [32%N]).
Qed.

Lemma structuredVisitor_onItem_consistent it link st :
  SinkConsistent st →
  SinkConsistent
    (ItemVisitor.onItem (structuredVisitor detectFontStyle) it link st).
Proof.
  intros Hst. cbn [ItemVisitor.onItem structuredVisitor].
  set (st1 := if bool_decide (Sink.currentText st = []) then _ else st).
  assert (SinkConsistent st1) as Hst1.
  { unfold st1. case_bool_decide; [|done]. destruct Hst. by split. }
  destruct (appendToSpans_consistent (TextItem.text it) (TextItem.fontName it)
              link st1 Hst1) as [Htext Hres].
  by split.
Qed.

(** C10: with placeholder stripping disabled, [assembleStructuredItems]
    returns, and the text of every line it returns is the in-order
    concatenation of the texts of the line's spans, for every fragment
    list, every link list and every font-style classifier. *)
Theorem structured_line_text_is_spans_text
    (items : list TextItem) (links : list LinkAnnotation.t) :
  ∃ lines,
    assembleStructuredItems detectFontStyle items links keepPlaceholders
      = Some lines
    ∧ Forall
        (λ line,
           StructuredLine.text line
           = concat (TextSpan.text <$> StructuredLine.spans line))
        lines.
Proof.
  unfold assembleStructuredItems. case_bool_decide as Hlen.
  { by exists []. }
  destruct items as [|it items]; [done|].
  match goal with
  | |- context [walkItems ?l ?v ?i ?s] =>
      destruct (walkItems_total l v it items s) as [st Hwalk];
      rewrite Hwalk
  end.
  simpl. exists (Sink.result st). split; [done|].
  eapply (walkItems_invariant links (structuredVisitor detectFontStyle)
            SinkConsistent) in Hwalk.
  - by destruct Hwalk.
  - intros ? p s. apply pushLine_consistent.
  - apply structuredVisitor_onSpace_consistent.
  - apply structuredVisitor_onItem_consistent.
  - intros s. apply pushLine_consistent.
  - by split.
Qed.

End StructuredSinkProofs.

(** ** Regular expressions: runs and greedy repetition *)

(** Facts on the character classes, by arithmetic on code units. *)
Ltac classes :=
  unfold afterAnchor, Regex.wordStart, Regex.letter, Regex.digit, Regex.space,
    Regex.isChar, Regex.inRange, Regex.backslash in *;
  repeat match goal with
    | H : _ || _ = true |- _ => apply orb_true_iff in H as [H|H]
    | H : _ && _ = true |- _ => apply andb_true_iff in H as [? ?]
    | H : (_ <=? _)%N = true |- _ => apply N.leb_le in H
    | H : (_ =? _)%N = true |- _ => apply N.eqb_eq in H
    end;
  repeat match goal with
    | |- _ || _ = false => apply orb_false_iff; split
    | |- _ && _ = false => apply andb_false_iff
    | |- (_ =? _)%N = false => apply N.eqb_neq
    end;
  rewrite ?N.leb_gt; try lia.

Lemma wordStart_not_digit c : Regex.wordStart c = true → Regex.digit c = false.
Proof. intros H. classes. Qed.

Lemma digit_not_wordStart c : Regex.digit c = true → Regex.wordStart c = false.
Proof. intros H. classes. Qed.

Lemma digit_not_afterAnchor c : Regex.digit c = true → afterAnchor c = false.
Proof. intros H. classes. Qed.

Lemma afterAnchor_not_digit c : afterAnchor c = true → Regex.digit c = false.
Proof. intros H. classes. Qed.

Lemma space_or_letter_afterAnchor c :
  Regex.space c || Regex.letter c = true → afterAnchor c = true.
Proof.
  unfold afterAnchor.
  by destruct (Regex.space c), (Regex.letter c),
    (Regex.isChar Regex.backslash c).
Qed.

Lemma space_or_letter_not_backslash c :
  Regex.space c || Regex.letter c = true →
  Regex.isChar Regex.backslash c = false.
Proof. intros H. classes. Qed.

Lemma not_afterAnchor_not_backslash c :
  afterAnchor c = false → Regex.isChar Regex.backslash c = false.
Proof.
  unfold afterAnchor.
  by destruct (Regex.space c), (Regex.letter c),
    (Regex.isChar Regex.backslash c).
Qed.

(** A successful [star] consumed a run and handed the rest to [k]. *)
Lemma star_Some p s k r :
  Regex.star p s k = Some r →
  ∃ run tail, s = run ++ tail ∧ IsRun p run ∧ k tail = Some r.
Proof.
  revert r. induction s as [|c s IH]; intros r; simpl.
  { intros Hk. exists [], []. split_and!; [done|constructor|done]. }
  destruct (p c) eqn:Hc.
  - destruct (Regex.star p s k) as [r'|] eqn:Hstar.
    + intros [= <-]. destruct (IH r' eq_refl) as (run & tail & -> & Hrun & Hk).
      exists (c :: run), tail. split_and!; [done| |done]. by constructor.
    + intros Hk. exists [], (c :: s). split_and!; [done|constructor|done].
  - intros Hk. exists [], (c :: s). split_and!; [done|constructor|done].
Qed.

(** On a run that ends where the class ends, [star] hands over the rest
    after the whole run, provided [k] rejects every earlier stop. *)
Lemma star_whole_run p run rest k :
  IsRun p run → EndsOrStartsWith (λ c, negb (p c)) rest →
  (∀ u1 u2, run = u1 ++ u2 → u2 ≠ [] → k (u2 ++ rest) = None) →
  Regex.star p (run ++ rest) k = k rest.
Proof.
  intros Hrun Hrest. induction Hrun as [|c run Hc Hrun IH]; intros Hk; simpl.
  { destruct rest as [|c rest]; [done|]. simpl in *.
    by rewrite (proj1 (negb_true_iff _) Hrest). }
  rewrite Hc, IH.
  - destruct (k rest) eqn:Hkr; [done|]. by apply (Hk [] (c :: run)).
  - intros u1 u2 -> Hu2. by apply (Hk (c :: u1) u2).
Qed.

(** Two ways to cut a string into a run and a rest that does not continue
    the run are the same. *)
Lemma run_split_unique p run1 rest1 run2 rest2 :
  IsRun p run1 → IsRun p run2 →
  EndsOrStartsWith (λ c, negb (p c)) rest1 →
  EndsOrStartsWith (λ c, negb (p c)) rest2 →
  run1 ++ rest1 = run2 ++ rest2 → run1 = run2 ∧ rest1 = rest2.
Proof.
  intros Hrun1. revert run2.
  induction Hrun1 as [|c run1 Hc Hrun1 IH]; intros run2 Hrun2 Hr1 Hr2 Heq.
  - destruct Hrun2 as [|c2 run2 Hc2 Hrun2]; [done|].
    simpl in Heq. subst rest1. simpl in Hr1. by rewrite Hc2 in Hr1.
  - destruct Hrun2 as [|c2 run2 Hc2 Hrun2].
    + simpl in Heq. subst rest2. simpl in Hr2. by rewrite Hc in Hr2.
    + simpl in Heq. simplify_eq.
      destruct (IH run2) as [-> ->]; done.
Qed.

(** ** The open anchor *)

(** The continuation after the digits of an open anchor: the
    lookahead. *)
Lemma open_anchor_lookahead s r :
  Regex.rmatch
    (Regex.Lookahead
       (Regex.Alt
          (Regex.Class
             (λ c, Regex.space c || Regex.isChar Regex.backslash c
                   || Regex.letter c))
          Regex.Eos)) s Some = Some r
  ↔ r = s ∧ EndsOrStartsWith afterAnchor s.
Proof.
  simpl. destruct s as [|c s]; simpl.
  { split; [by intros [= <-] | by intros [-> _]]. }
  fold (afterAnchor c). destruct (afterAnchor c); simpl.
  - split; [by intros [= <-] | by intros [-> _]].
  - split; [done | by intros [_ ?]].
Qed.

Lemma exec_open_anchor s rest :
  Regex.exec OPEN_ANCHOR s = Some rest
  ↔ ∃ name digits,
      s = Regex.backslash :: name ++ digits ++ rest
      ∧ name ≠ [] ∧ IsRun Regex.wordStart name
      ∧ digits ≠ [] ∧ IsRun Regex.digit digits
      ∧ EndsOrStartsWith afterAnchor rest.
Proof.
  unfold Regex.exec, OPEN_ANCHOR.
  cbn [Regex.rmatch]. split.
  - destruct s as [|b s]; [done|].
    destruct (Regex.isChar Regex.backslash b) eqn:Hb; [|done].
    assert (b = Regex.backslash) as -> by (by apply N.eqb_eq in Hb).
    destruct s as [|c s]; [done|].
    destruct (Regex.wordStart c) eqn:Hc; [|done].
    intros Hstar.
    apply star_Some in Hstar as (name & tail & -> & Hname & Hk).
    destruct tail as [|d tail]; [done|].
    destruct (Regex.digit d) eqn:Hd; [|done].
    apply star_Some in Hk as (digits & tail' & -> & Hdigits & Hk).
    apply open_anchor_lookahead in Hk as [-> Hafter].
    exists (c :: name), (d :: digits).
    split_and!; [done|done| |done| |done]; by constructor.
  - intros (name & digits & -> & Hne & Hname & Hnd & Hdigits & Hafter).
    destruct Hname as [|c name Hc Hname]; [done|].
    destruct Hdigits as [|d digits Hd Hdigits]; [done|].
    simpl. rewrite Hc.
    rewrite star_whole_run; [|done| |].
    + rewrite Hd, star_whole_run; [|done| |].
      * by apply open_anchor_lookahead.
      * destruct rest as [|a rest]; [done|]. simpl in *.
        by rewrite afterAnchor_not_digit.
      * intros u1 u2 -> Hu2. destruct u2 as [|a u2]; [done|].
        apply Forall_app in Hdigits as [_ Hu].
        inversion Hu; subst. simpl.
        fold (afterAnchor a). by rewrite digit_not_afterAnchor.
    + simpl. by rewrite digit_not_wordStart.
    + intros u1 u2 -> Hu2. destruct u2 as [|a u2]; [done|].
      apply Forall_app in Hname as [_ Hu].
      inversion Hu; subst. simpl. by rewrite wordStart_not_digit.
Qed.

(** ** Global replacement by the empty string *)

Lemma removeFrom_skip r pre s :
  Regex.removeFrom r (pre ++ s) (length pre) = Regex.removeFrom r s 0.
Proof. induction pre as [|c pre IH]; simpl; [by destruct s | done]. Qed.

(** A match at the current position is dropped. *)
Lemma removeFrom_match r m s :
  m ≠ [] → Regex.exec r (m ++ s) = Some s →
  Regex.removeFrom r (m ++ s) 0 = Regex.removeFrom r s 0.
Proof.
  intros Hm Hexec. destruct m as [|c m]; [done|].
  change ((c :: m) ++ s) with (c :: (m ++ s)) in *.
  cbn [Regex.removeFrom]. rewrite Hexec.
  replace (length (c :: m ++ s) - length s)%nat with (S (length m))
    by (simpl; rewrite length_app; lia).
  apply removeFrom_skip.
Qed.

(** Code units at which no match starts are kept. *)
Lemma removeFrom_copy r pre s :
  (∀ u1 u2, pre = u1 ++ u2 → u2 ≠ [] → Regex.exec r (u2 ++ s) = None) →
  Regex.removeFrom r (pre ++ s) 0 = pre ++ Regex.removeFrom r s 0.
Proof.
  induction pre as [|c pre IH]; intros Hno; [done|].
  change ((c :: pre) ++ s) with (c :: (pre ++ s)).
  cbn [Regex.removeFrom].
  assert (Regex.exec r (c :: pre ++ s) = None) as ->.
  { by apply (Hno [] (c :: pre)). }
  rewrite IH; [done|].
  intros u1 u2 -> Hu2. by apply (Hno (c :: u1) u2).
Qed.

(** ** The other patterns *)

Lemma exec_self_closing_Some s rest :
  Regex.exec SELF_CLOSING_ANCHOR s = Some rest →
  ∃ name digits,
    s = Regex.backslash :: name ++ digits ++ Regex.backslash :: rest
    ∧ name ≠ [] ∧ IsRun Regex.wordStart name ∧ IsRun Regex.digit digits.
Proof.
  unfold Regex.exec, SELF_CLOSING_ANCHOR. cbn [Regex.rmatch].
  destruct s as [|b s]; [done|].
  destruct (Regex.isChar Regex.backslash b) eqn:Hb; [|done].
  assert (b = Regex.backslash) as -> by (by apply N.eqb_eq in Hb).
  destruct s as [|c s]; [done|].
  destruct (Regex.wordStart c) eqn:Hc; [|done].
  intros Hstar.
  apply star_Some in Hstar as (name & tail & -> & Hname & Hk).
  apply star_Some in Hk as (digits & tail' & -> & Hdigits & Hk).
  destruct tail' as [|b tail']; [done|].
  destruct (Regex.isChar Regex.backslash b) eqn:Hb'; [|done].
  assert (b = Regex.backslash) as -> by (by apply N.eqb_eq in Hb').
  simplify_eq. exists (c :: name), digits.
  split_and!; [done|done| |done]. by constructor.
Qed.

Lemma exec_form_placeholder s :
  Regex.exec FORM_PLACEHOLDER_RE s
  = match Regex.exec SELF_CLOSING_ANCHOR s with
    | Some rest => Some rest
    | None =>
        match Regex.exec OPEN_ANCHOR s with
        | Some rest => Some rest
        | None => Regex.exec ORPHANED_DELIMITER s
        end
    end.
Proof. reflexivity. Qed.

(** Every alternative of [FORM_PLACEHOLDER_RE] starts with a backslash or
    a space. *)
Lemma exec_form_placeholder_head c s :
  Regex.isChar Regex.backslash c = false → Regex.isChar 32 c = false →
  Regex.exec FORM_PLACEHOLDER_RE (c :: s) = None.
Proof.
  intros Hb Hs. rewrite exec_form_placeholder.
  unfold Regex.exec, SELF_CLOSING_ANCHOR, OPEN_ANCHOR, ORPHANED_DELIMITER.
  cbn [Regex.rmatch]. by rewrite Hb, Hs.
Qed.

Lemma exec_trailing_backslash_Some s rest :
  Regex.exec TRAILING_BACKSLASH_RE s = Some rest →
  s = Regex.backslash :: rest ∧ EndsOrStartsWith Regex.space rest.
Proof.
  unfold Regex.exec, TRAILING_BACKSLASH_RE. cbn [Regex.rmatch].
  destruct s as [|b s]; [done|].
  destruct (Regex.isChar Regex.backslash b) eqn:Hb; [|done].
  assert (b = Regex.backslash) as -> by (by apply N.eqb_eq in Hb).
  destruct s as [|c s]; [by intros [= <-]|].
  destruct (Regex.space c) eqn:Hc; simpl; [by intros [= <-] | done].
Qed.

(** ** An open anchor at the start of a text *)

Section OpenAnchorAtStart.

Variables name digits : jsstring.
Hypothesis name_nonempty : name ≠ [].
Hypothesis name_run : IsRun Regex.wordStart name.
Hypothesis digits_nonempty : digits ≠ [].
Hypothesis digits_run : IsRun Regex.digit digits.

Lemma digits_then_not_wordStart rest :
  EndsOrStartsWith (λ c, negb (Regex.wordStart c)) (digits ++ rest).
Proof.
  destruct digits_run as [|d ds Hd _]; [done|]. simpl.
  by rewrite digit_not_wordStart.
Qed.

(** The parts of an anchor are determined by the text. *)
Lemma anchor_parts_unique name' digits' rest rest' :
  IsRun Regex.wordStart name' → IsRun Regex.digit digits' →
  EndsOrStartsWith (λ c, negb (Regex.wordStart c)) (digits' ++ rest') →
  EndsOrStartsWith (λ c, negb (Regex.digit c)) rest →
  EndsOrStartsWith (λ c, negb (Regex.digit c)) rest' →
  name ++ digits ++ rest = name' ++ digits' ++ rest' →
  name' = name ∧ digits' = digits ∧ rest' = rest.
Proof.
  intros Hname' Hdigits' Hnw Hr Hr' Heq.
  apply (run_split_unique Regex.wordStart) in Heq as [-> Heq];
    [|done|done|apply digits_then_not_wordStart|done].
  apply (run_split_unique Regex.digit) in Heq as [-> ->]; done.
Qed.

Lemma exec_self_closing_None rest :
  EndsOrStartsWith
    (λ c, negb (Regex.digit c) && negb (Regex.isChar Regex.backslash c))
    rest →
  Regex.exec SELF_CLOSING_ANCHOR (Regex.backslash :: name ++ digits ++ rest)
  = None.
Proof.
  intros Hrest.
  destruct (Regex.exec SELF_CLOSING_ANCHOR _) as [r|] eqn:Hexec; [|done].
  apply exec_self_closing_Some in Hexec
    as (name' & digits' & Heq & _ & Hname' & Hdigits').
  simplify_eq.
  apply anchor_parts_unique in Heq as (_ & _ & Hr); [|done|done| | |done].
  - subst rest. by vm_compute in Hrest.
  - destruct Hdigits' as [|d ds Hd _]; [done|]. simpl.
    by rewrite digit_not_wordStart.
  - destruct rest as [|c rest]; [done|]. simpl in *.
    by apply andb_true_iff in Hrest as [? _].
Qed.

Lemma suffix_of_anchor u1 u2 :
  Regex.backslash :: name ++ digits = u1 ++ u2 → u2 ≠ [] →
  u2 = Regex.backslash :: name ++ digits
  ∨ ∃ c u2', u2 = c :: u2'
      ∧ (Regex.wordStart c = true ∨ Regex.digit c = true).
Proof.
  intros Heq Hu2. destruct u1 as [|b u1]; [by left|]. right.
  simpl in Heq. injection Heq as _ Heq.
  destruct u2 as [|c u2]; [done|]. exists c, u2. split; [done|].
  assert (Forall (λ c, Regex.wordStart c = true ∨ Regex.digit c = true)
            (name ++ digits)) as Hall.
  { apply Forall_app. split; (eapply Forall_impl; [done|]); simpl; auto. }
  rewrite Heq in Hall. apply Forall_app in Hall as [_ Hall].
  by inversion Hall.
Qed.

(** Followed by the end of the text, white space or a letter, the anchor
    is matched, and removed. *)
Lemma removeAll_open_anchor rest :
  EndsOrStartsWith (λ c, Regex.space c || Regex.letter c) rest →
  Regex.removeAll FORM_PLACEHOLDER_RE
    (Regex.backslash :: name ++ digits ++ rest)
  = Regex.removeAll FORM_PLACEHOLDER_RE rest.
Proof.
  intros Hrest. unfold Regex.removeAll.
  replace (Regex.backslash :: name ++ digits ++ rest)
    with ((Regex.backslash :: name ++ digits) ++ rest)
    by (by rewrite <- app_comm_cons, <- app_assoc).
  apply removeFrom_match; [done|].
  rewrite <- app_comm_cons, <- app_assoc, exec_form_placeholder.
  rewrite exec_self_closing_None.
  - assert (Regex.exec OPEN_ANCHOR
              (Regex.backslash :: name ++ digits ++ rest) = Some rest) as ->;
      [|done].
    apply exec_open_anchor. exists name, digits. split_and!; [done..|].
    destruct rest as [|c rest]; [done|]. simpl in *.
    by apply space_or_letter_afterAnchor.
  - destruct rest as [|c rest]; [done|]. simpl in *.
    rewrite (afterAnchor_not_digit c), (space_or_letter_not_backslash c);
      auto using space_or_letter_afterAnchor.
Qed.

(** Followed by anything else that is not a digit or a backslash, the
    anchor stays. *)
Lemma removeAll_keeps_anchor c rest :
  Regex.digit c = false → afterAnchor c = false →
  Regex.removeAll FORM_PLACEHOLDER_RE
    (Regex.backslash :: name ++ digits ++ c :: rest)
  = Regex.backslash :: name ++ digits
    ++ Regex.removeAll FORM_PLACEHOLDER_RE (c :: rest).
Proof.
  intros Hd Ha. unfold Regex.removeAll.
  replace (Regex.backslash :: name ++ digits ++ c :: rest)
    with ((Regex.backslash :: name ++ digits) ++ c :: rest)
    by (by rewrite <- app_comm_cons, <- app_assoc).
  rewrite removeFrom_copy; [by rewrite <- app_comm_cons, <- app_assoc|].
  intros u1 u2 Heq Hu2.
  destruct (suffix_of_anchor u1 u2 Heq Hu2) as [->|(a & u2' & -> & Hin)].
  - rewrite <- app_comm_cons, <- app_assoc, exec_form_placeholder.
    rewrite exec_self_closing_None.
    2: { simpl. by rewrite Hd, (not_afterAnchor_not_backslash c). }
    destruct (Regex.exec OPEN_ANCHOR _) as [r|] eqn:Hexec.
    + apply exec_open_anchor in Hexec
        as (name' & digits' & Heq' & _ & Hname' & Hnd' & Hdigits' & Hafter).
      simplify_eq.
      apply anchor_parts_unique in Heq' as (_ & _ & ->).
      * simpl in Hafter. by rewrite Ha in Hafter.
      * done.
      * done.
      * destruct Hdigits' as [|d ds Hd' _]; [done|]. simpl.
        by rewrite digit_not_wordStart.
      * simpl. by rewrite Hd.
      * destruct r as [|a r]; [done|]. simpl in *.
        by rewrite afterAnchor_not_digit.
    + unfold Regex.exec, ORPHANED_DELIMITER. by cbn [Regex.rmatch].
  - simpl. apply exec_form_placeholder_head; destruct Hin; classes.
Qed.

Lemma removeAll_trailing_keeps_anchor s :
  Regex.removeAll TRAILING_BACKSLASH_RE (Regex.backslash :: name ++ digits ++ s)
  = Regex.backslash :: name ++ digits
    ++ Regex.removeAll TRAILING_BACKSLASH_RE s.
Proof.
  unfold Regex.removeAll.
  replace (Regex.backslash :: name ++ digits ++ s)
    with ((Regex.backslash :: name ++ digits) ++ s)
    by (by rewrite <- app_comm_cons, <- app_assoc).
  rewrite removeFrom_copy; [by rewrite <- app_comm_cons, <- app_assoc|].
  intros u1 u2 Heq Hu2.
  destruct (Regex.exec TRAILING_BACKSLASH_RE (u2 ++ s)) as [r|] eqn:Hexec;
    [|done].
  apply exec_trailing_backslash_Some in Hexec as [Hs Hspace].
  destruct (suffix_of_anchor u1 u2 Heq Hu2) as [->|(a & u2' & -> & Hin)].
  - rewrite <- app_comm_cons, <- app_assoc in Hs. simplify_eq.
    destruct name_run as [|a name' Ha _]; [done|]. simpl in Hspace. classes.
  - simpl in Hs. simplify_eq. destruct Hin; classes.
Qed.

(** Followed by a backslash, the anchor with that backslash is a
    self-closing anchor, which is matched first, and removed. *)
Lemma exec_self_closing_anchor rest :
  Regex.exec SELF_CLOSING_ANCHOR
    (Regex.backslash :: name ++ digits ++ Regex.backslash :: rest)
  = Some rest.
Proof.
  unfold Regex.exec, SELF_CLOSING_ANCHOR. cbn [Regex.rmatch].
  destruct name_run as [|c name' Hc Hname']; [done|].
  cbn [app]. cbn. rewrite Hc.
  rewrite star_whole_run; [|done| |].
  - rewrite star_whole_run; [by cbn|done|by cbn|].
    intros u1 u2 -> Hu2. destruct u2 as [|a u2]; [done|].
    apply Forall_app in digits_run as [_ Hu]. inversion Hu; subst.
    cbn. assert (Regex.isChar Regex.backslash a = false) as -> by classes.
    done.
  - destruct digits_run as [|d ds Hd _]; [done|]. cbn.
    by rewrite digit_not_wordStart.
  - intros u1 u2 -> Hu2. destruct u2 as [|a u2]; [done|].
    apply Forall_app in Hname' as [_ Hu]. inversion Hu; subst.
    cbn. rewrite wordStart_not_digit by done.
    assert (Regex.isChar Regex.backslash a = false) as -> by classes.
    done.
Qed.

Lemma removeAll_self_closing_anchor rest :
  Regex.removeAll FORM_PLACEHOLDER_RE
    (Regex.backslash :: name ++ digits ++ Regex.backslash :: rest)
  = Regex.removeAll FORM_PLACEHOLDER_RE rest.
Proof.
  unfold Regex.removeAll.
  replace (Regex.backslash :: name ++ digits ++ Regex.backslash :: rest)
    with ((Regex.backslash :: name ++ digits ++ [Regex.backslash]) ++ rest)
    by (by rewrite <- app_comm_cons, <- !app_assoc).
  apply removeFrom_match; [done|].
  rewrite <- app_comm_cons, <- !app_assoc. cbn [app].
  by rewrite exec_form_placeholder, exec_self_closing_anchor.
Qed.

(** Text without a backslash before the anchor is kept, and the scan
    arrives at the anchor. *)
Lemma removeAll_form_before_anchor pre s :
  Regex.backslash ∉ pre →
  Regex.removeAll FORM_PLACEHOLDER_RE
    (pre ++ Regex.backslash :: name ++ digits ++ s)
  = pre
    ++ Regex.removeAll FORM_PLACEHOLDER_RE
         (Regex.backslash :: name ++ digits ++ s).
Proof.
  intros Hpre. unfold Regex.removeAll. apply removeFrom_copy.
  intros u1 u2 -> Hu2. destruct u2 as [|a u2]; [done|].
  assert (Regex.isChar Regex.backslash a = false) as Ha.
  { apply N.eqb_neq. intros ->. apply Hpre.
    apply elem_of_app. right. by left. }
  destruct (Regex.isChar 32 a) eqn:Hsp.
  2: { by apply exec_form_placeholder_head. }
  rewrite exec_form_placeholder.
  unfold Regex.exec, SELF_CLOSING_ANCHOR, OPEN_ANCHOR, ORPHANED_DELIMITER.
  cbn [Regex.rmatch app]. rewrite Ha, Hsp.
  destruct u2 as [|b u2]; cbn [app].
  - destruct name_run as [|c name' Hc _]; [done|]. cbn.
    assert (Regex.space c = false) as -> by classes. done.
  - assert (Regex.isChar Regex.backslash b = false) as ->; [|done].
    apply N.eqb_neq. intros ->. apply Hpre.
    apply elem_of_app. right. right. by left.
Qed.

End OpenAnchorAtStart.

(** The second pass keeps text without a backslash. *)
Lemma removeAll_trailing_before pre s :
  Regex.backslash ∉ pre →
  Regex.removeAll TRAILING_BACKSLASH_RE (pre ++ s)
  = pre ++ Regex.removeAll TRAILING_BACKSLASH_RE s.
Proof.
  intros Hpre. unfold Regex.removeAll. apply removeFrom_copy.
  intros u1 u2 -> Hu2. destruct u2 as [|a u2]; [done|].
  destruct (Regex.exec TRAILING_BACKSLASH_RE ((a :: u2) ++ s)) as [r|] eqn:He;
    [|done].
  apply exec_trailing_backslash_Some in He as [He _]. simplify_eq/=.
  destruct Hpre. apply elem_of_app. right. by left.
Qed.

(** C9, as the specification states it, fails: the open anchor [\date1]
    in ["\date14 Jan 2025"] is directly followed by a digit, and
    [stripFormPlaceholderText] removes it, with that digit, because the
    pattern takes the whole run of digits, and white space follows the
    run; nothing of the anchor is left.  An open anchor followed by
    white space is not removed either when its backslash is the closing
    backslash of a self-closing anchor before it: ["\a\date1 x"] becomes
    ["date1 x"]. *)
Lemma open_anchor_stripping_counterexample :
  (IsOpenAnchor (Js.str "\date1")
   ∧ Regex.digit 52 = true
   ∧ stripFormPlaceholderText (Js.str "\date1" ++ 52%N :: Js.str " Jan 2025")
     = Js.str " Jan 2025"
   ∧ ¬ ∃ out,
         stripFormPlaceholderText
           (Js.str "\date1" ++ 52%N :: Js.str " Jan 2025")
         = Js.str "\date1" ++ out)
  ∧ (IsOpenAnchor (Js.str "\date1")
     ∧ Regex.space 32 = true
     ∧ stripFormPlaceholderText
         (Js.str "\a" ++ Js.str "\date1" ++ 32%N :: Js.str "x")
       = Js.str "date1 x").
Proof.
  assert (IsOpenAnchor (Js.str "\date1")) as Hanchor.
  { exists (Js.str "date"), (Js.str "1").
    split_and!; [done|done| |done|]; by repeat constructor. }
  split_and!; [done|done|by vm_compute| |done|done|by vm_compute].
  intros [out Hout]. by vm_compute in Hout.
Qed.

(** C9, amended.  The open-anchor pattern matches exactly an open anchor
    (a backslash, one or more letters or underscores, one or more digits)
    that is followed by white space, a backslash, a letter or the end of
    the string, so a match never ends directly before a digit: an open
    anchor takes part in a match with the whole run of digits after its
    letters.  For an open anchor with its whole run of digits that stands
    after text without a backslash, [stripFormPlaceholderText] keeps the
    text before it and
    - removes the anchor when white space, a letter or the end of the
      text follows,
    - removes the anchor and the backslash when a backslash follows,
    - keeps the anchor when any other code unit follows,
    and goes on in the same way with the text after it.  It leaves
    ["\date14/1/2025"] unchanged, turns ["\date1 4/1/2025"] into
    [" 4/1/2025"], removes the first anchor and keeps the second in
    ["Signed \date1 by \name22/x"], and keeps the first and removes the
    second in ["Signed \date1, by \name22 x"]. *)
Theorem open_anchor_stripping :
  (∀ s rest,
     Regex.exec OPEN_ANCHOR s = Some rest
     ↔ ∃ anchor,
         IsOpenAnchor anchor ∧ s = anchor ++ rest
         ∧ EndsOrStartsWith afterAnchor rest)
  ∧ (∀ s c rest,
       Regex.exec OPEN_ANCHOR s = Some (c :: rest) → Regex.digit c = false)
  ∧ (∀ anchor d, IsOpenAnchor anchor → Regex.digit d = true →
       IsOpenAnchor (anchor ++ [d]))
  ∧ (∀ pre anchor rest,
       Regex.backslash ∉ pre → IsOpenAnchor anchor →
       EndsOrStartsWith (λ c, Regex.space c || Regex.letter c) rest →
       stripFormPlaceholderText (pre ++ anchor ++ rest)
       = pre ++ stripFormPlaceholderText rest)
  ∧ (∀ pre anchor rest,
       Regex.backslash ∉ pre → IsOpenAnchor anchor →
       stripFormPlaceholderText (pre ++ anchor ++ Regex.backslash :: rest)
       = pre ++ stripFormPlaceholderText rest)
  ∧ (∀ pre anchor c rest,
       Regex.backslash ∉ pre → IsOpenAnchor anchor →
       Regex.digit c = false → afterAnchor c = false →
       stripFormPlaceholderText (pre ++ anchor ++ c :: rest)
       = pre ++ anchor ++ stripFormPlaceholderText (c :: rest))
  ∧ stripFormPlaceholderText (Js.str "\date14/1/2025")
    = Js.str "\date14/1/2025"
  ∧ stripFormPlaceholderText (Js.str "\date1 4/1/2025")
    = Js.str " 4/1/2025"
  ∧ stripFormPlaceholderText (Js.str "Signed \date1 by \name22/x")
    = Js.str "Signed  by \name22/x"
  ∧ stripFormPlaceholderText (Js.str "Signed \date1, by \name22 x")
    = Js.str "Signed \date1, by  x".
Proof.
  assert (∀ s rest,
            Regex.exec OPEN_ANCHOR s = Some rest
            ↔ ∃ anchor,
                IsOpenAnchor anchor ∧ s = anchor ++ rest
                ∧ EndsOrStartsWith afterAnchor rest) as Hexec.
  { intros s rest. rewrite exec_open_anchor. split.
    - intros (name & digits & -> & ? & ? & ? & ? & ?).
      exists (Regex.backslash :: name ++ digits). split_and!; [|  |done].
      + by exists name, digits.
      + by rewrite <- app_comm_cons, <- app_assoc.
    - intros (anchor & (name & digits & -> & ? & ? & ? & ?) & -> & ?).
      exists name, digits. split_and!; [|done..].
      by rewrite <- app_comm_cons, <- app_assoc. }
  split_and!; [done| | | | | |by vm_compute..].
  - intros s c rest Hs. apply Hexec in Hs as (_ & _ & _ & Hafter).
    by apply afterAnchor_not_digit.
  - intros anchor d (name & digits & -> & ? & ? & ? & ?) Hd.
    exists name, (digits ++ [d]). split_and!; [|done|done| |].
    + by rewrite <- app_comm_cons, <- app_assoc.
    + by destruct digits.
    + apply Forall_app. split; [done|]. by repeat constructor.
  - intros pre anchor rest Hpre (name & digits & -> & ? & ? & ? & ?) Hrest.
    unfold stripFormPlaceholderText.
    rewrite <- app_comm_cons, <- app_assoc.
    rewrite removeAll_form_before_anchor, removeAll_open_anchor by done.
    by apply removeAll_trailing_before.
  - intros pre anchor rest Hpre (name & digits & -> & ? & ? & ? & ?).
    unfold stripFormPlaceholderText.
    rewrite <- app_comm_cons, <- app_assoc.
    rewrite removeAll_form_before_anchor, removeAll_self_closing_anchor
      by done.
    by apply removeAll_trailing_before.
  - intros pre anchor c rest Hpre (name & digits & -> & ? & ? & ? & ?) Hd Ha.
    unfold stripFormPlaceholderText.
    rewrite <- !app_comm_cons, <- !app_assoc.
    rewrite removeAll_form_before_anchor, removeAll_keeps_anchor by done.
    rewrite removeAll_trailing_before by done.
    by rewrite removeAll_trailing_keeps_anchor.
Qed.

(** The anchor [\date1] after ["Signed "], before [" 4/1/2025"], before a
    backslash and before ["/2025"]. *)
Lemma open_anchor_stripping_witness :
  IsOpenAnchor (Js.str "\date1")
  ∧ (Regex.backslash ∉ Js.str "Signed ")
  ∧ stripFormPlaceholderText
      (Js.str "Signed " ++ Js.str "\date1" ++ Js.str " 4/1/2025")
    = Js.str "Signed " ++ stripFormPlaceholderText (Js.str " 4/1/2025")
  ∧ stripFormPlaceholderText
      (Js.str "Signed " ++ Js.str "\date1" ++ Regex.backslash :: Js.str "x")
    = Js.str "Signed " ++ stripFormPlaceholderText (Js.str "x")
  ∧ stripFormPlaceholderText
      (Js.str "Signed " ++ Js.str "\date1" ++ 47%N :: Js.str "2025")
    = Js.str "Signed " ++ Js.str "\date1"
      ++ stripFormPlaceholderText (47%N :: Js.str "2025")
  ∧ IsOpenAnchor (Js.str "\date1" ++ [52%N])
  ∧ Regex.digit 32 = false.
Proof.
  assert (IsOpenAnchor (Js.str "\date1")) as Hanchor.
  { exists (Js.str "date"), (Js.str "1").
    split_and!; [done|done| |done|]; by repeat constructor. }
  assert (Regex.backslash ∉ Js.str "Signed ") as Hpre.
  { rewrite list_elem_of_In. by vm_compute; intuition discriminate. }
  destruct open_anchor_stripping
    as (Hexec & Hdigit & Hlonger & Hremoved & Hclosed & Hkept & _).
  split_and!; [done|done| | | | |].
  - by apply Hremoved.
  - by apply Hclosed.
  - by apply Hkept.
  - by apply Hlonger.
  - apply (Hdigit (Js.str "\date1 4") 32%N (Js.str "4")).
    apply Hexec. exists (Js.str "\date1"). by split_and!.
Defined.

(** ** Font sizes that are not positive *)

Section EntryMap.

Variable g : TaggedEntry → TaggedEntry.
Hypothesis g_geometry : ∀ e, SameGeometry (item (g e)) (item e).

Lemma rightEdgeOf_same it' it : SameGeometry it' it → rightEdgeOf it' = rightEdgeOf it.
Proof. intros (Ht & Hx & _ & Hw & Hf). unfold rightEdgeOf. by rewrite Ht, Hx, Hw, Hf. Qed.

Lemma gapScan_map minGap prev' prev rest maxGap maxGapRightX :
  SameGeometry prev' prev →
  gapScan minGap prev' (g <$> rest) maxGap maxGapRightX
  = gapScan minGap prev rest maxGap maxGapRightX.
Proof.
  revert prev' prev maxGap maxGapRightX.
  induction rest as [|e rest IH]; intros prev' prev maxGap maxGapRightX Hprev;
    [done|].
  cbn [fmap list_fmap gapScan]. change (list_fmap _ _ ?f ?l) with (f <$> l).
  rewrite (rightEdgeOf_same _ _ Hprev).
  rewrite !(IH _ (item e)) by apply g_geometry.
  by destruct (g_geometry e) as (_ & -> & _).
Qed.

Lemma findDominantColumnGap_map line :
  findDominantColumnGap (g <$> line) = findDominantColumnGap line.
Proof.
  destruct line as [|e0 [|e1 rest]]; [done..|].
  unfold findDominantColumnGap.
  change (g <$> e0 :: e1 :: rest) with (g e0 :: (g <$> e1 :: rest)).
  destruct (g_geometry e0) as (_ & _ & _ & _ & ->).
  by rewrite (gapScan_map _ _ (item e0)) by apply g_geometry.
Qed.

Lemma lineIsOneSide_map line boundary :
  lineIsOneSide (g <$> line) boundary = lineIsOneSide line boundary.
Proof.
  unfold lineIsOneSide. f_equal.
  - induction line as [|e line IH]; [done|].
    cbn [fmap list_fmap forallb]. change (list_fmap _ _ ?f ?l) with (f <$> l).
    rewrite IH. unfold itemRightEdge at 1.
    by rewrite (rightEdgeOf_same _ _ (g_geometry e)).
  - induction line as [|e line IH]; [done|].
    cbn [fmap list_fmap forallb]. change (list_fmap _ _ ?f ?l) with (f <$> l).
    rewrite IH. by destruct (g_geometry e) as (_ & -> & _).
Qed.

Lemma splitXOf_map region line :
  splitXOf region (g <$> line) = splitXOf region line.
Proof. unfold splitXOf. by rewrite findDominantColumnGap_map. Qed.

Variable lines : list (list TaggedEntry).

Lemma gaps_map :
  findDominantColumnGap <$> mapLines g lines = findDominantColumnGap <$> lines.
Proof.
  unfold mapLines. rewrite <- list_fmap_compose.
  apply list_fmap_ext. intros _ line _. simpl.
  apply findDominantColumnGap_map.
Qed.

Lemma mapLines_lookup j :
  mapLines g lines !! j
  = (λ line : list TaggedEntry, g <$> line) <$> lines !! j.
Proof. apply list_lookup_fmap. Qed.

Lemma mapLines_length : length (mapLines g lines) = length lines.
Proof. apply length_fmap. Qed.

Lemma firstItem_map j :
  option_Forall2 SameGeometry
    (firstItem (mapLines g lines) j) (firstItem lines j).
Proof.
  unfold firstItem. rewrite mapLines_lookup.
  destruct (lines !! j) as [[|e l]|]; simpl; constructor.
  apply g_geometry.
Qed.

Lemma growRegion_map tolerance k j sumRX count gaplessRun :
  growRegion (mapLines g lines) tolerance k j sumRX count gaplessRun
  = growRegion lines tolerance k j sumRX count gaplessRun.
Proof.
  revert j sumRX count gaplessRun.
  induction k as [|k IH]; intros j sumRX count gaplessRun; [done|].
  cbn [growRegion]. rewrite gaps_map.
  destruct ((findDominantColumnGap <$> lines) !! j) as [[gap|]|];
    rewrite ?IH; try done.
  all: case_bool_decide; [done|].
  all: rewrite mapLines_lookup.
  all: destruct (firstItem_map j) as [cur' cur Hcur|]; [|done].
  all: destruct (firstItem_map (j - 1)) as [prv' prv Hprv|]; [|done].
  all: cbn [fmap option_fmap option_map mbind option_bind].
  all: destruct Hcur as (_ & _ & -> & _).
  all: destruct Hprv as (_ & _ & -> & _ & ->).
  all: destruct (Js.gtb _ _); [done|].
  all: destruct (lines !! j) as [l|]; [|done].
  all: cbn [fmap option_fmap option_map mbind option_bind].
  all: by rewrite lineIsOneSide_map, ?IH.
Qed.

Lemma extendBack_map tolerance boundaryX minStart start backGapless :
  extendBack (mapLines g lines) tolerance boundaryX minStart start backGapless
  = extendBack lines tolerance boundaryX minStart start backGapless.
Proof.
  revert backGapless.
  induction start as [|before IH]; intros backGapless; [done|].
  cbn [extendBack]. rewrite gaps_map.
  case_bool_decide; [|done].
  destruct ((findDominantColumnGap <$> lines) !! before) as [[gap|]|];
    rewrite ?IH; try done.
  all: case_bool_decide; [done|].
  all: rewrite mapLines_lookup.
  all: destruct (lines !! before) as [l|]; [|done].
  all: cbn [fmap option_fmap option_map mbind option_bind].
  all: by rewrite lineIsOneSide_map, ?IH.
Qed.

Lemma detectLoop_map fuel i regions :
  detectLoop (mapLines g lines) fuel i regions
  = detectLoop lines fuel i regions.
Proof.
  revert i regions.
  induction fuel as [|fuel IH]; intros i regions; [done|].
  cbn [detectLoop]. rewrite gaps_map.
  case_bool_decide; [|done].
  destruct ((findDominantColumnGap <$> lines) !! i) as [[anchor|]|];
    rewrite ?IH; try done.
  rewrite growRegion_map.
  destruct (growRegion _ _ _ _ _ _ _) as [[[j sumRX] count]|]; [|done].
  cbn [mbind option_bind].
  case_bool_decide; [|by rewrite ?IH].
  rewrite extendBack_map.
  destruct (extendBack _ _ _ _ _ _) as [start|]; [|done].
  cbn [mbind option_bind]. by rewrite ?IH.
Qed.

Lemma detectColumnRegions_map :
  detectColumnRegions (mapLines g lines) = detectColumnRegions lines.
Proof.
  unfold detectColumnRegions. rewrite gaps_map. apply detectLoop_map.
Qed.

End EntryMap.

Lemma zeroFontTo12_geometry it : SameGeometry (zeroFontTo12 it) it.
Proof.
  unfold SameGeometry, zeroFontTo12, Js.or.
  destruct (Qeq_bool (TextItem.fontSize it) 0) eqn:Hz; simpl;
    by rewrite ?Hz.
Qed.

Lemma zeroFontTo12Entry_geometry e :
  SameGeometry (item (zeroFontTo12Entry e)) (item e).
Proof. apply zeroFontTo12_geometry. Qed.

Lemma retag_geometry f e : SameGeometry (item (retag f e)) (item e).
Proof. by split_and!. Qed.

(** What is signalled between two fragments that the walk emits one
    after the other, by the font size [F] in force at the first. *)
Lemma separator_rule F prev it :
  let yDelta := Qabs (TextItem.y it - TextItem.y prev) in
  let lastWidth :=
    Js.or (TextItem.width prev) (Js.len (TextItem.text prev) * F * 0.6) in
  let xGap := TextItem.x it - (TextItem.x prev + lastWidth) in
  let posGap := TextItem.x it - TextItem.x prev in
  ((∃ p, separator F prev it = [LineBreakEvent it p]) ↔ F * 0.5 < yDelta)
  ∧ (separator F prev it = [LineBreakEvent it true]
     ↔ F * 0.5 < yDelta ∧ F * 1.8 < yDelta)
  ∧ (separator F prev it = [SpaceEvent]
     ↔ yDelta <= F * 0.5
       ∧ (xGap < - F * 2
          ∨ shouldInsertSpace xGap posGap (Js.len (TextItem.text prev)) F
              (Js.gtb (TextItem.width prev) 0) = true)).
Proof.
  intros yDelta lastWidth xGap posGap.
  destruct (Qlt_le_dec (F * 0.5) yDelta) as [Hfar|Hnear].
  - rewrite separator_line_break by done. fold yDelta. split_and!.
    + split; [done|]. by eexists.
    + rewrite <- (gtb_lt yDelta (F * 1.8)). split.
      * by intros [= ->].
      * by intros [_ ->].
    + split; [done|]. intros [? _]. lra.
  - rewrite separator_same_line by done.
    set (c := _ || _).
    assert (c = true
            ↔ xGap < - F * 2
              ∨ shouldInsertSpace xGap posGap (Js.len (TextItem.text prev)) F
                  (Js.gtb (TextItem.width prev) 0) = true) as Hc.
    { unfold c. rewrite orb_true_iff, ltb_lt. reflexivity. }
    destruct c; split_and!.
    + split; [by intros [? ?] | intros; lra].
    + split; [done | intros; lra].
    + split; [intros _; split; [done | by apply Hc] | done].
    + split; [by intros [? ?] | intros; lra].
    + split; [done | intros; lra].
    + split; [done | intros [_ H]; by apply Hc in H].
Qed.

(** C7, as the specification states it, fails in three ways.  In the
    walk a fragment of font size 0 after one of font size 30 leaves
    [lastFontSize] at 30, not at 12: on [inheritedFontPage] the walk then
    signals no line break before the third fragment, 10 lower, although
    it would with a font size of 12 in place of 0.  The width that the
    walk estimates for such a fragment without width is
    [1 * 30 * 0.6 = 18], not [1 * 12 * 0.6].  And where the code writes
    [fontSize || 12], a negative font size is used as it is: the right
    edge of a fragment of font size -5 without width lies 3 left of its
    x, the gap scan of a line that starts with it has the font size -5,
    and the walk starts with -5 in force. *)
Lemma font_size_default_counterexample :
  let it := TextItem.mk (Js.str "B") 20 100 0 (Js.str "Helvetica") 20 None in
  (TextItem.fontSize it <= 0
   ∧ ¬ Walk.lastFontSize (advance afterFirstOfInheritedFontPage it) == 12
   ∧ lineBreaksOf <$> walkEvents inheritedFontPage [] = Some []
   ∧ lineBreaksOf <$> walkEvents (zeroFontTo12 <$> inheritedFontPage) []
     = Some [ LineBreakEvent
                (TextItem.mk (Js.str "C") 0 90 12 (Js.str "Helvetica") 20
                   None)
                false ])
  ∧ (TextItem.fontSize zeroFontNoWidth <= 0
     ∧ Walk.lastWidth (advance afterFirstOfInheritedFontPage zeroFontNoWidth)
       == 18
     ∧ Walk.lastWidth
         (advance afterFirstOfInheritedFontPage
            (withFontSize 12 zeroFontNoWidth))
       == 7.2)
  ∧ (TextItem.fontSize negativeFontNoWidth <= 0
     ∧ rightEdgeOf negativeFontNoWidth == 17
     ∧ rightEdgeOf (withFontSize 12 negativeFontNoWidth) == 27.2
     ∧ GapInfo.fontSize
         <$> findDominantColumnGap
               [ TaggedEntry.mk negativeFontNoWidth 0;
                 TaggedEntry.mk (makeItem "C" 100 100 10) 1 ]
       = Some (-5)
     ∧ Walk.lastFontSize (walkInit negativeFontNoWidth) == -5).
Proof. split_and!; by vm_compute. Qed.

(** C7, amended.  Line clustering treats a font size [<= 0] as 12.  The
    column detector treats a font size of 0 as 12 in its estimate of the
    right edge of a fragment without width, in gap qualification, in the
    tolerance and in bridging: its results are the same on a page and on
    the page with every font size 0 replaced by 12.  The walk works with
    the font size in force: when it starts, the font size of the first
    fragment of the order, or 12 if that is 0; after a fragment of font
    size 0, the font size in force before it; after any other fragment,
    the font size of that fragment.  Between two fragments that it emits
    one after the other, the line break, paragraph break and space
    thresholds are those of the font size in force at the first, and the
    width of a first fragment without width is estimated as
    [text.length * (font size in force) * 0.6]. *)
Theorem font_size_defaults :
  (∀ e, TextItem.fontSize (item e) <= 0 → clusterThreshold e = 12 * 0.5)
  ∧ (∀ it, rightEdgeOf (zeroFontTo12 it) = rightEdgeOf it)
  ∧ (∀ line,
       findDominantColumnGap (zeroFontTo12Entry <$> line)
       = findDominantColumnGap line)
  ∧ (∀ lines,
       detectColumnRegions (zeroFontTo12Lines lines)
       = detectColumnRegions lines)
  ∧ (∀ first,
       TextItem.fontSize first == 0 → Walk.lastFontSize (walkInit first) = 12)
  ∧ (∀ w it,
       TextItem.fontSize it == 0 →
       Walk.lastFontSize (advance w it) = Walk.lastFontSize w)
  ∧ (∀ first sorted,
       (TextItem.fontSize first == 0 → startFont (first :: sorted) = 12)
       ∧ (¬ TextItem.fontSize first == 0 →
          startFont (first :: sorted) = TextItem.fontSize first))
  ∧ (∀ start done it,
       (TextItem.fontSize it == 0 →
        fontInForce start (done ++ [it]) = fontInForce start done)
       ∧ (¬ TextItem.fontSize it == 0 →
          fontInForce start (done ++ [it]) = TextItem.fontSize it))
  ∧ (∀ links first part log prev,
       last (emitted part) = Some prev →
       let w :=
         (foldl (walkStep links recorder) (walkInit first, log) part).1 in
       let F := fontInForce (startFont (first :: part)) (emitted part) in
       Walk.lastFontSize w = F
       ∧ Walk.lastWidth w
         = (if Qeq_bool (TextItem.width prev) 0
            then Js.len (TextItem.text prev) * F * 0.6
            else TextItem.width prev))
  ∧ (∀ items links sorted pre prev it post,
       sortTextItems items = Some sorted →
       emitted sorted = pre ++ prev :: it :: post →
       let F := fontInForce (startFont sorted) (pre ++ [prev]) in
       let yDelta := Qabs (TextItem.y it - TextItem.y prev) in
       let lastWidth :=
         if Qeq_bool (TextItem.width prev) 0
         then Js.len (TextItem.text prev) * F * 0.6
         else TextItem.width prev in
       let xGap := TextItem.x it - (TextItem.x prev + lastWidth) in
       let posGap := TextItem.x it - TextItem.x prev in
       ∃ before sep after,
         walkEvents items links
         = Some (before
                 ++ ItemEvent prev (findLinkForItem prev links)
                    :: sep
                    ++ ItemEvent it (findLinkForItem it links) :: after)
         ∧ itemsOf before = pre
         ∧ ((∃ p, sep = [LineBreakEvent it p]) ↔ F * 0.5 < yDelta)
         ∧ (sep = [LineBreakEvent it true]
            ↔ F * 0.5 < yDelta ∧ F * 1.8 < yDelta)
         ∧ (sep = [SpaceEvent]
            ↔ yDelta <= F * 0.5
              ∧ (xGap < - F * 2
                 ∨ shouldInsertSpace xGap posGap
                     (Js.len (TextItem.text prev)) F
                     (Js.gtb (TextItem.width prev) 0) = true))).
Proof.
  split_and!.
  - intros e Hle. unfold clusterThreshold.
    by rewrite (proj2 (gtb_le _ _) Hle).
  - intros it. apply rightEdgeOf_same, zeroFontTo12_geometry.
  - apply findDominantColumnGap_map, zeroFontTo12Entry_geometry.
  - apply detectColumnRegions_map, zeroFontTo12Entry_geometry.
  - intros first Hz. simpl. unfold Js.or.
    by rewrite (proj2 (Qeq_bool_iff _ _) Hz).
  - intros w it Hz. simpl. unfold Js.or.
    by rewrite (proj2 (Qeq_bool_iff _ _) Hz).
  - intros first sorted. unfold startFont, Js.or. cbn [head]. split.
    + intros Hz. by rewrite (proj2 (Qeq_bool_iff _ _) Hz).
    + intros Hnz. destruct (Qeq_bool _ 0) eqn:H0; [|done].
      by apply Qeq_bool_iff in H0.
  - intros start done it. split.
    + intros Hz. rewrite fontInForce_snoc. unfold Js.or.
      by rewrite (proj2 (Qeq_bool_iff _ _) Hz).
    + apply fontInForce_own.
  - intros links first part log prev Hlast w F.
    destruct (walk_fold links part (walkInit first)
                (startFont (first :: part)) None log) as (w' & Hfold & Hat);
      [done|].
    subst w. rewrite Hfold. cbn [fst].
    rewrite Hlast in Hat. cbn [from_option WalkAt] in Hat. by subst w'.
  - intros items links sorted pre prev it post Hsort Hem F yDelta lastWidth
      xGap posGap.
    destruct (walkEvents_pair items links sorted pre prev it post Hsort Hem)
      as (before & after & Hlog & Hbefore).
    exists before, (separator F prev it), after.
    split; [done|]. split; [done|]. apply separator_rule.
Qed.

(** The fragment of font size 0 of [inheritedFontPage], and the page. *)
Lemma font_size_defaults_witness :
  let it := TextItem.mk (Js.str "B") 20 100 0 (Js.str "Helvetica") 20 None in
  TextItem.fontSize it <= 0 ∧ TextItem.fontSize it == 0
  ∧ clusterThreshold (TaggedEntry.mk it 1) = 12 * 0.5
  ∧ Walk.lastFontSize (walkInit it) = 12
  ∧ Walk.lastFontSize (advance afterFirstOfInheritedFontPage it)
    = Walk.lastFontSize afterFirstOfInheritedFontPage
  ∧ startFont [it] = 12
  ∧ fontInForce 30 ([] ++ [it]) = fontInForce 30 []
  ∧ sortTextItems inheritedFontPage = Some inheritedFontPage
  ∧ Walk.lastFontSize
      (foldl (walkStep [] recorder)
         (walkInit (TextItem.mk (Js.str "A") 0 100 30 (Js.str "Helvetica")
                      20 None), [])
         (take 2 inheritedFontPage)).1
    = 30
  ∧ ∃ before sep after,
      walkEvents inheritedFontPage []
      = Some (before
              ++ ItemEvent it None
                 :: sep
                 ++ ItemEvent
                      (TextItem.mk (Js.str "C") 0 90 12 (Js.str "Helvetica")
                         20 None) None
                    :: after)
      ∧ ¬ ∃ p,
            sep
            = [ LineBreakEvent
                  (TextItem.mk (Js.str "C") 0 90 12 (Js.str "Helvetica") 20
                     None) p ].
Proof.
  intros it.
  assert (TextItem.fontSize it <= 0) as Hle by (by vm_compute).
  assert (TextItem.fontSize it == 0) as Hz by reflexivity.
  assert (sortTextItems inheritedFontPage = Some inheritedFontPage) as Hsort
    by (by vm_compute).
  destruct font_size_defaults
    as (Hcluster & _ & _ & _ & Hinit & Hadvance & Hstart & Hforce & Hstate
        & Hpair).
  split_and!; [done|done| | | | | |done| |].
  - by apply (Hcluster (TaggedEntry.mk it 1)).
  - by apply Hinit.
  - by apply Hadvance.
  - by apply (Hstart it []).
  - by apply (Hforce 30 [] it).
  - destruct (Hstate [] (TextItem.mk (Js.str "A") 0 100 30
                           (Js.str "Helvetica") 20 None)
                (take 2 inheritedFontPage) [] it eq_refl) as [-> _].
    by vm_compute.
  - destruct (Hpair inheritedFontPage [] inheritedFontPage
                [TextItem.mk (Js.str "A") 0 100 30 (Js.str "Helvetica") 20
                   None]
                it
                (TextItem.mk (Js.str "C") 0 90 12 (Js.str "Helvetica") 20
                   None)
                [] Hsort eq_refl)
      as (before & sep & after & Hlog & _ & Hbreak & _).
    exists before, sep, after. split; [done|].
    rewrite Hbreak. by vm_compute.
Defined.

(** ** Sorting by a key: order, stability, uniqueness

    A comparator [cmp] sorts by the key [key] when [cmp a b <= 0] says
    [key a <= key b]; phase 1 sorts by [- y], phase 3 (without text
    objects) by [x]. *)

Section SortByKey.

Context {A : Type} (cmp : A → A → Q) (key : A → Q).
Hypothesis cmp_key : ∀ a b, Qle_bool (cmp a b) 0 = true ↔ key a <= key b.

Lemma cmp_key_false a b : Qle_bool (cmp a b) 0 = false ↔ key b < key a.
Proof.
  rewrite <- not_true_iff_false, cmp_key.
  split; [apply Qnot_le_lt | apply Qlt_not_le].
Qed.

Lemma sort_by_key_sorted l :
  StronglySorted (λ a b, key a <= key b) (Js.sort cmp l).
Proof.
  apply sort_sorted.
  - intros a b. apply cmp_key.
  - intros a b Hab. apply cmp_key_false in Hab. lra.
  - intros a b c ? ?. simpl in *. lra.
Qed.

(** A sorted array is left as it is. *)
Lemma sort_insert_least a l :
  Forall (λ b, key a <= key b) l → Js.sort_insert cmp a l = a :: l.
Proof.
  destruct 1 as [|b l Hb _]; [done|]. simpl.
  by rewrite (proj2 (cmp_key a b) Hb).
Qed.

Lemma sort_of_sorted l :
  StronglySorted (λ a b, key a <= key b) l → Js.sort cmp l = l.
Proof.
  induction 1 as [|a l Hl IH Ha]; simpl; [done|].
  rewrite IH. by apply sort_insert_least.
Qed.

(** Insertions of two elements with different keys commute. *)
Lemma sort_insert_comm a b l :
  key a < key b →
  Js.sort_insert cmp a (Js.sort_insert cmp b l)
  = Js.sort_insert cmp b (Js.sort_insert cmp a l).
Proof.
  intros Hab.
  assert (Qle_bool (cmp a b) 0 = true) as Hab1 by (apply cmp_key; lra).
  assert (Qle_bool (cmp b a) 0 = false) as Hab2 by (by apply cmp_key_false).
  induction l as [|c l IH]; simpl.
  { by rewrite Hab1, Hab2. }
  destruct (Qle_bool (cmp b c) 0) eqn:Hbc;
    destruct (Qle_bool (cmp a c) 0) eqn:Hac; simpl;
    rewrite ?Hab1, ?Hab2, ?Hbc, ?Hac; try done.
  - apply cmp_key in Hbc. apply cmp_key_false in Hac. lra.
  - by rewrite IH.
Qed.

Lemma sort_insert_comm_untied a b l :
  ¬ key a == key b →
  Js.sort_insert cmp a (Js.sort_insert cmp b l)
  = Js.sort_insert cmp b (Js.sort_insert cmp a l).
Proof.
  intros Hne. destruct (Q_dec (key a) (key b)) as [[Hlt|Hgt]|Heq]; [| |done].
  - by apply sort_insert_comm.
  - symmetry. by apply sort_insert_comm.
Qed.

Lemma sort_insert_foldr_comm a l2 s :
  Untied key [a] l2 →
  Js.sort_insert cmp a (foldr (Js.sort_insert cmp) s l2)
  = foldr (Js.sort_insert cmp) (Js.sort_insert cmp a s) l2.
Proof.
  intros Hun. induction l2 as [|b l2 IH]; simpl; [done|].
  rewrite sort_insert_comm_untied.
  - rewrite IH; [done|]. intros a' b' Ha' Hb'. apply Hun; [done|].
    by apply list_elem_of_further.
  - apply Hun; [apply list_elem_of_here | apply list_elem_of_here].
Qed.

Lemma sort_foldr_comm l1 l2 s :
  Untied key l1 l2 →
  foldr (Js.sort_insert cmp) (foldr (Js.sort_insert cmp) s l2) l1
  = foldr (Js.sort_insert cmp) (foldr (Js.sort_insert cmp) s l1) l2.
Proof.
  intros Hun. induction l1 as [|a l1 IH]; simpl; [done|].
  rewrite IH.
  - apply sort_insert_foldr_comm. intros a' b' Ha' Hb'.
    apply list_elem_of_singleton in Ha' as ->.
    apply Hun; [apply list_elem_of_here | done].
  - intros a' b' Ha' Hb'. apply Hun; [by apply list_elem_of_further | done].
Qed.

(** Two adjacent blocks without a common key may change places before
    the sort. *)
Lemma sort_swap_blocks pre l1 l2 post :
  Untied key l1 l2 →
  Js.sort cmp (pre ++ l1 ++ l2 ++ post) = Js.sort cmp (pre ++ l2 ++ l1 ++ post).
Proof.
  intros Hun. unfold Js.sort. rewrite !foldr_app.
  f_equal. by apply sort_foldr_comm.
Qed.

(** Sorting blocks that are in order one after the other sorts each. *)
Lemma sort_insert_app a l1 l2 :
  Forall (λ b, key a <= key b) l2 →
  Js.sort_insert cmp a (l1 ++ l2) = Js.sort_insert cmp a l1 ++ l2.
Proof.
  intros Hl2. induction l1 as [|c l1 IH]; simpl.
  { by apply sort_insert_least. }
  destruct (Qle_bool (cmp a c) 0); [done|]. by rewrite IH.
Qed.

Lemma sort_app_in_order l1 l2 :
  (∀ a b, a ∈ l1 → b ∈ l2 → key a <= key b) →
  Js.sort cmp (l1 ++ l2) = Js.sort cmp l1 ++ Js.sort cmp l2.
Proof.
  intros Hlt. induction l1 as [|a l1 IH]; simpl; [done|].
  fold (Js.sort cmp (l1 ++ l2)) (Js.sort cmp l1).
  rewrite IH.
  - apply sort_insert_app. apply Forall_forall. intros b Hb.
    apply Hlt; [apply list_elem_of_here|].
    by rewrite sort_perm in Hb.
  - intros a' b ? ?. apply Hlt; [by apply list_elem_of_further | done].
Qed.

(** Stability: the sorted array is ordered by key, and elements with the
    same key keep the order they had. *)
Lemma sort_insert_stable a l s :
  (∀ d, d ∈ s → d ∈ l) →
  StronglySorted (StableOrder key l) s →
  StronglySorted (StableOrder key (a :: l)) (Js.sort_insert cmp a s).
Proof.
  assert (∀ c d, StableOrder key l c d → StableOrder key (a :: l) c d)
    as Hmono.
  { intros c d [Hle Htie]. split; [done|].
    intros Hge. by apply sublist_cons, Htie. }
  intros Hin Hs. revert Hin.
  induction Hs as [|c s Hs IH Hc]; intros Hin; simpl.
  { repeat constructor. }
  assert (Forall (StableOrder key (a :: l) c) s) as Hc'.
  { eapply Forall_impl; [exact Hc|]. intros d. apply Hmono. }
  destruct (Qle_bool (cmp a c) 0) eqn:Hac.
  - apply cmp_key in Hac.
    constructor.
    + constructor; [|done].
      eapply (StronglySorted_ind (λ s, StronglySorted _ s)); [| |exact Hs].
      * constructor.
      * intros e s' _ Hs' He. constructor; [done|].
        eapply Forall_impl; [exact He|]. intros d. apply Hmono.
    + apply Forall_forall. intros d Hd. split.
      * apply elem_of_cons in Hd as [->|Hd]; [done|].
        rewrite Forall_forall in Hc. destruct (Hc d Hd) as [Hcd _]. lra.
      * intros _. apply sublist_skip, singleton_sublist_l. by apply Hin.
  - apply cmp_key_false in Hac.
    constructor.
    + apply IH. intros d Hd. apply Hin. by apply list_elem_of_further.
    + rewrite sort_insert_perm. constructor; [|done].
      split; [lra|]. intros Hge. lra.
Qed.

Lemma sort_stable l : StronglySorted (StableOrder key l) (Js.sort cmp l).
Proof.
  induction l as [|a l IH]; simpl; [constructor|].
  apply sort_insert_stable; [|done].
  intros d Hd. by rewrite sort_perm in Hd.
Qed.

(** Sorting a permutation of an array gives the same keys, place by
    place. *)
Lemma sort_insert_keys a s s' :
  Forall2 (λ c d, key c == key d) s s' →
  Forall2 (λ c d, key c == key d)
    (Js.sort_insert cmp a s) (Js.sort_insert cmp a s').
Proof.
  induction 1 as [|c c' s s' Hc Hs IH]; simpl.
  { by repeat constructor. }
  destruct (Qle_bool (cmp a c) 0) eqn:Hac.
  - apply cmp_key in Hac.
    rewrite (proj2 (cmp_key a c')) by lra.
    by repeat constructor.
  - apply cmp_key_false in Hac.
    rewrite (proj2 (cmp_key_false a c')) by lra.
    by constructor.
Qed.

Lemma sort_insert_tied_keys a b s :
  key a == key b →
  Forall2 (λ c d, key c == key d)
    (Js.sort_insert cmp b (Js.sort_insert cmp a s))
    (Js.sort_insert cmp a (Js.sort_insert cmp b s)).
Proof.
  intros Hab.
  assert (Qle_bool (cmp a b) 0 = true) as Hab1 by (apply cmp_key; lra).
  assert (Qle_bool (cmp b a) 0 = true) as Hab2 by (apply cmp_key; lra).
  assert (∀ l : list A, Forall2 (λ c d, key c == key d) l l) as Hrefl.
  { induction l; by constructor. }
  induction s as [|c s IH]; cbn [Js.sort_insert].
  { rewrite Hab1, Hab2. repeat constructor; lra. }
  destruct (Qle_bool (cmp a c) 0) eqn:Hac.
  - apply cmp_key in Hac.
    assert (Qle_bool (cmp b c) 0 = true) as -> by (apply cmp_key; lra).
    cbn [Js.sort_insert]. rewrite Hab1, Hab2.
    repeat constructor; try lra. apply Hrefl.
  - apply cmp_key_false in Hac.
    assert (Qle_bool (cmp b c) 0 = false) as Hbc
      by (apply cmp_key_false; lra).
    rewrite Hbc. cbn [Js.sort_insert].
    rewrite Hbc, (proj2 (cmp_key_false a c)) by done.
    by constructor.
Qed.

Lemma sort_perm_keys l l' :
  l ≡ₚ l' →
  Forall2 (λ c d, key c == key d) (Js.sort cmp l) (Js.sort cmp l').
Proof.
  induction 1 as [|a l l' _ IH|a b l|l1 l2 l3 _ IH1 _ IH2]; simpl.
  - constructor.
  - by apply sort_insert_keys.
  - fold (Js.sort cmp l).
    destruct (Q_dec (key a) (key b)) as [[Hlt|Hgt]|Heq].
    + rewrite (sort_insert_comm a b) by done.
      induction (Js.sort_insert _ _ _); by constructor.
    + rewrite (sort_insert_comm b a) by done.
      induction (Js.sort_insert _ _ _); by constructor.
    + by apply sort_insert_tied_keys.
  - eapply Forall2_trans; [|exact IH1|exact IH2].
    intros c d e ? ?. simpl in *. lra.
Qed.

End SortByKey.

(** A comparator that does not see what a map changes. *)
Lemma sort_insert_fmap {A B} (cmp : A → A → Q) (cmp' : B → B → Q)
    (f : A → B) a s :
  (∀ a b, cmp' (f a) (f b) = cmp a b) →
  Js.sort_insert cmp' (f a) (f <$> s) = f <$> Js.sort_insert cmp a s.
Proof.
  intros Hcmp. induction s as [|c s IH]; [done|].
  cbn [fmap list_fmap Js.sort_insert]. change (list_fmap _ _ f s) with (f <$> s).
  rewrite Hcmp. destruct (Qle_bool (cmp a c) 0); [done|].
  cbn [fmap list_fmap]. change (list_fmap _ _ f ?l) with (f <$> l).
  by rewrite IH.
Qed.

Lemma sort_fmap {A B} (cmp : A → A → Q) (cmp' : B → B → Q) (f : A → B) l :
  (∀ a b, cmp' (f a) (f b) = cmp a b) →
  Js.sort cmp' (f <$> l) = f <$> Js.sort cmp l.
Proof.
  intros Hcmp. induction l as [|a l IH]; [done|].
  cbn [fmap list_fmap Js.sort foldr]. change (list_fmap _ _ f l) with (f <$> l).
  fold (Js.sort cmp l) (Js.sort cmp' (f <$> l)).
  rewrite IH. by apply sort_insert_fmap.
Qed.

Lemma sort_insert_ext {A} (cmp cmp' : A → A → Q) a s :
  (∀ b, b ∈ s → cmp a b = cmp' a b) →
  Js.sort_insert cmp a s = Js.sort_insert cmp' a s.
Proof.
  induction s as [|c s IH]; intros Hcmp; simpl; [done|].
  rewrite <- (Hcmp c) by apply list_elem_of_here.
  rewrite IH; [done|]. intros b Hb. apply Hcmp. by apply list_elem_of_further.
Qed.

Lemma sort_ext {A} (cmp cmp' : A → A → Q) l :
  (∀ a b, a ∈ l → b ∈ l → cmp a b = cmp' a b) →
  Js.sort cmp l = Js.sort cmp' l.
Proof.
  induction l as [|a l IH]; intros Hcmp; simpl; [done|].
  fold (Js.sort cmp l) (Js.sort cmp' l).
  rewrite <- IH.
  - apply sort_insert_ext. intros b Hb. rewrite sort_perm in Hb.
    apply Hcmp; [apply list_elem_of_here | by apply list_elem_of_further].
  - intros b c ? ?. apply Hcmp; by apply list_elem_of_further.
Qed.

(** ** Pairs in order *)

Lemma StronglySorted_pair {A} (R : A → A → Prop) m a b :
  StronglySorted R m → [a; b] `sublist_of` m → R a b.
Proof.
  induction 1 as [|c m Hm IH Hc]; intros Hsub.
  { by apply sublist_nil_r in Hsub. }
  apply sublist_cons_r in Hsub as [Hsub|(l' & [= <- <-] & Hsub)]; [auto|].
  apply singleton_sublist_l in Hsub.
  rewrite Forall_forall in Hc. by apply Hc.
Qed.

Lemma pairs_StronglySorted {A} (R : A → A → Prop) m :
  (∀ a b, [a; b] `sublist_of` m → R a b) → StronglySorted R m.
Proof.
  induction m as [|c m IH]; intros Hpairs; constructor.
  - apply IH. intros a b Hsub. by apply Hpairs, sublist_cons.
  - apply Forall_forall. intros d Hd.
    by apply Hpairs, sublist_skip, singleton_sublist_l.
Qed.

Lemma StronglySorted_mono {A} (R R' : A → A → Prop) m :
  (∀ a b, R a b → R' a b) → StronglySorted R m → StronglySorted R' m.
Proof.
  intros Himpl Hm. apply pairs_StronglySorted. intros a b Hsub.
  apply Himpl. by apply (StronglySorted_pair R m).
Qed.

Lemma sublist_pair_NoDup {A} (m : list A) a b :
  NoDup m → [a; b] `sublist_of` m → [b; a] `sublist_of` m → False.
Proof.
  induction 1 as [|c m Hc Hm IH]; intros Hab Hba.
  { by apply sublist_nil_r in Hab. }
  apply sublist_cons_r in Hab as [Hab|(l1 & [= <- <-] & Hab)];
    apply sublist_cons_r in Hba as [Hba|(l2 & [= <- <-] & Hba)].
  - auto.
  - apply Hc. apply (elem_of_sublist [a; b]); [|done].
    apply list_elem_of_further, list_elem_of_here.
  - apply Hc. apply (elem_of_sublist [b; a]); [|done].
    apply list_elem_of_further, list_elem_of_here.
  - apply Hc. by apply singleton_sublist_l.
Qed.

(** ** Sorting by one key, then another, then the first again *)

Section SortTwice.

Context {A : Type} (cmp1 cmp2 : A → A → Q) (key1 key2 : A → Q).
Hypothesis cmp1_key : ∀ a b, Qle_bool (cmp1 a b) 0 = true ↔ key1 a <= key1 b.
Hypothesis cmp2_key : ∀ a b, Qle_bool (cmp2 a b) 0 = true ↔ key2 a <= key2 b.

Lemma sort_sort_sort l :
  NoDup l → StronglySorted (λ a b, key2 a <= key2 b) l →
  Js.sort cmp1 (Js.sort cmp2 (Js.sort cmp1 l)) = Js.sort cmp1 l.
Proof.
  intros Hnodup Hsorted.
  set (m := Js.sort cmp1 l).
  apply (StronglySorted_unique_strong
           (λ a b, key1 a <= key1 b
                   ∧ (key1 b <= key1 a →
                      key2 a <= key2 b
                      ∧ (key2 b <= key2 a → [a; b] `sublist_of` m)))).
  - intros a b _ _ [Hle Hab] [Hba Hba']. exfalso.
    destruct (Hab Hba) as [Hab2 Hab3].
    destruct (Hba' Hle) as [Hba2 Hba3].
    eapply (sublist_pair_NoDup m a b); [|auto..].
    unfold m. by rewrite sort_perm.
  - eapply StronglySorted_mono; [|apply (sort_stable cmp1 key1 cmp1_key)].
    intros a b [Hle Htie]. split; [done|]. intros Hge.
    apply (StronglySorted_pair _ _ a b (sort_stable cmp2 key2 cmp2_key m)).
    by apply Htie.
  - apply pairs_StronglySorted. intros a b Hsub.
    destruct (StronglySorted_pair _ _ a b
                (sort_stable cmp1 key1 cmp1_key l) Hsub) as [Hle Htie].
    split; [done|]. intros Hge. split; [|done].
    by apply (StronglySorted_pair _ l a b Hsorted), Htie.
  - by rewrite !sort_perm.
Qed.

End SortTwice.

(** ** The phases under a change of indices *)

Lemma filter_fmap_same {A} (p : A → bool) (g : A → A) l :
  (∀ a, p (g a) = p a) → List.filter p (g <$> l) = g <$> List.filter p l.
Proof.
  intros Hp. induction l as [|a l IH]; [done|].
  cbn [fmap list_fmap List.filter]. change (list_fmap _ _ g l) with (g <$> l).
  rewrite Hp, IH. by destruct (p a).
Qed.

Section ColumnFirstMap.

Variable g : TaggedEntry → TaggedEntry.
Hypothesis g_geometry : ∀ e, SameGeometry (item (g e)) (item e).

Lemma leftPart_map region line :
  leftPart region (g <$> line) = g <$> leftPart region line.
Proof.
  unfold leftPart.
  rewrite <- !splitXOf_own_gap, (splitXOf_map g g_geometry).
  apply filter_fmap_same. intros e. by destruct (g_geometry e) as (_ & -> & _).
Qed.

Lemma rightPart_map region line :
  rightPart region (g <$> line) = g <$> rightPart region line.
Proof.
  unfold rightPart.
  rewrite <- !splitXOf_own_gap, (splitXOf_map g g_geometry).
  apply filter_fmap_same. intros e. by destruct (g_geometry e) as (_ & -> & _).
Qed.

Lemma nonEmpty_mapLines ls : nonEmpty (mapLines g ls) = mapLines g (nonEmpty ls).
Proof.
  unfold nonEmpty, mapLines.
  induction ls as [|l ls IH]; [done|].
  cbn [fmap list_fmap List.filter]. change (list_fmap _ _ ?f ?l) with (f <$> l).
  rewrite IH, length_fmap. by case_bool_decide.
Qed.

Lemma slice_mapLines lo hi ls :
  Js.slice lo hi (mapLines g ls) = mapLines g (Js.slice lo hi ls).
Proof. unfold Js.slice, mapLines. by rewrite fmap_take, fmap_drop. Qed.

Lemma columnFirst_map lines lineIdx regions :
  columnFirst (mapLines g lines) lineIdx regions
  = mapLines g (columnFirst lines lineIdx regions).
Proof.
  revert lineIdx. induction regions as [|r regions IH]; intros lineIdx; simpl.
  { unfold mapLines. by rewrite fmap_drop. }
  rewrite IH, !slice_mapLines.
  assert (∀ ls, leftPart r <$> mapLines g ls = mapLines g (leftPart r <$> ls))
    as Hleft.
  { intros ls. unfold mapLines. rewrite <- !list_fmap_compose.
    apply list_fmap_ext. intros _ l _. apply leftPart_map. }
  assert (∀ ls, rightPart r <$> mapLines g ls
                = mapLines g (rightPart r <$> ls)) as Hright.
  { intros ls. unfold mapLines. rewrite <- !list_fmap_compose.
    apply list_fmap_ext. intros _ l _. apply rightPart_map. }
  rewrite Hleft, Hright, !nonEmpty_mapLines.
  unfold mapLines. by rewrite !fmap_app.
Qed.

Lemma concat_mapLines ls : concat (mapLines g ls) = g <$> concat ls.
Proof.
  unfold mapLines. induction ls as [|l ls IH]; [done|].
  cbn [fmap list_fmap concat]. change (list_fmap _ _ ?f ?l) with (f <$> l).
  by rewrite IH, fmap_app.
Qed.

End ColumnFirstMap.

Lemma item_retag f (l : list TaggedEntry) :
  item <$> (retag f <$> l) = item <$> l.
Proof. rewrite <- list_fmap_compose. by apply list_fmap_ext. Qed.

Lemma sort_compareY_retag f l :
  Js.sort compareY (retag f <$> l) = retag f <$> Js.sort compareY l.
Proof. by apply sort_fmap. Qed.

Lemma groupFrom_retag f prev rest :
  groupFrom clusterThreshold (retag f prev) (retag f <$> rest)
  = mapLines (retag f) (groupFrom clusterThreshold prev rest).
Proof.
  revert prev. induction rest as [|e rest IH]; intros prev; [done|].
  cbn [fmap list_fmap groupFrom]. change (list_fmap _ _ ?f ?l) with (f <$> l).
  rewrite IH.
  change (farBelow clusterThreshold (retag f prev) (retag f e))
    with (farBelow clusterThreshold prev e).
  destruct (farBelow clusterThreshold prev e); [done|].
  by destruct (groupFrom clusterThreshold e rest).
Qed.

(** Without text objects, phase 3 sorts by x. *)
Lemma buildObjMinX_no_object line :
  Forall (λ e, NoTextObject (item e)) line → buildObjMinX line = ∅.
Proof.
  intros Hno. unfold buildObjMinX. generalize (∅ : gmap N Q).
  induction Hno as [|e line He _ IH]; intros m; [done|].
  cbn [foldl]. unfold objMinXStep at 2. rewrite He. apply IH.
Qed.

Lemma compareInLine_no_object objMinX a b :
  NoTextObject (item a) → compareInLine objMinX a b = compareX a b.
Proof. intros Ha. unfold compareInLine. by rewrite Ha. Qed.

Lemma sortLine_no_object line :
  Forall (λ e, NoTextObject (item e)) line →
  sortLine line = Js.sort compareX line.
Proof.
  intros Hno. unfold sortLine. apply sort_ext. intros a b Ha _.
  apply compareInLine_no_object.
  rewrite Forall_forall in Hno. by apply Hno.
Qed.

Lemma sort_compareX_retag f l :
  Js.sort compareX (retag f <$> l) = retag f <$> Js.sort compareX l.
Proof. by apply sort_fmap. Qed.

Lemma compareY_keyY a b :
  Qle_bool (compareY a b) 0 = true ↔ keyY a <= keyY b.
Proof. rewrite compareY_le. unfold keyY. split; intros; lra. Qed.

Lemma compareX_keyX a b :
  Qle_bool (compareX a b) 0 = true ↔ keyX a <= keyX b.
Proof.
  unfold compareX, keyX. rewrite Qle_bool_iff, !or_zero. split; intros; lra.
Qed.

(** ** The lines of phase 2 *)

Lemma clusterThreshold_pos e : 0 < clusterThreshold e.
Proof.
  unfold clusterThreshold.
  destruct (Js.gtb (TextItem.fontSize (item e)) 0) eqn:Hf; [|reflexivity].
  apply gtb_lt in Hf. lra.
Qed.

Lemma farBelow_above prev e :
  farBelow clusterThreshold prev e = true → keyY prev <= keyY e →
  keyY prev < keyY e.
Proof.
  unfold farBelow, keyY. rewrite gtb_lt. intros Hfar Hle.
  pose proof (clusterThreshold_pos prev).
  rewrite Qabs_neg in Hfar by lra. lra.
Qed.

Lemma elem_of_concat {A} (x : A) (ls : list (list A)) :
  x ∈ concat ls ↔ ∃ l, x ∈ l ∧ l ∈ ls.
Proof.
  induction ls as [|l ls IH]; simpl.
  { split; [by intros ?%elem_of_nil | by intros (? & _ & ?%elem_of_nil)]. }
  rewrite elem_of_app, IH. split.
  - intros [Hx|(l' & Hx & Hl')].
    + exists l. split; [done | apply list_elem_of_here].
    + exists l'. split; [done | by apply list_elem_of_further].
  - intros (l' & Hx & Hl'). apply elem_of_cons in Hl' as [->|Hl']; eauto.
Qed.

Lemma elem_of_groupFrom thr prev rest l a :
  l ∈ groupFrom thr prev rest → a ∈ l → a ∈ prev :: rest.
Proof.
  intros Hl Ha. rewrite <- (groupFrom_concat thr prev rest).
  apply elem_of_concat. eauto.
Qed.

(** The lines of a page go down the page: every line lies above the
    lines after it. *)
Lemma groupFrom_above prev rest :
  StronglySorted (λ a b, keyY a <= keyY b) (prev :: rest) →
  StronglySorted Above (groupFrom clusterThreshold prev rest).
Proof.
  revert prev. induction rest as [|e rest IH]; intros prev Hsorted.
  { repeat constructor. }
  apply StronglySorted_inv in Hsorted as [Hrest Hprev].
  pose proof (IH e Hrest) as IHe.
  assert (∀ l b, l ∈ groupFrom clusterThreshold e rest → b ∈ l →
                 keyY e <= keyY b) as Hhead.
  { intros l b Hl Hb.
    apply (elem_of_groupFrom _ _ _ _ _ Hl) in Hb.
    apply elem_of_cons in Hb as [->|Hb]; [lra|].
    apply StronglySorted_inv in Hrest as [_ He].
    rewrite Forall_forall in He. by apply He. }
  assert (keyY prev <= keyY e) as Hpe.
  { rewrite Forall_forall in Hprev. apply Hprev, list_elem_of_here. }
  cbn [groupFrom].
  destruct (farBelow clusterThreshold prev e) eqn:Hfar.
  - constructor; [done|]. apply Forall_forall. intros l Hl a b Ha Hb.
    apply list_elem_of_singleton in Ha as ->.
    pose proof (farBelow_above _ _ Hfar Hpe).
    pose proof (Hhead l b Hl Hb). lra.
  - pose proof (groupFrom_lines_nonempty clusterThreshold e rest) as Hne.
    destruct (groupFrom clusterThreshold e rest) as [|l ls] eqn:Hg.
    { repeat constructor. }
    apply StronglySorted_inv in IHe as [Hls Hl].
    constructor; [done|].
    rewrite Forall_forall in Hl. apply Forall_forall. intros l' Hl' a b Ha Hb.
    apply elem_of_cons in Ha as [->|Ha]; [|by apply (Hl l' Hl')].
    inversion Hne as [|? ? Hlne _]; subst.
    destruct l as [|a' l]; [done|].
    pose proof (Hl l' Hl' a' b (list_elem_of_here _ _) Hb).
    pose proof (Hhead (a' :: l) a' (list_elem_of_here _ _)
                  (list_elem_of_here _ _)).
    lra.
Qed.

Lemma farBelow_same a a' b b' :
  SameBaseline a a' → SameBaseline b b' →
  farBelow clusterThreshold a b = farBelow clusterThreshold a' b'.
Proof.
  intros [Hya Hta] [Hyb _]. unfold farBelow, Js.gtb. f_equal.
  apply Qleb_comp; [|done]. by rewrite Hya, Hyb.
Qed.

(** Sequences that agree in y and threshold, place by place, are cut into
    lines at the same places. *)
Lemma groupFrom_same_shape prev prev' rest rest' :
  SameBaseline prev prev' → Forall2 SameBaseline rest rest' →
  SameShape (groupFrom clusterThreshold prev rest)
    (groupFrom clusterThreshold prev' rest').
Proof.
  intros Hprev Hrest. revert prev prev' Hprev.
  induction Hrest as [|e e' rest rest' He Hrest IH]; intros prev prev' Hprev.
  { by repeat constructor. }
  cbn [groupFrom]. rewrite (farBelow_same prev prev' e e') by done.
  specialize (IH e e' He).
  destruct (farBelow clusterThreshold prev' e').
  - by constructor.
  - destruct IH as [|l l' ls ls' Hl Hls]; [by repeat constructor|].
    constructor; [|done]. simpl. by rewrite Hl.
Qed.

Lemma concat_same_shape {A} (ls ls' : list (list A)) :
  SameShape ls ls' → concat ls = concat ls' → ls = ls'.
Proof.
  induction 1 as [|l l' ls ls' Hl Hls IH]; [done|].
  simpl. intros Heq.
  apply app_inj_1 in Heq as [-> Heq]; [|done]. by rewrite IH.
Qed.

(** ** Sorting a column-first layout by y *)

Lemma filter_sorted_split {A} (R : A → A → Prop) (p : A → bool) l :
  (∀ a b, R a b → p b = true → p a = true) →
  StronglySorted R l →
  List.filter p l ++ List.filter (λ a, negb (p a)) l = l.
Proof.
  intros Hp. induction 1 as [|a l Hl IH Ha]; simpl; [done|].
  destruct (p a) eqn:Hpa; simpl; [by rewrite IH|].
  assert (List.filter p l = []) as ->; [|simpl].
  { clear IH Hl. induction Ha as [|b l Hb _ IH]; simpl; [done|].
    destruct (p b) eqn:Hpb; [|done].
    by rewrite (Hp a b Hb Hpb) in Hpa. }
  f_equal. clear IH Hl.
  induction Ha as [|b l Hb _ IH]; simpl; [done|].
  destruct (p b) eqn:Hpb; simpl; [|by rewrite IH].
  by rewrite (Hp a b Hb Hpb) in Hpa.
Qed.

(** A line in ascending order of x is its left part followed by its right
    part. *)
Lemma parts_of_sorted_line region line :
  StronglySorted (λ a b, keyX a <= keyX b) line →
  leftPart region line ++ rightPart region line = line.
Proof.
  rewrite rightPart_others.
  apply filter_sorted_split. intros a b Hab. rewrite !ltb_lt.
  unfold keyX in Hab. lra.
Qed.

Lemma elem_of_filter_bool {A} (p : A → bool) l a :
  a ∈ List.filter p l → a ∈ l.
Proof. rewrite !list_elem_of_In, filter_In. tauto. Qed.

#[local] Instance Above_perm : Proper ((≡ₚ) ==> (≡ₚ) ==> iff) Above.
Proof.
  intros l1 l1' H1 l2 l2' H2. unfold Above.
  split; intros Habove a b Ha Hb; apply Habove;
    by rewrite ?H1, ?H2 || rewrite <- ?H1, <- ?H2.
Qed.

Section SortColumnFirst.

Variable region : ColumnRegion.t.

Lemma sort_region_parts ls pre post :
  StronglySorted Above ls →
  Js.sort compareY
    (pre ++ concat (leftPart region <$> ls)
     ++ concat (rightPart region <$> ls) ++ post)
  = Js.sort compareY
      (pre
       ++ concat ((λ l, leftPart region l ++ rightPart region l) <$> ls)
       ++ post).
Proof.
  intros Hls. revert pre.
  induction Hls as [|l ls Hls IH Hl]; intros pre; [done|].
  cbn [fmap list_fmap concat]. change (list_fmap _ _ ?f ?l) with (f <$> l).
  rewrite <- !app_assoc.
  replace (pre ++ leftPart region l ++ concat (leftPart region <$> ls)
           ++ rightPart region l ++ concat (rightPart region <$> ls) ++ post)
    with ((pre ++ leftPart region l) ++ concat (leftPart region <$> ls)
          ++ rightPart region l ++ concat (rightPart region <$> ls) ++ post)
    by (by rewrite <- !app_assoc).
  rewrite (sort_swap_blocks compareY keyY compareY_keyY).
  - rewrite <- !app_assoc.
    replace (pre ++ leftPart region l ++ rightPart region l
             ++ concat (leftPart region <$> ls)
             ++ concat (rightPart region <$> ls) ++ post)
      with ((pre ++ leftPart region l ++ rightPart region l)
            ++ concat (leftPart region <$> ls)
            ++ concat (rightPart region <$> ls) ++ post)
      by (by rewrite <- !app_assoc).
    rewrite IH. by rewrite <- !app_assoc.
  - intros a b Ha Hb.
    apply elem_of_concat in Ha as (l' & Ha & Hl').
    apply list_elem_of_fmap in Hl' as (l0 & -> & Hl0).
    apply elem_of_filter_bool in Ha, Hb.
    rewrite Forall_forall in Hl.
    pose proof (Hl l0 Hl0 b a Hb Ha). lra.
Qed.

End SortColumnFirst.

Lemma StronglySorted_slice {A} (R : A → A → Prop) lo hi l :
  StronglySorted R l → StronglySorted R (Js.slice lo hi l).
Proof.
  intros Hl. unfold Js.slice.
  rewrite <- (take_drop lo l) in Hl. apply StronglySorted_app_1_r in Hl.
  rewrite <- (take_drop (hi - lo) (drop lo l)) in Hl.
  by apply StronglySorted_app_1_l in Hl.
Qed.

Lemma Forall_slice {A} (P : A → Prop) lo hi l :
  Forall P l → Forall P (Js.slice lo hi l).
Proof. intros Hl. unfold Js.slice. by apply Forall_take, Forall_drop. Qed.

Lemma sort_columnFirst lines regions lineIdx pre :
  RegionsWithin (length lines) lineIdx regions →
  StronglySorted Above lines →
  Forall (StronglySorted (λ a b, keyX a <= keyX b)) lines →
  Js.sort compareY (pre ++ concat (columnFirst lines lineIdx regions))
  = Js.sort compareY (pre ++ concat (drop lineIdx lines)).
Proof.
  intros Hwithin Habove Hsorted. revert lineIdx pre Hwithin.
  induction regions as [|r regions IH]; intros lineIdx pre; [done|].
  intros (Hlo & Hse & Hn & Hrest). cbn [columnFirst].
  rewrite !concat_app, !nonEmpty_concat.
  set (inRegion := Js.slice (ColumnRegion.start r) (ColumnRegion.end_ r) lines).
  set (before := concat (Js.slice lineIdx (ColumnRegion.start r) lines)).
  replace (pre ++ before ++ concat (leftPart r <$> inRegion)
           ++ concat (rightPart r <$> inRegion)
           ++ concat (columnFirst lines (ColumnRegion.end_ r) regions))
    with ((pre ++ before ++ concat (leftPart r <$> inRegion)
           ++ concat (rightPart r <$> inRegion))
          ++ concat (columnFirst lines (ColumnRegion.end_ r) regions))
    by (by rewrite <- !app_assoc).
  rewrite (IH _ _ Hrest), <- !app_assoc.
  replace (pre ++ before ++ concat (leftPart r <$> inRegion)
           ++ concat (rightPart r <$> inRegion)
           ++ concat (drop (ColumnRegion.end_ r) lines))
    with ((pre ++ before) ++ concat (leftPart r <$> inRegion)
          ++ concat (rightPart r <$> inRegion)
          ++ concat (drop (ColumnRegion.end_ r) lines))
    by (by rewrite <- !app_assoc).
  rewrite sort_region_parts by (by apply StronglySorted_slice).
  assert ((λ l, leftPart r l ++ rightPart r l) <$> inRegion = inRegion) as ->.
  { rewrite <- (list_fmap_id inRegion) at 2.
    apply Forall_fmap_ext. eapply Forall_impl; [by apply Forall_slice|].
    intros l. apply parts_of_sorted_line. }
  rewrite <- !app_assoc. do 2 f_equal. unfold before, inRegion.
  rewrite <- !concat_app. f_equal.
  rewrite <- (slice_to_end lines (ColumnRegion.end_ r)).
  rewrite <- (slice_app lines (ColumnRegion.start r)) by lia.
  rewrite <- (slice_app lines lineIdx) by lia.
  apply slice_to_end.
Qed.

Lemma sort_concat_lines lines :
  StronglySorted Above lines →
  Js.sort compareY (concat lines) = concat (Js.sort compareY <$> lines).
Proof.
  induction 1 as [|l ls Hls IH Hl]; [done|].
  cbn [fmap list_fmap concat]. change (list_fmap _ _ ?f ?l) with (f <$> l).
  rewrite <- IH. apply (sort_app_in_order compareY keyY compareY_keyY).
  intros a b Ha Hb. apply elem_of_concat in Hb as (l' & Hb & Hl').
  rewrite Forall_forall in Hl. apply Qlt_le_weak. by apply (Hl l' Hl').
Qed.

(** ** Tagged entries *)

Lemma retag_tagItems (entries : list TaggedEntry) :
  retag (indexAt entries) <$> tagItems (item <$> entries) = entries.
Proof.
  apply list_eq. intros k. unfold tagItems.
  rewrite list_lookup_fmap, list_lookup_imap, list_lookup_fmap.
  unfold indexAt.
  destruct (entries !! k) as [[it idx]|] eqn:Hk; [|done].
  simpl. unfold retag. simpl. by rewrite Hk.
Qed.

Lemma NoDup_tagItems items : NoDup (tagItems items).
Proof.
  apply (NoDup_fmap_1 TaggedEntry.i). unfold tagItems.
  rewrite fmap_imap.
  rewrite (imap_ext _ (λ j _, id j)) by done.
  rewrite (imap_seq_0 items id), list_fmap_id. apply NoDup_seq.
Qed.

Lemma elem_of_tagItems items e : e ∈ tagItems items → item e ∈ items.
Proof.
  intros He. rewrite <- (tagItems_items items).
  apply list_elem_of_fmap. eauto.
Qed.

Lemma NoDup_concat_elem {A} (ls : list (list A)) l :
  NoDup (concat ls) → l ∈ ls → NoDup l.
Proof.
  induction ls as [|l0 ls IH]; simpl; [by intros _ ?%elem_of_nil|].
  intros Hnd Hl. apply NoDup_app in Hnd as (Hl0 & _ & Hls).
  apply elem_of_cons in Hl as [->|Hl]; auto.
Qed.

Lemma StronglySorted_concat_elem {A} (R : A → A → Prop) (ls : list (list A)) l :
  StronglySorted R (concat ls) → l ∈ ls → StronglySorted R l.
Proof.
  induction ls as [|l0 ls IH]; simpl; [by intros _ ?%elem_of_nil|].
  intros Hs Hl. apply StronglySorted_app in Hs as (_ & Hl0 & Hls).
  apply elem_of_cons in Hl as [->|Hl]; auto.
Qed.

Lemma Forall2_elem {A B} (R : A → B → Prop) l l' :
  Forall2 R l l' → Forall2 (λ a b, R a b ∧ a ∈ l ∧ b ∈ l') l l'.
Proof.
  induction 1 as [|a b l l' Hab Hl IH]; constructor.
  - split_and!; [done | apply list_elem_of_here..].
  - eapply Forall2_impl; [exact IH|].
    intros c d (? & ? & ?). split_and!; [done|by apply list_elem_of_further..].
Qed.

Lemma clusterThreshold_same a b :
  TextItem.fontSize (item a) == TextItem.fontSize (item b) →
  clusterThreshold a == clusterThreshold b.
Proof.
  intros Hf. unfold clusterThreshold, Js.gtb.
  rewrite (Qleb_comp _ _ Hf 0 0) by reflexivity.
  destruct (negb _); [by rewrite Hf | reflexivity].
Qed.

Lemma SameShape_fmap {A B} (f : list A → list B) ls :
  (∀ l, length (f l) = length l) → SameShape ls (f <$> ls).
Proof.
  intros Hf. unfold SameShape. apply Forall2_fmap_r.
  induction ls as [|l ls IH]; constructor; [|done].
  simpl. by rewrite Hf.
Qed.

Lemma SameShape_sym {A B} (ls : list (list A)) (ls' : list (list B)) :
  SameShape ls ls' → SameShape ls' ls.
Proof.
  unfold SameShape. intros H. apply Forall2_flip.
  eapply Forall2_impl; [exact H|]. by intros.
Qed.

Lemma SameShape_trans {A B C} (ls1 : list (list A)) (ls2 : list (list B))
    (ls3 : list (list C)) :
  SameShape ls1 ls2 → SameShape ls2 ls3 → SameShape ls1 ls3.
Proof.
  unfold SameShape. intros H1 H2.
  eapply Forall2_trans; [|exact H1|exact H2].
  intros l1 l2 l3 ? ?. simpl in *. congruence.
Qed.

(** ** Sorting the sorted page again *)

Lemma concat_fmap_perm {A} (f : list A → list A) (ls : list (list A)) :
  (∀ l, f l ≡ₚ l) → concat (f <$> ls) ≡ₚ concat ls.
Proof.
  intros Hf. induction ls as [|l ls IH]; [done|].
  cbn [fmap list_fmap concat]. change (list_fmap _ _ ?f ?l) with (f <$> l).
  by rewrite Hf, IH.
Qed.

Section SortAgain.

Variable items : list TextItem.
Hypothesis no_objects : Forall NoTextObject items.
Hypothesis same_baseline_same_font :
  ∀ a b, a ∈ items → b ∈ items →
    TextItem.y a == TextItem.y b →
    TextItem.fontSize a == TextItem.fontSize b.

Variables (first1 : TaggedEntry) (rest1 : list TaggedEntry).
Hypothesis sorted1 : Js.sort compareY (tagItems items) = first1 :: rest1.

Lemma tagged_no_object e : e ∈ tagItems items → NoTextObject (item e).
Proof.
  intros He. apply elem_of_tagItems in He.
  rewrite Forall_forall in no_objects. by apply no_objects.
Qed.

Lemma lines1_entries l e :
  l ∈ groupFrom clusterThreshold first1 rest1 → e ∈ l → e ∈ tagItems items.
Proof.
  intros Hl He. apply (elem_of_groupFrom _ _ _ _ _ Hl) in He.
  by rewrite <- sorted1, sort_perm in He.
Qed.

Lemma sortedLines_by_x :
  sortedLines items
  = Js.sort compareX <$> groupFrom clusterThreshold first1 rest1.
Proof.
  unfold sortedLines. rewrite sorted1.
  apply Forall_fmap_ext, Forall_forall. intros l Hl.
  apply sortLine_no_object, Forall_forall. intros e He.
  eapply tagged_no_object, lines1_entries; done.
Qed.

Lemma sortedLines_above : StronglySorted Above (sortedLines items).
Proof.
  rewrite sortedLines_by_x.
  apply (StronglySorted_fmap _ Above).
  - intros l l' Hll'. by rewrite !sort_perm.
  - apply groupFrom_above. rewrite <- sorted1.
    apply (sort_by_key_sorted compareY keyY compareY_keyY).
Qed.

Lemma sortedLines_by_x_sorted :
  Forall (StronglySorted (λ a b, keyX a <= keyX b)) (sortedLines items).
Proof.
  rewrite sortedLines_by_x. apply Forall_fmap, Forall_forall. intros l _.
  apply (sort_by_key_sorted compareX keyX compareX_keyX).
Qed.

Lemma sortedLines_concat_perm : concat (sortedLines items) ≡ₚ tagItems items.
Proof.
  rewrite sortedLines_by_x, concat_fmap_perm by apply sort_perm.
  by rewrite groupFrom_concat, <- sorted1, sort_perm.
Qed.

Variable regions : list ColumnRegion.t.
Hypothesis regions_within :
  RegionsWithin (length (sortedLines items)) 0 regions.

Lemma sortedEntries_perm : sortedEntries items regions ≡ₚ tagItems items.
Proof.
  unfold sortedEntries.
  rewrite (columnFirst_perm _ _ _ regions_within), drop_0.
  apply sortedLines_concat_perm.
Qed.

(** Sorting the flattened result by y gives back the lines, each sorted
    by y. *)
Lemma sort_sortedEntries :
  Js.sort compareY (sortedEntries items regions)
  = concat (Js.sort compareY <$> sortedLines items).
Proof.
  unfold sortedEntries.
  rewrite <- (app_nil_l (concat _)).
  rewrite (sort_columnFirst _ _ _ [] regions_within sortedLines_above
             sortedLines_by_x_sorted).
  rewrite drop_0. apply sort_concat_lines, sortedLines_above.
Qed.

Lemma sorted_same_baseline :
  Forall2 SameBaseline (first1 :: rest1)
    (Js.sort compareY (sortedEntries items regions)).
Proof.
  rewrite <- sorted1.
  pose proof (sort_perm_keys compareY keyY compareY_keyY
                (tagItems items) (sortedEntries items regions)) as Hkeys.
  eapply Forall2_impl; [apply Forall2_elem, Hkeys; by rewrite sortedEntries_perm|].
  intros a b (Hkey & Ha & Hb). simpl in Hkey.
  rewrite sort_perm in Ha. rewrite sort_perm, sortedEntries_perm in Hb.
  assert (TextItem.y (item a) == TextItem.y (item b)) as Hy.
  { unfold keyY in Hkey. lra. }
  split; [done|].
  apply clusterThreshold_same, same_baseline_same_font;
    auto using elem_of_tagItems.
Qed.

(** Clustering it again gives the same lines, each sorted by y. *)
Lemma group_sortedEntries first2 rest2 :
  Js.sort compareY (sortedEntries items regions) = first2 :: rest2 →
  groupFrom clusterThreshold first2 rest2
  = Js.sort compareY <$> sortedLines items.
Proof.
  intros Hsorted2.
  apply concat_same_shape.
  - pose proof sorted_same_baseline as Hsame. rewrite Hsorted2 in Hsame.
    apply Forall2_cons in Hsame as [Hfirst Hrest].
    eapply SameShape_trans;
      [apply SameShape_sym, (groupFrom_same_shape _ _ _ _ Hfirst Hrest)|].
    rewrite sortedLines_by_x.
    eapply SameShape_trans; apply SameShape_fmap; intros l; apply sort_length.
  - by rewrite groupFrom_concat, <- Hsorted2, sort_sortedEntries.
Qed.

(** And sorting each of these by x gives the lines of the first run. *)
Lemma sort_lines_again :
  Js.sort compareX <$> (Js.sort compareY <$> sortedLines items)
  = sortedLines items.
Proof.
  rewrite sortedLines_by_x, <- !list_fmap_compose.
  apply Forall_fmap_ext, Forall_forall. intros l Hl. simpl.
  apply (sort_sort_sort compareX compareY keyX keyY
           compareX_keyX compareY_keyY).
  - eapply NoDup_concat_elem; [|exact Hl].
    rewrite groupFrom_concat, <- sorted1, sort_perm. apply NoDup_tagItems.
  - eapply StronglySorted_concat_elem; [|exact Hl].
    rewrite groupFrom_concat, <- sorted1.
    apply (sort_by_key_sorted compareY keyY compareY_keyY).
Qed.

End SortAgain.

(** The lines of the second run are the lines of the first, up to the
    indices that the entries carry. *)
Lemma sortedLines_again items regions :
  Forall NoTextObject items → OneFontPerBaseline items →
  RegionsWithin (length (sortedLines items)) 0 regions →
  mapLines (retag (indexAt (sortedEntries items regions)))
    (sortedLines (item <$> sortedEntries items regions))
  = sortedLines items.
Proof.
  intros Hno Hfont Hwithin.
  destruct (Js.sort compareY (tagItems items)) as [|first1 rest1] eqn:Hsorted1.
  { assert (sortedLines items = []) as Hlines.
    { unfold sortedLines. by rewrite Hsorted1. }
    assert (sortedEntries items regions = []) as ->; [|by rewrite Hlines].
    apply Permutation_nil_r. unfold sortedEntries.
    rewrite (columnFirst_perm _ _ _ Hwithin), Hlines. done. }
  set (entries := sortedEntries items regions).
  assert (entries ≡ₚ tagItems items) as Hperm.
  { by apply (sortedEntries_perm items Hno first1 rest1). }
  pose proof (sort_compareY_retag (indexAt entries)
                (tagItems (item <$> entries))) as Hretag.
  rewrite retag_tagItems in Hretag.
  unfold sortedLines at 1.
  destruct (Js.sort compareY (tagItems (item <$> entries)))
    as [|first2 rest2] eqn:Hsorted2.
  { exfalso. simpl in Hretag.
    apply (f_equal length) in Hretag.
    rewrite sort_length, Hperm, <- (sort_length compareY), Hsorted1 in Hretag.
    done. }
  assert (Forall
            (Forall (λ e, NoTextObject (item e)))
            (groupFrom clusterThreshold first2 rest2)) as Hno2.
  { apply Forall_forall. intros l Hl. apply Forall_forall. intros e He.
    apply (elem_of_groupFrom _ _ _ _ _ Hl) in He.
    rewrite <- Hsorted2, sort_perm in He.
    apply elem_of_tagItems, list_elem_of_fmap in He as (e' & -> & He').
    rewrite Hperm in He'. apply elem_of_tagItems in He'.
    rewrite Forall_forall in Hno. by apply Hno. }
  assert (sortLine <$> groupFrom clusterThreshold first2 rest2
          = Js.sort compareX <$> groupFrom clusterThreshold first2 rest2)
    as ->.
  { apply Forall_fmap_ext. eapply Forall_impl; [exact Hno2|].
    intros l. apply sortLine_no_object. }
  assert (mapLines (retag (indexAt entries))
            (Js.sort compareX <$> groupFrom clusterThreshold first2 rest2)
          = Js.sort compareX
            <$> mapLines (retag (indexAt entries))
                  (groupFrom clusterThreshold first2 rest2)) as ->.
  { unfold mapLines. rewrite <- !list_fmap_compose.
    apply list_fmap_ext. intros _ l _. simpl.
    symmetry. apply sort_compareX_retag. }
  rewrite <- groupFrom_retag.
  rewrite (group_sortedEntries items Hno Hfont first1 rest1 Hsorted1
             regions Hwithin).
  - by apply (sort_lines_again items Hno first1 rest1).
  - exact Hretag.
Qed.

(** C8, as the specification states it, fails, in two ways.  On
    [mixedFontBaseline], which has no text-object ids, the first run puts
    the lower fragment between the two on the baseline (the font size 30
    before it lets it join their line), and the second run, which meets
    the font size 12 before it, gives it a line of its own.  On
    [objRows], which has one font size, the first run keeps the
    fragments of text object 1 in stream order, [b] before [a], finds the
    dominant gap of every row before [c] and moves [a] into the left
    column; the second run meets [a] before [b] in the stream, finds the
    gap before [b] and moves [c] to the left column as well. *)
Lemma sortTextItems_idempotent_counterexample :
  (Forall NoTextObject mixedFontBaseline
   ∧ ∃ once twice,
       sortTextItems mixedFontBaseline = Some once
       ∧ sortTextItems once = Some twice
       ∧ (TextItem.text <$> once) = [Js.str "B"; Js.str "C"; Js.str "A"]
       ∧ (TextItem.text <$> twice) = [Js.str "B"; Js.str "A"; Js.str "C"]
       ∧ twice ≠ once)
  ∧ (OneFontPerBaseline objRows
     ∧ ∃ once twice,
         sortTextItems objRows = Some once
         ∧ sortTextItems once = Some twice
         ∧ (TextItem.text <$> once)
           = Js.str <$> [ "a1"; "a2"; "a3"; "b1"; "c1"; "b2"; "c2"; "b3";
                          "c3" ]%string
         ∧ (TextItem.text <$> twice)
           = Js.str <$> [ "a1"; "c1"; "a2"; "c2"; "a3"; "c3"; "b1"; "b2";
                          "b3" ]%string
         ∧ twice ≠ once).
Proof.
  split; (split; [|eexists _, _; split_and!; [by vm_compute..|]]).
  - by repeat constructor.
  - intros Heq. apply (f_equal (fmap TextItem.text)) in Heq.
    by vm_compute in Heq.
  - intros a b Ha Hb _.
    assert (∀ it, it ∈ objRows → TextItem.fontSize it = 12) as H12.
    { intros it Hit. unfold objRows in Hit.
      repeat (apply elem_of_cons in Hit as [->|Hit]; [done|]).
      by apply elem_of_nil in Hit. }
    by rewrite (H12 a Ha), (H12 b Hb).
  - intros Heq. apply (f_equal (fmap TextItem.text)) in Heq.
    by vm_compute in Heq.
Qed.

(** C8, amended: the ordering pipeline is idempotent on every fragment
    list in which no fragment carries a text-object id and fragments with
    the same y have the same font size: [sortTextItems] returns on it,
    and returns its own result when run on that. *)
Theorem sortTextItems_idempotent (items : list TextItem) :
  Forall NoTextObject items → OneFontPerBaseline items →
  ∃ sorted,
    sortTextItems items = Some sorted ∧ sortTextItems sorted = Some sorted.
Proof.
  intros Hno Hfont.
  destruct (sortTextItems_columnFirst items) as (regions & Hdetect & Hsort).
  pose proof (detectColumnRegions_Some _ _ Hdetect) as [Hwithin _].
  fold (sortedEntries items regions) in Hsort.
  set (entries := sortedEntries items regions) in *.
  exists (item <$> entries). split; [done|].
  destruct (sortTextItems_columnFirst (item <$> entries))
    as (regions2 & Hdetect2 & ->).
  pose proof (sortedLines_again items regions Hno Hfont Hwithin) as Hlines.
  fold entries in Hlines.
  assert (regions2 = regions) as ->.
  { rewrite <- (detectColumnRegions_map (retag (indexAt entries))
                  (retag_geometry _)), Hlines, Hdetect in Hdetect2.
    by simplify_eq. }
  f_equal.
  rewrite <- (item_retag (indexAt entries)).
  rewrite <- (concat_mapLines (retag (indexAt entries))).
  rewrite <- (columnFirst_map _ (retag_geometry _)).
  by rewrite Hlines.
Qed.

(** The signature blocks of the tests: no text objects, one font size. *)
Lemma sortTextItems_idempotent_witness :
  Forall NoTextObject signatureBlocks ∧ OneFontPerBaseline signatureBlocks
  ∧ ∃ sorted,
      sortTextItems signatureBlocks = Some sorted
      ∧ sortTextItems sorted = Some sorted.
Proof.
  assert (Forall NoTextObject signatureBlocks) as Hno.
  { by repeat constructor. }
  assert (OneFontPerBaseline signatureBlocks) as Hfont.
  { intros a b Ha Hb _.
    assert (∀ it, it ∈ signatureBlocks → TextItem.fontSize it = 12) as H12.
    { intros it Hit. unfold signatureBlocks in Hit.
      repeat (apply elem_of_cons in Hit as [->|Hit]; [done|]).
      by apply elem_of_nil in Hit. }
    by rewrite (H12 a Ha), (H12 b Hb). }
  split_and!; [done..|].
  exact (sortTextItems_idempotent signatureBlocks Hno Hfont).
Defined.

(** * Further properties of the assembler *)

(** ** Link lookup *)

Lemma firstLinkAt_covers it link :
  Js.geb (TextItem.x it + Js.or (TextItem.width it) 0 / 2)
    (LinkAnnotation.x1 link)
  && Js.leb (TextItem.x it + Js.or (TextItem.width it) 0 / 2)
       (LinkAnnotation.x2 link)
  && Js.geb (TextItem.y it) (LinkAnnotation.y1 link)
  && Js.leb (TextItem.y it) (LinkAnnotation.y2 link) = true
  ↔ Covers link it.
Proof.
  unfold Js.geb, Js.leb, Covers.
  rewrite !andb_true_iff, !Qle_bool_iff, or_zero. tauto.
Qed.

Lemma firstLinkAt_spec it links :
  match firstLinkAt (TextItem.x it + Js.or (TextItem.width it) 0 / 2)
          (TextItem.y it) links with
  | Some u =>
      ∃ pre link post,
        links = pre ++ link :: post ∧ Forall (λ l, ¬ Covers l it) pre
        ∧ Covers link it ∧ LinkAnnotation.uri link = u
  | None => Forall (λ l, ¬ Covers l it) links
  end.
Proof.
  induction links as [|link links IH]; cbn [firstLinkAt]; [done|].
  destruct (_ && _) eqn:Hc.
  - apply firstLinkAt_covers in Hc. exists [], link, links. by split_and!.
  - assert (¬ Covers link it) as Hno.
    { rewrite <- firstLinkAt_covers, Hc. done. }
    destruct (firstLinkAt _ _ links) as [u|].
    + destruct IH as (pre & l & post & -> & Hpre & Hl & Hu).
      exists (link :: pre), l, post. split_and!; [done| |done..].
      by constructor.
    + by constructor.
Qed.

(** X1: [findLinkForItem] returns the URI of the first link, in the order of
    the list, whose rectangle covers the centre of the fragment
    ([x + width / 2], [y]; the borders of the rectangle count), and nothing
    when no link covers it. *)
Theorem findLinkForItem_first_covering (it : TextItem)
    (links : list LinkAnnotation.t) :
  (∀ u, findLinkForItem it links = Some u
        ↔ ∃ pre link post,
            links = pre ++ link :: post ∧ Forall (λ l, ¬ Covers l it) pre
            ∧ Covers link it ∧ LinkAnnotation.uri link = u)
  ∧ (findLinkForItem it links = None ↔ Forall (λ l, ¬ Covers l it) links).
Proof.
  assert (findLinkForItem it links
          = firstLinkAt (TextItem.x it + Js.or (TextItem.width it) 0 / 2)
              (TextItem.y it) links) as ->.
  { unfold findLinkForItem. case_bool_decide; [|done]. by destruct links. }
  pose proof (firstLinkAt_spec it links) as Hspec.
  destruct (firstLinkAt _ _ links) as [u0|].
  - destruct Hspec as (pre & link & post & -> & Hpre & Hl & Hu). split.
    + intros u. split.
      * intros [= <-]. by exists pre, link, post.
      * intros (pre' & link' & post' & Heq & Hpre' & Hl' & Hu').
        f_equal. rewrite <- Hu, <- Hu'. f_equal.
        clear Hu Hu'. revert pre' Heq Hpre'.
        induction Hpre as [|l pre Hno Hpre IH]; intros pre' Heq Hpre'.
        -- destruct pre' as [|l' pre']; simplify_eq/=; [done|].
           by inversion Hpre'.
        -- destruct pre' as [|l' pre']; simplify_eq/=; [done|].
           inversion Hpre'; subst. by eapply IH.
    + split; [done|]. intros Hall.
      apply Forall_app in Hall as [_ Hall]. by inversion Hall.
  - split; [|done]. intros u. split; [done|].
    intros (pre & link & post & -> & _ & Hl & _).
    apply Forall_app in Hspec as [_ Hall]. by inversion Hall.
Qed.

Lemma findLinkForItem_first_covering_witness :
  let it := makeItem "Hello" 0 100 30 in
  [wideLink; helloLink] = [] ++ wideLink :: [helloLink]
  ∧ Covers wideLink it
  ∧ findLinkForItem it [wideLink; helloLink]
    = Some (LinkAnnotation.uri wideLink).
Proof.
  intros it.
  assert (Covers wideLink it) as Hcovers.
  { unfold Covers. by vm_compute; intuition discriminate. }
  split_and!; [done..|].
  apply (proj1 (findLinkForItem_first_covering it [wideLink; helloLink])).
  exists [], wideLink, [helloLink]. by split_and!.
Defined.

(** ** Private Use Area normalisation *)

Lemma PUA_TO_UNICODE_range ch mapped :
  PUA_TO_UNICODE !! ch = Some mapped → isPUA mapped = false.
Proof.
  unfold PUA_TO_UNICODE. intros Hm%elem_of_list_to_map_2.
  revert Hm.
  match goal with
  | |- _ ∈ ?l → _ =>
      assert (Forall (λ km : N * N, isPUA km.2 = false) l) as Hall
        by (repeat constructor)
  end.
  intros Hm. by apply (proj1 (Forall_forall _ _) Hall (ch, mapped)).
Qed.

Lemma normalizePUA_app s t :
  normalizePUA (s ++ t) = normalizePUA s ++ normalizePUA t.
Proof. unfold normalizePUA. apply bind_app. Qed.

Lemma normalizePUA_cons c s :
  normalizePUA (c :: s)
  = (if isPUA c then
       match PUA_TO_UNICODE !! c with Some mapped => [mapped] | None => [] end
     else [c]) ++ normalizePUA s.
Proof. reflexivity. Qed.

Lemma normalizePUA_id text :
  Forall (λ c, isPUA c = false) text → normalizePUA text = text.
Proof.
  induction 1 as [|c s Hc Hs IH]; [done|].
  by rewrite normalizePUA_cons, Hc, IH.
Qed.

Lemma normalizePUA_clean text :
  Forall (λ c, isPUA c = false) (normalizePUA text).
Proof.
  induction text as [|c s IH]; [constructor|].
  rewrite normalizePUA_cons. apply Forall_app. split; [|done].
  destruct (isPUA c) eqn:Hc.
  - destruct (PUA_TO_UNICODE !! c) as [mapped|] eqn:Hm; [|constructor].
    repeat constructor. by eapply PUA_TO_UNICODE_range.
  - by repeat constructor.
Qed.

(** X2: [normalizePUA] leaves no code unit of the Private Use Area
    [U+E000..U+F8FF] in its result: every one is replaced by its entry in
    the table or dropped.  The result is never longer than the text, and
    each of its code units is a code unit of the text or the table entry
    of one. *)
Theorem normalizePUA_leaves_no_pua (text : jsstring) :
  Forall (λ c, ¬ (0xE000 ≤ c ≤ 0xF8FF)%N) (normalizePUA text)
  ∧ (length (normalizePUA text) ≤ length text)%nat
  ∧ (∀ c, c ∈ normalizePUA text →
          c ∈ text ∨ ∃ ch, ch ∈ text ∧ PUA_TO_UNICODE !! ch = Some c).
Proof.
  split_and!.
  - eapply Forall_impl; [apply normalizePUA_clean|].
    intros c Hc [Hlo Hhi]. unfold isPUA, Regex.inRange in Hc.
    apply N.leb_le in Hlo, Hhi. by rewrite Hlo, Hhi in Hc.
  - induction text as [|c s IH]; [done|].
    rewrite normalizePUA_cons, length_app. cbn [length].
    destruct (isPUA c); [destruct (PUA_TO_UNICODE !! c)|]; cbn [length]; lia.
  - induction text as [|c s IH]; [by intros ? ?%elem_of_nil|].
    intros d. rewrite normalizePUA_cons, elem_of_app. intros [Hd|Hd].
    + destruct (isPUA c).
      * destruct (PUA_TO_UNICODE !! c) as [mapped|] eqn:Hm;
          [|by apply elem_of_nil in Hd].
        apply list_elem_of_singleton in Hd as ->.
        right. exists c. split; [by left | done].
      * apply list_elem_of_singleton in Hd as ->. left. by left.
    + destruct (IH d Hd) as [?|(ch & ? & ?)].
      * left. by right.
      * right. exists ch. split; [by right | done].
Qed.

(** The Wingdings bullet [U+F0B7] before an [A]. *)
Lemma normalizePUA_leaves_no_pua_witness :
  (0x2022%N ∈ normalizePUA [0xF0B7; 65]%N)
  ∧ (0x2022%N ∈ [0xF0B7; 65]%N
     ∨ ∃ ch, ch ∈ [0xF0B7; 65]%N ∧ PUA_TO_UNICODE !! ch = Some 0x2022%N).
Proof.
  assert (0x2022%N ∈ normalizePUA [0xF0B7; 65]%N) as Hin.
  { vm_compute. by left. }
  split; [done|].
  exact (proj2 (proj2 (normalizePUA_leaves_no_pua [0xF0B7; 65]%N)) _ Hin).
Defined.

(** X3: [normalizePUA] is idempotent, and it returns a text without code
    units of the Private Use Area as it is. *)
Theorem normalizePUA_idempotent (text : jsstring) :
  normalizePUA (normalizePUA text) = normalizePUA text
  ∧ (Forall (λ c, ¬ (0xE000 ≤ c ≤ 0xF8FF)%N) text → normalizePUA text = text).
Proof.
  split.
  - apply normalizePUA_id, normalizePUA_clean.
  - intros Hall. apply normalizePUA_id.
    eapply Forall_impl; [exact Hall|].
    intros c Hc. unfold isPUA, Regex.inRange.
    destruct (57344 <=? c)%N eqn:Hlo; [|done].
    destruct (c <=? 63743)%N eqn:Hhi; [|done].
    apply N.leb_le in Hlo, Hhi. by destruct Hc.
Qed.

Lemma normalizePUA_idempotent_witness :
  Forall (λ c, ¬ (0xE000 ≤ c ≤ 0xF8FF)%N) (Js.str "Hello")
  ∧ normalizePUA (Js.str "Hello") = Js.str "Hello".
Proof.
  assert (Forall (λ c, ¬ (0xE000 ≤ c ≤ 0xF8FF)%N) (Js.str "Hello")) as Hall.
  { repeat constructor; cbn; lia. }
  split; [done|].
  by apply (proj2 (normalizePUA_idempotent (Js.str "Hello"))).
Defined.

(** ** The fragments that a walk emits *)

Lemma walkLog_events links F prev l ev :
  ev ∈ walkLog links F prev l →
  ev ≠ EndEvent
  ∧ ∀ it link, ev = ItemEvent it link → link = findLinkForItem it links.
Proof.
  revert F prev. induction l as [|it l IH]; intros F prev.
  { by intros ?%elem_of_nil. }
  cbn [walkLog]. rewrite elem_of_app, elem_of_cons. intros [Hev|[->|Hev]].
  - destruct prev as [p|]; [|by apply elem_of_nil in Hev].
    unfold separator in Hev.
    destruct (classify _ _); rewrite ?list_elem_of_singleton in Hev;
      [subst ev..|by apply elem_of_nil in Hev]; by split.
  - split; [done|]. by intros ? ? [= <- <-].
  - by eapply IH.
Qed.

Lemma walkLog_head links F l ev :
  head (walkLog links F None l) = Some ev →
  ∃ it, head l = Some it ∧ ev = ItemEvent it (findLinkForItem it links).
Proof. destruct l as [|it l]; [done|]. cbn. intros [= <-]. by exists it. Qed.

(** X4: For a page with fragments, the walk returns.  Its item events are
    the fragments with text of the sorted order, each once and in that
    order, each with the link that [findLinkForItem] finds for it; the
    first event is the first of them, without a line break or a space
    before it; and the end event comes last and only there. *)
Theorem walk_emits_sorted_fragments (items : list TextItem)
    (links : list LinkAnnotation.t) :
  items ≠ [] →
  ∃ sorted log,
    sortTextItems items = Some sorted
    ∧ walkEvents items links = Some (log ++ [EndEvent])
    ∧ itemsOf log = emitted sorted
    ∧ (∀ it link, ItemEvent it link ∈ log → link = findLinkForItem it links)
    ∧ (EndEvent ∉ log)
    ∧ (∀ ev, head log = Some ev →
         ∃ it, head (emitted sorted) = Some it
               ∧ ev = ItemEvent it (findLinkForItem it links)).
Proof.
  intros Hne.
  destruct (sortTextItems_sorted_perm items) as (sorted & Hsort & Hperm).
  assert (sorted ≠ []) as Hsorted.
  { intros ->. apply Permutation_nil in Hperm. by subst. }
  exists sorted, (walkLog links (startFont sorted) None (emitted sorted)).
  split_and!; [done|by apply walkEvents_walkLog|apply itemsOf_walkLog|..].
  - intros it link Hin. by apply (walkLog_events _ _ _ _ _ Hin).
  - intros Hin. by apply walkLog_events in Hin as [? _].
  - apply walkLog_head.
Qed.

Lemma walk_emits_sorted_fragments_witness :
  helloWorld ≠ []
  ∧ ∃ sorted log,
      sortTextItems helloWorld = Some sorted
      ∧ walkEvents helloWorld [helloLink] = Some (log ++ [EndEvent])
      ∧ itemsOf log = emitted sorted.
Proof.
  assert (helloWorld ≠ []) as Hne by done.
  split; [done|].
  destruct (walk_emits_sorted_fragments helloWorld [helloLink] Hne)
    as (sorted & log & Hsort & Hlog & Hitems & _).
  by exists sorted, log.
Defined.

(** ** What placeholder stripping leaves alone *)

Lemma removeFrom_sublist r s skip : Regex.removeFrom r s skip `sublist_of` s.
Proof.
  revert skip. induction s as [|c s IH]; intros skip; [done|].
  cbn [Regex.removeFrom]. destruct skip as [|n].
  - destruct (Regex.exec r (c :: s)) as [rest|].
    + destruct (length (c :: s) - length rest)%nat.
      * by apply sublist_skip.
      * by apply sublist_cons.
    + by apply sublist_skip.
  - by apply sublist_cons.
Qed.

(** X5: [stripFormPlaceholderText] only removes: its result is the text with
    some code units left out, in the order of the text, and so never
    longer than the text. *)
Theorem stripFormPlaceholderText_only_removes (text : jsstring) :
  stripFormPlaceholderText text `sublist_of` text
  ∧ (length (stripFormPlaceholderText text) ≤ length text)%nat.
Proof.
  assert (stripFormPlaceholderText text `sublist_of` text) as Hsub.
  { unfold stripFormPlaceholderText, Regex.removeAll.
    etrans; apply removeFrom_sublist. }
  split; [done|]. by apply sublist_length.
Qed.

Lemma removeAll_form_no_backslash text :
  Regex.backslash ∉ text → Regex.removeAll FORM_PLACEHOLDER_RE text = text.
Proof.
  intros Htext. unfold Regex.removeAll.
  rewrite <- (app_nil_r text) at 1. rewrite removeFrom_copy.
  { apply app_nil_r. }
  intros u1 u2 -> Hu2. destruct u2 as [|a u2]; [done|].
  assert (Regex.isChar Regex.backslash a = false) as Ha.
  { apply N.eqb_neq. intros ->. apply Htext.
    apply elem_of_app. right. by left. }
  destruct (Regex.isChar 32 a) eqn:Hsp.
  2: { by apply exec_form_placeholder_head. }
  rewrite exec_form_placeholder.
  unfold Regex.exec, SELF_CLOSING_ANCHOR, OPEN_ANCHOR, ORPHANED_DELIMITER.
  cbn [Regex.rmatch app]. rewrite Ha, Hsp.
  destruct u2 as [|b u2]; cbn [app]; [done|].
  assert (Regex.isChar Regex.backslash b = false) as ->; [|done].
  apply N.eqb_neq. intros ->. apply Htext.
  apply elem_of_app. right. right. by left.
Qed.

(** X6: A text without a backslash has no placeholder:
    [stripFormPlaceholderText] returns it as it is. *)
Theorem stripFormPlaceholderText_without_backslash (text : jsstring) :
  Regex.backslash ∉ text → stripFormPlaceholderText text = text.
Proof.
  intros Htext. unfold stripFormPlaceholderText.
  rewrite removeAll_form_no_backslash by done.
  rewrite <- (app_nil_r text) at 1.
  rewrite removeAll_trailing_before by done. apply app_nil_r.
Qed.

Lemma stripFormPlaceholderText_without_backslash_witness :
  (Regex.backslash ∉ Js.str "Total: 4/1/2025")
  ∧ stripFormPlaceholderText (Js.str "Total: 4/1/2025")
    = Js.str "Total: 4/1/2025".
Proof.
  assert (Regex.backslash ∉ Js.str "Total: 4/1/2025") as Htext.
  { rewrite list_elem_of_In. by vm_compute; intuition discriminate. }
  split; [done|].
  by apply stripFormPlaceholderText_without_backslash.
Defined.

(** ** The lines of the structured sink *)

Section StructuredLines.

Variable detectFontStyle : jsstring → FontStyle.t.

Lemma pushLine_has_text isBlankAfter st :
  PushedLinesHaveText st → PushedLinesHaveText (pushLine isBlankAfter st).
Proof.
  intros Hres. unfold PushedLinesHaveText. cbn [pushLine Sink.result].
  case_bool_decide as Htext; [|done].
  apply Forall_app. split; [done|]. by repeat constructor.
Qed.

(** X7: With placeholder stripping disabled, every line that
    [assembleStructuredItems] returns has text, and so at least one span:
    a line break or the end of the page pushes a line only when text has
    been collected.  With stripping, a line can lose all its text: a page
    that holds only a self-closing anchor gives one line without text. *)
Theorem structured_lines_have_text (items : list TextItem)
    (links : list LinkAnnotation.t) :
  (∃ lines,
     assembleStructuredItems detectFontStyle items links keepPlaceholders
     = Some lines
     ∧ Forall
         (λ line,
            StructuredLine.text line ≠ [] ∧ StructuredLine.spans line ≠ [])
         lines)
  ∧ (StructuredLine.text
       <$> default []
             (assembleStructuredItems detectFontStyle anchorOnly [] None)
     = [[]]).
Proof.
  split; [|by vm_compute].
  unfold assembleStructuredItems. case_bool_decide as Hlen.
  { by exists []. }
  destruct items as [|it items]; [done|].
  match goal with
  | |- context [walkItems ?l ?v ?i ?s] =>
      destruct (walkItems_total l v it items s) as [st Hwalk];
      rewrite Hwalk
  end.
  cbn [mbind option_bind]. exists (Sink.result st). split; [done|].
  pose proof Hwalk as Hwalk'.
  eapply (walkItems_invariant links (structuredVisitor detectFontStyle)
            SinkConsistent) in Hwalk.
  2: { intros ? p s. apply pushLine_consistent. }
  2: { apply structuredVisitor_onSpace_consistent. }
  2: { apply structuredVisitor_onItem_consistent. }
  2: { intros s. apply pushLine_consistent. }
  2: { by split. }
  eapply (walkItems_invariant links (structuredVisitor detectFontStyle)
            PushedLinesHaveText) in Hwalk'.
  2: { intros ? p s. apply pushLine_has_text. }
  2: { intros s Hs. cbn. by destruct (last (Sink.currentSpans s)). }
  2: { intros ? ? s Hs. cbn. by case_bool_decide. }
  2: { intros s. apply pushLine_has_text. }
  2: { constructor. }
  destruct Hwalk as [_ Hspans]. unfold PushedLinesHaveText in Hwalk'.
  rewrite Forall_forall in Hspans, Hwalk'. apply Forall_forall.
  intros line Hline. split; [by apply Hwalk'|].
  intros Hnil. apply (Hwalk' line Hline).
  rewrite (Hspans line Hline). by rewrite Hnil.
Qed.

End StructuredLines.

(** ** A page of one baseline *)

Lemma groupFrom_one_line thr prev rest :
  (∀ a b, a ∈ prev :: rest → b ∈ prev :: rest → farBelow thr a b = false) →
  groupFrom thr prev rest = [prev :: rest].
Proof.
  revert prev. induction rest as [|e rest IH]; intros prev Hnear; [done|].
  cbn [groupFrom]. rewrite Hnear by (rewrite !elem_of_cons; auto).
  rewrite IH; [done|].
  intros a b Ha Hb. apply Hnear; by right.
Qed.

(** X8: The fragments of a page on which every fragment has the same y and
    none carries a text-object id come out in ascending order of x,
    fragments with the same x in the order of the stream: the result is
    the stable sort of the page by x. *)
Theorem sortTextItems_one_baseline (items : list TextItem) :
  Forall NoTextObject items →
  (∀ a b, a ∈ items → b ∈ items → TextItem.y a == TextItem.y b) →
  sortTextItems items = Some (Js.sort compareItemX items)
  ∧ StronglySorted (λ a b, TextItem.x a <= TextItem.x b)
      (Js.sort compareItemX items)
  ∧ Js.sort compareItemX items ≡ₚ items.
Proof.
  intros Hno Hy. split_and!.
  2: { apply (sort_by_key_sorted compareItemX TextItem.x).
       intros a b. unfold compareItemX. rewrite Qle_bool_iff, !or_zero.
       split; intros; lra. }
  2: { apply sort_perm. }
  destruct items as [|it0 items']; [done|].
  set (items := it0 :: items') in *.
  destruct (sortTextItems_columnFirst items) as (regions & Hdetect & ->).
  assert (Js.sort compareY (tagItems items) = tagItems items) as Hsorted.
  { apply (sort_of_sorted compareY keyY compareY_keyY).
    apply pairs_StronglySorted. intros a b Hab.
    assert (a ∈ tagItems items ∧ b ∈ tagItems items) as [Ha Hb].
    { split; (eapply elem_of_sublist; [|exact Hab]);
        rewrite !elem_of_cons; auto. }
    apply elem_of_tagItems in Ha, Hb. unfold keyY.
    rewrite (Hy _ _ Ha Hb). apply Qle_refl. }
  assert (sortedLines items = [Js.sort compareX (tagItems items)]) as Hlines.
  { unfold sortedLines. rewrite Hsorted.
    destruct (tagItems items) as [|t0 rest] eqn:Htag; [done|].
    rewrite groupFrom_one_line.
    - cbn [fmap list_fmap]. rewrite sortLine_no_object; [done|].
      apply Forall_forall. intros e He. rewrite <- Htag in He.
      apply elem_of_tagItems in He.
      by apply (proj1 (Forall_forall _ _) Hno).
    - intros a b Ha Hb. rewrite <- Htag in Ha, Hb.
      apply elem_of_tagItems in Ha, Hb.
      unfold farBelow. apply gtb_le.
      pose proof (clusterThreshold_pos a) as Hpos.
      pose proof (Hy _ _ Hb Ha) as Hsame.
      assert (Qabs (TextItem.y (item b) - TextItem.y (item a)) == 0) as ->;
        [|lra].
      assert (TextItem.y (item b) - TextItem.y (item a) == 0) as -> by lra.
      done. }
  rewrite Hlines in *.
  assert (regions = []) as ->.
  { apply (few_gap_lines_no_region _ _ Hdetect).
    unfold gapLinesIn, MIN_COLUMN_RUN.
    pose proof (List.filter_length_le hasGap
                  (Js.slice 0 (length [Js.sort compareX (tagItems items)])
                     [Js.sort compareX (tagItems items)])) as Hle.
    cbn [length] in *. unfold Js.slice in *. cbn in Hle. cbn. lia. }
  f_equal. cbn [columnFirst drop concat]. rewrite app_nil_r.
  rewrite <- (sort_fmap compareX compareItemX item) by done.
  by rewrite tagItems_items.
Qed.

Lemma sortTextItems_one_baseline_witness :
  Forall NoTextObject rightToLeft
  ∧ (∀ a b, a ∈ rightToLeft → b ∈ rightToLeft →
            TextItem.y a == TextItem.y b)
  ∧ sortTextItems rightToLeft
    = Some [ makeItem "a" 0 100 10; makeItem "b1" 40 100 10;
             makeItem "b2" 40 100 10; makeItem "c" 80 100 10 ].
Proof.
  assert (Forall NoTextObject rightToLeft) as Hno by (by repeat constructor).
  assert (∀ a b, a ∈ rightToLeft → b ∈ rightToLeft →
                 TextItem.y a == TextItem.y b) as Hy.
  { assert (∀ it, it ∈ rightToLeft → TextItem.y it = 100) as H100.
    { intros it Hit. unfold rightToLeft in Hit.
      repeat (apply elem_of_cons in Hit as [->|Hit]; [done|]).
      by apply elem_of_nil in Hit. }
    intros a b Ha Hb. by rewrite (H100 a Ha), (H100 b Hb). }
  split_and!; [done..|].
  rewrite (proj1 (sortTextItems_one_baseline rightToLeft Hno Hy)).
  by vm_compute.
Defined.

(** ** A walk is the replay of its log *)

Section Replay.

Context {S : Type} (links : list LinkAnnotation.t) (visitor : ItemVisitor.t S).

Lemma replay_app log1 log2 (s : S) :
  replay visitor (log1 ++ log2) s = replay visitor log2 (replay visitor log1 s).
Proof. apply foldl_app. Qed.

Lemma walkStep_replay w s log it :
  walkStep links visitor (w, replay visitor log s) it
  = ((walkStep links recorder (w, log) it).1,
     replay visitor (walkStep links recorder (w, log) it).2 s).
Proof.
  unfold walkStep. case_bool_decide; [done|].
  destruct (classify w it); cbn [fst snd recorder ItemVisitor.onLineBreak
    ItemVisitor.onSpace ItemVisitor.onItem]; by rewrite !replay_app.
Qed.

Lemma walk_fold_replay sorted w s log :
  foldl (walkStep links visitor) (w, replay visitor log s) sorted
  = ((foldl (walkStep links recorder) (w, log) sorted).1,
     replay visitor (foldl (walkStep links recorder) (w, log) sorted).2 s).
Proof.
  revert w log. induction sorted as [|it sorted IH]; intros w log; [done|].
  cbn [foldl]. rewrite walkStep_replay.
  destruct (walkStep links recorder (w, log) it) as [w1 log1]. apply IH.
Qed.

(** Every visitor receives the calls that the recorder logs, in their
    order. *)
Lemma walkItems_replay items s :
  walkItems links visitor items s
  = (λ log, replay visitor log s) <$> walkEvents items links.
Proof.
  unfold walkEvents, walkItems.
  destruct (sortTextItems items) as [sorted|]; [|done].
  cbn [mbind option_bind].
  destruct (head sorted) as [first|]; [|done]. cbn [mbind option_bind].
  pose proof (walk_fold_replay sorted (walkInit first) s []) as Hfold.
  change (replay visitor [] s) with s in Hfold. rewrite Hfold.
  destruct (foldl (walkStep links recorder) _ _) as [w1 log1].
  cbn [fst snd fmap option_fmap option_map recorder ItemVisitor.onEnd].
  by rewrite replay_app.
Qed.

End Replay.

(** ** The plain-text sink and the structured sink *)

Lemma withText_app lines1 lines2 :
  withText (lines1 ++ lines2) = withText lines1 ++ withText lines2.
Proof. apply List.filter_app. Qed.

Section TwoSinks.

Variable detectFontStyle : jsstring → FontStyle.t.

Lemma withText_singleton line : line ≠ [] → withText [line] = [line].
Proof.
  intros Hne. unfold withText. cbn [List.filter].
  by rewrite bool_decide_false.
Qed.

(** What a line break or the end of the page pushes. *)
Lemma pushed_same_text p ts st :
  SameText ts st →
  withText
    (if bool_decide (TextSink.currentLine ts ≠ [])
     then TextSink.lines ts ++ [TextSink.currentLine ts]
     else TextSink.lines ts)
  = StructuredLine.text <$> Sink.result (pushLine p st).
Proof.
  intros [Hlines Hcur]. cbn [pushLine Sink.result]. rewrite <- Hcur.
  case_bool_decide as Hne; [|done].
  by rewrite withText_app, fmap_app, Hlines, withText_singleton.
Qed.

Lemma pushLine_same_text p ts st it :
  SameText ts st →
  SameText (ItemVisitor.onLineBreak textVisitor it p ts) (pushLine p st).
Proof.
  intros Hsame. split; [|done].
  cbn [textVisitor ItemVisitor.onLineBreak TextSink.lines].
  destruct p; [|by apply pushed_same_text].
  by rewrite withText_app, (pushed_same_text true ts st), app_nil_r.
Qed.

Lemma onSpace_same_text ts st :
  SameText ts st → Sink.currentSpans st ≠ [] →
  SameText (ItemVisitor.onSpace textVisitor ts)
    (ItemVisitor.onSpace (structuredVisitor detectFontStyle) st)
  ∧ Sink.currentSpans
      (ItemVisitor.onSpace (structuredVisitor detectFontStyle) st) ≠ [].
Proof.
  intros [Hlines Hcur] Hspans.
  cbn [textVisitor structuredVisitor ItemVisitor.onSpace].
  destruct (last (Sink.currentSpans st)) as [lastSpan|] eqn:Hlast.
  2: { by apply last_None in Hlast. }
  split; [split; [done|]; cbn; by rewrite Hcur|].
  cbn [Sink.currentSpans]. apply last_Some in Hlast as [spans' ->].
  rewrite setLast_snoc. by destruct spans'.
Qed.

Lemma appendToSpans_not_empty rawText fontName link st :
  Sink.currentSpans (appendToSpans detectFontStyle rawText fontName link st)
  ≠ [].
Proof.
  cbn [appendToSpans Sink.currentSpans].
  destruct (last (Sink.currentSpans st)) as [lastSpan|] eqn:Hlast.
  - apply last_Some in Hlast as [spans' ->].
    destruct (_ && _); [rewrite setLast_snoc|]; by destruct spans'.
  - by destruct (Sink.currentSpans st).
Qed.

Lemma onItem_same_text ts st it link1 link2 :
  SameText ts st →
  SameText (ItemVisitor.onItem textVisitor it link1 ts)
    (ItemVisitor.onItem (structuredVisitor detectFontStyle) it link2 st)
  ∧ Sink.currentSpans
      (ItemVisitor.onItem (structuredVisitor detectFontStyle) it link2 st)
    ≠ [].
Proof.
  intros [Hlines Hcur].
  cbn [textVisitor structuredVisitor ItemVisitor.onItem Sink.currentSpans].
  split; [|apply appendToSpans_not_empty].
  split; cbn [TextSink.lines TextSink.currentLine Sink.result
              Sink.currentText appendToSpans].
  - by case_bool_decide.
  - rewrite Hcur. by case_bool_decide.
Qed.

(** The two sinks collect the same text over the log of a walk; the
    plain-text walk runs without links. *)
Lemma replay_same_text links F prev rest ts st :
  SameText ts st → (is_Some prev → Sink.currentSpans st ≠ []) →
  SameText (replay textVisitor (walkLog [] F prev rest) ts)
    (replay (structuredVisitor detectFontStyle)
       (walkLog links F prev rest) st).
Proof.
  revert F prev ts st.
  induction rest as [|it rest IH]; intros F prev ts st Hsame Hspans; [done|].
  cbn [walkLog]. rewrite !replay_app.
  assert (SameText
            (replay textVisitor
               match prev with Some p => separator F p it | None => [] end ts)
            (replay (structuredVisitor detectFontStyle)
               match prev with Some p => separator F p it | None => [] end
               st)) as Hsep.
  { destruct prev as [p|]; [|done]. unfold separator.
    destruct (classify _ _); [| |done].
    - by apply pushLine_same_text.
    - apply onSpace_same_text; [done|]. by apply Hspans. }
  cbn [replay foldl replayEvent].
  match goal with
  | |- SameText (foldl _ (ItemVisitor.onItem _ _ ?l1 ?t1) _)
         (foldl _ (ItemVisitor.onItem _ _ ?l2 ?s1) _) =>
      destruct (onItem_same_text t1 s1 it l1 l2 Hsep) as [Hitem Hne]
  end.
  by apply IH.
Qed.

(** X9: For a page with fragments, [assembleText] and
    [assembleStructuredItems] return, and they collect the same lines:
    the lines that [assembleText] joins and cleans are, the blank
    paragraph separators left out, the texts of the lines that
    [assembleStructuredItems] returns when placeholder stripping is
    disabled, in the same order, whatever the links are. *)
Theorem plain_lines_are_structured_lines (items : list TextItem)
    (links : list LinkAnnotation.t) :
  items ≠ [] →
  ∃ plain structured,
    assembleTextLines items = Some plain
    ∧ (∀ options,
         assembleText items options
         = Some (cleanText (join [newline] plain) (stripRequested options)))
    ∧ assembleStructuredItems detectFontStyle items links keepPlaceholders
      = Some structured
    ∧ withText plain = StructuredLine.text <$> structured.
Proof.
  intros Hne.
  destruct (sortTextItems_sorted_perm items) as (sorted & Hsort & Hperm).
  assert (sorted ≠ []) as Hsorted.
  { intros ->. apply Permutation_nil in Hperm. by subst. }
  unfold assembleText, assembleTextLines, assembleStructuredItems.
  rewrite bool_decide_false by (by destruct items).
  rewrite !walkItems_replay.
  rewrite !(walkEvents_walkLog _ _ _ Hsort Hsorted).
  cbn [fmap option_fmap option_map mbind option_bind].
  eexists _, _. split_and!; [done|done|done|].
  rewrite !replay_app. cbn [replay foldl replayEvent].
  cbn [textVisitor structuredVisitor ItemVisitor.onEnd TextSink.lines].
  apply pushed_same_text, replay_same_text; done.
Qed.

End TwoSinks.

(** The two paragraphs of the tests, with every font taken as regular. *)
Lemma plain_lines_are_structured_lines_witness :
  twoParagraphs ≠ []
  ∧ ∃ plain structured,
      assembleTextLines twoParagraphs = Some plain
      ∧ assembleStructuredItems (λ _, FontStyle.mk false false) twoParagraphs
          [] keepPlaceholders
        = Some structured
      ∧ plain = [Js.str "Para1"; []; Js.str "Para2"]
      ∧ withText plain = StructuredLine.text <$> structured.
Proof.
  assert (twoParagraphs ≠ []) as Hne by done.
  split; [done|].
  destruct (plain_lines_are_structured_lines (λ _, FontStyle.mk false false)
              twoParagraphs [] Hne)
    as (plain & structured & Hplain & _ & Hstructured & Hsame).
  exists plain, structured. split_and!; [done|done| |done].
  vm_compute in Hplain. by simplify_eq.
Defined.

(** ** Plain text is trimmed *)

Lemma trimStart_head s c : head (trimStart s) = Some c → Regex.space c = false.
Proof.
  induction s as [|a s IH]; [done|]. cbn [trimStart].
  destruct (Regex.space a) eqn:Ha; [done|]. by intros [= <-].
Qed.

Lemma trimStart_snoc s c :
  Regex.space c = false → trimStart (s ++ [c]) = trimStart s ++ [c].
Proof.
  intros Hc. induction s as [|a s IH]; cbn [app trimStart].
  - by rewrite Hc.
  - by destruct (Regex.space a).
Qed.

Lemma trimEnd_cons c s :
  Regex.space c = false → trimEnd (c :: s) = c :: trimEnd s.
Proof.
  intros Hc. unfold trimEnd.
  by rewrite reverse_cons, trimStart_snoc, reverse_app.
Qed.

Lemma trim_edges s :
  (∀ c, head (trim s) = Some c → Regex.space c = false)
  ∧ (∀ c, last (trim s) = Some c → Regex.space c = false).
Proof.
  unfold trim. split; intros c.
  - destruct (trimStart s) as [|a u] eqn:Hu; [done|].
    assert (Regex.space a = false) as Ha.
    { apply (trimStart_head s). by rewrite Hu. }
    rewrite trimEnd_cons by done. by intros [= <-].
  - unfold trimEnd. rewrite last_reverse. apply trimStart_head.
Qed.

(** X10: [assembleText] returns for every page, the empty string for a page
    without fragments, and what it returns neither starts nor ends with
    white space. *)
Theorem assembleText_trimmed (items : list TextItem)
    (options : option AssemblyOptions.t) :
  ∃ text,
    assembleText items options = Some text
    ∧ (items = [] → text = [])
    ∧ (∀ c, head text = Some c → Regex.space c = false)
    ∧ (∀ c, last text = Some c → Regex.space c = false).
Proof.
  unfold assembleText, assembleTextLines. case_bool_decide as Hlen.
  { exists []. by split_and!. }
  destruct items as [|it items]; [done|].
  destruct (walkItems_total [] textVisitor it items (TextSink.mk [] []))
    as [st ->].
  cbn [mbind option_bind]. eexists. split; [done|]. split; [done|].
  apply trim_edges.
Qed.

(** ** Placeholder items *)

Lemma exec_placeholder_item s :
  is_Some (Regex.exec PLACEHOLDER_ITEM s)
  ↔ ∃ name digits close,
      s = Regex.backslash :: name ++ digits ++ close
      ∧ name ≠ [] ∧ IsRun Regex.wordStart name ∧ IsRun Regex.digit digits
      ∧ (close = [] ∨ close = [Regex.backslash]).
Proof.
  unfold Regex.exec, PLACEHOLDER_ITEM. cbn [Regex.rmatch]. split.
  - intros [r Hr]. destruct s as [|b s]; [done|].
    destruct (Regex.isChar Regex.backslash b) eqn:Hb; [|done].
    assert (b = Regex.backslash) as -> by (by apply N.eqb_eq in Hb).
    destruct s as [|c s]; [done|].
    destruct (Regex.wordStart c) eqn:Hc; [|done].
    apply star_Some in Hr as (name & tail & -> & Hname & Hk).
    apply star_Some in Hk as (digits & tail' & -> & Hdigits & Hk).
    exists (c :: name), digits, tail'.
    split_and!; [done|done|by constructor|done|].
    destruct tail' as [|b tail']; [by left|].
    destruct (Regex.isChar Regex.backslash b) eqn:Hb'; [|done].
    assert (b = Regex.backslash) as -> by (by apply N.eqb_eq in Hb').
    destruct tail'; [by right | done].
  - intros (name & digits & close & -> & Hne & Hname & Hdigits & Hclose).
    destruct Hname as [|c name Hc Hname]; [done|].
    cbn [app]. cbn. rewrite Hc.
    assert (EndsOrStartsWith (λ c, negb (Regex.digit c)) close) as Hnd.
    { by destruct Hclose as [->| ->]. }
    rewrite star_whole_run; [|done| |].
    + rewrite star_whole_run; [|done|done|].
      * destruct Hclose as [->| ->]; by eexists.
      * intros u1 u2 -> Hu2. destruct u2 as [|a u2]; [done|].
        apply Forall_app in Hdigits as [_ Hu]. inversion Hu; subst.
        cbn. assert (Regex.isChar Regex.backslash a = false) as -> by classes.
        done.
    + destruct Hdigits as [|d ds Hd _].
      * by destruct Hclose as [->| ->].
      * cbn. by rewrite digit_not_wordStart.
    + intros u1 u2 -> Hu2. destruct u2 as [|a u2]; [done|].
      apply Forall_app in Hname as [_ Hu]. inversion Hu; subst.
      cbn. rewrite wordStart_not_digit by done.
      assert (Regex.isChar Regex.backslash a = false) as -> by classes.
      done.
Qed.

(** X11: [isFormPlaceholderItem] holds exactly of the texts that, white space
    at both ends apart, are a backslash, one or more letters or
    underscores, any number of digits and, optionally, a closing
    backslash. *)
Theorem isFormPlaceholderItem_shape (text : jsstring) :
  isFormPlaceholderItem text = true
  ↔ ∃ name digits close,
      trim text = Regex.backslash :: name ++ digits ++ close
      ∧ name ≠ [] ∧ IsRun Regex.wordStart name ∧ IsRun Regex.digit digits
      ∧ (close = [] ∨ close = [Regex.backslash]).
Proof.
  unfold isFormPlaceholderItem. rewrite <- exec_placeholder_item.
  destruct (startsWithBackslash (trim text)) eqn:Hstart; cbn [negb].
  - by rewrite bool_decide_eq_true.
  - split; [done|]. intros Hsome.
    apply exec_placeholder_item in Hsome as (? & ? & ? & Hs & _).
    rewrite Hs in Hstart. by vm_compute in Hstart.
Qed.

(** ** Heading levels *)

Lemma geb_ratio fontSize bodyFontSize c :
  0 < bodyFontSize →
  Js.geb (fontSize / bodyFontSize) c = true ↔ c * bodyFontSize <= fontSize.
Proof.
  intros Hpos. unfold Js.geb. rewrite Qle_bool_iff. split.
  - intros Hle. apply (Qmult_le_r _ _ bodyFontSize Hpos) in Hle.
    assert (fontSize / bodyFontSize * bodyFontSize == fontSize) as Heq.
    { field. intros H0. rewrite H0 in Hpos. by apply Qlt_irrefl in Hpos. }
    by rewrite Heq in Hle.
  - intros Hle. by apply Qle_shift_div_l.
Qed.

Lemma geb_ratio_false fontSize bodyFontSize c :
  0 < bodyFontSize →
  Js.geb (fontSize / bodyFontSize) c = false ↔ fontSize < c * bodyFontSize.
Proof.
  intros Hpos. rewrite <- not_true_iff_false, geb_ratio by done.
  split; [apply Qnot_le_lt | apply Qlt_not_le].
Qed.

(** X12: [inferHeadingLevel] returns a level from 0 to 4.  Without a positive
    body font size it returns 0.  Otherwise the level is 1 from twice the
    body font size on, 2 from 1.6 times, 3 from 1.3 times, 4 from 1.15
    times, and 0 below that, so text of the body font size is no heading;
    the level depends on the ratio of the two sizes only, and a larger
    font size never gives a lower heading. *)
Theorem inferHeadingLevel_thresholds (fontSize bodyFontSize : Q) :
  (inferHeadingLevel fontSize bodyFontSize ≤ 4)%nat
  ∧ (bodyFontSize <= 0 → inferHeadingLevel fontSize bodyFontSize = 0%nat)
  ∧ (0 < bodyFontSize →
     (inferHeadingLevel fontSize bodyFontSize = 1%nat
      ↔ 2 * bodyFontSize <= fontSize)
     ∧ (inferHeadingLevel fontSize bodyFontSize = 2%nat
        ↔ 1.6 * bodyFontSize <= fontSize < 2 * bodyFontSize)
     ∧ (inferHeadingLevel fontSize bodyFontSize = 3%nat
        ↔ 1.3 * bodyFontSize <= fontSize < 1.6 * bodyFontSize)
     ∧ (inferHeadingLevel fontSize bodyFontSize = 4%nat
        ↔ 1.15 * bodyFontSize <= fontSize < 1.3 * bodyFontSize)
     ∧ (inferHeadingLevel fontSize bodyFontSize = 0%nat
        ↔ fontSize < 1.15 * bodyFontSize)
     ∧ inferHeadingLevel bodyFontSize bodyFontSize = 0%nat
     ∧ (∀ k, 0 < k →
          inferHeadingLevel (k * fontSize) (k * bodyFontSize)
          = inferHeadingLevel fontSize bodyFontSize)
     ∧ (∀ larger, fontSize <= larger →
          inferHeadingLevel fontSize bodyFontSize ≠ 0%nat →
          (1 ≤ inferHeadingLevel larger bodyFontSize
           ≤ inferHeadingLevel fontSize bodyFontSize)%nat)).
Proof.
  assert (∀ fs body, 0 < body →
            (inferHeadingLevel fs body = 1%nat ↔ 2 * body <= fs)
            ∧ (inferHeadingLevel fs body = 2%nat
               ↔ 1.6 * body <= fs < 2 * body)
            ∧ (inferHeadingLevel fs body = 3%nat
               ↔ 1.3 * body <= fs < 1.6 * body)
            ∧ (inferHeadingLevel fs body = 4%nat
               ↔ 1.15 * body <= fs < 1.3 * body)
            ∧ (inferHeadingLevel fs body = 0%nat ↔ fs < 1.15 * body))
    as Hlevels.
  { intros fs body Hpos. unfold inferHeadingLevel.
    assert (Js.leb body 0 = false) as ->.
    { unfold Js.leb. apply not_true_iff_false. rewrite Qle_bool_iff.
      by apply Qlt_not_le. }
    cbv zeta.
    destruct (Js.geb (fs / body) 2.0) eqn:H1;
      [apply geb_ratio in H1; [|done] | apply geb_ratio_false in H1; [|done]].
    { split_and!; split; intros; (done || lra). }
    destruct (Js.geb (fs / body) 1.6) eqn:H2;
      [apply geb_ratio in H2; [|done] | apply geb_ratio_false in H2; [|done]].
    { split_and!; split; intros; (done || lra). }
    destruct (Js.geb (fs / body) 1.3) eqn:H3;
      [apply geb_ratio in H3; [|done] | apply geb_ratio_false in H3; [|done]].
    { split_and!; split; intros; (done || lra). }
    destruct (Js.geb (fs / body) 1.15) eqn:H4;
      [apply geb_ratio in H4; [|done] | apply geb_ratio_false in H4; [|done]].
    { split_and!; split; intros; (done || lra). }
    split_and!; split; intros; (done || lra). }
  split_and!.
  - unfold inferHeadingLevel. repeat (destruct (_ : bool); try lia).
  - intros Hle. unfold inferHeadingLevel, Js.leb.
    by rewrite (proj2 (Qle_bool_iff _ _) Hle).
  - intros Hpos.
    destruct (Hlevels fontSize bodyFontSize Hpos) as (L1 & L2 & L3 & L4 & L0).
    split_and!; [done..| | |].
    + apply (Hlevels bodyFontSize bodyFontSize Hpos). lra.
    + intros k Hk.
      assert (0 < k * bodyFontSize) as Hkpos by nra.
      destruct (Hlevels (k * fontSize) (k * bodyFontSize) Hkpos)
        as (K1 & K2 & K3 & K4 & K0).
      assert (inferHeadingLevel fontSize bodyFontSize ≤ 4)%nat as Hle4.
      { unfold inferHeadingLevel. repeat (destruct (_ : bool); try lia). }
      destruct (inferHeadingLevel fontSize bodyFontSize)
        as [|[|[|[|[|n]]]]] eqn:Hl; [| | | | |lia].
      * apply K0. assert (fontSize < 1.15 * bodyFontSize) by by apply L0.
        nra.
      * apply K1. assert (2 * bodyFontSize <= fontSize) by by apply L1. nra.
      * apply K2.
        assert (1.6 * bodyFontSize <= fontSize < 2 * bodyFontSize)
          by by apply L2.
        split; nra.
      * apply K3.
        assert (1.3 * bodyFontSize <= fontSize < 1.6 * bodyFontSize)
          by by apply L3.
        split; nra.
      * apply K4.
        assert (1.15 * bodyFontSize <= fontSize < 1.3 * bodyFontSize)
          by by apply L4.
        split; nra.
    + intros larger Hlarger Hheading.
      destruct (Hlevels larger bodyFontSize Hpos) as (G1 & G2 & G3 & G4 & G0).
      assert (inferHeadingLevel fontSize bodyFontSize ≤ 4)%nat as Hle4.
      { unfold inferHeadingLevel. repeat (destruct (_ : bool); try lia). }
      assert (inferHeadingLevel larger bodyFontSize ≤ 4)%nat as Hle4'.
      { unfold inferHeadingLevel. repeat (destruct (_ : bool); try lia). }
      destruct (inferHeadingLevel fontSize bodyFontSize)
        as [|[|[|[|[|n]]]]] eqn:Hl; [done| | | | |lia];
        destruct (inferHeadingLevel larger bodyFontSize)
          as [|[|[|[|[|m]]]]] eqn:Hg; try lia;
        repeat match goal with
          | H : ?n = ?n ↔ _ |- _ => apply proj1 in H; specialize (H eq_refl)
          end; lra.
Qed.

Lemma inferHeadingLevel_thresholds_witness :
  0 < 12 ∧ inferHeadingLevel 24 12 = 1%nat ∧ inferHeadingLevel 12 12 = 0%nat.
Proof.
  assert (0 < 12) as Hpos by done.
  destruct (inferHeadingLevel_thresholds 24 12) as (_ & _ & Hbody).
  destruct (Hbody Hpos) as (H1 & _ & _ & _ & _ & Hself & _).
  split_and!; [done| |done]. apply H1. by vm_compute.
Defined.
